(** * Baywatch: zone-occupancy monitor

    A shallow embedding of the analysis pipeline (image-processor.ts), the
    row store and event logger (database.ts), the round-robin scheduler
    (round-robin.ts), the detector selection (detection-modes.ts) and the
    occupancy writers and request handlers of the HTTP server (index.ts),
    followed by the properties proved about them.

    Conventions.  JavaScript numbers that hold counts, pixel values, array
    indices and millisecond instants are integers in every run of the
    program and are modelled by [Z] (or [nat] for lengths and loop
    counters).  A [Date] is its [getTime()] value, an instant in
    milliseconds; the ISO-8601 text that [toISOString] renders is identified
    with that instant; the CURRENT_TIMESTAMP that the database stores in a
    row is an instant of its own.  A [Buffer] is a list of byte values with
    out-of-range reads giving [None] (JavaScript's [undefined]) and
    out-of-range writes dropped.  Module-level [let]/[const] state is
    threaded explicitly. *)

From Stdlib Require Import ZArith Lia QArith Floats Sorted.
From stdpp Require Import gmap strings list pretty.

Local Open Scope Z_scope.

(** ** JavaScript helpers *)

Module Js.

(** The outcome of a call that may throw (or of a promise that may
    reject): [Throw msg] carries the error message. *)
Inductive Result (A : Type) : Type :=
| Ok (a : A)
| Throw (msg : string).
Arguments Ok {A} a.
Arguments Throw {A} msg.

Definition bind {A B} (r : Result A) (k : A -> Result B) : Result B :=
  match r with
  | Ok a => k a
  | Throw msg => Throw msg
  end.

(** [try { body } catch (error) { handler(error) }] *)
Definition try_catch {A} (body : Result A) (handler : string -> Result A)
  : Result A :=
  match body with
  | Ok a => Ok a
  | Throw msg => handler msg
  end.

(** [Math.round (a / b)] for integers [a] and [b > 0]: the nearest
    integer, ties towards +infinity, that is [floor (a/b + 1/2)]. *)
Definition round_div (a b : Z) : Z := (2 * a + b) / (2 * b).

(** [v || d] on an optional integer: [undefined], [null] and [0] are
    falsy. *)
Definition or_default (v : option Z) (d : Z) : Z :=
  match v with
  | Some n => if n =? 0 then d else n
  | None => d
  end.

(** [s || d] on an optional string: [undefined] and the empty string are
    falsy. *)
Definition truthy_string (s : option string) : bool :=
  match s with
  | Some EmptyString | None => false
  | Some _ => true
  end.

End Js.

(** [x ← r; k] sequences calls that may throw (stdpp's monad notation). *)
Global Instance Result_ret : MRet Js.Result := @Js.Ok.
Global Instance Result_bind : MBind Js.Result :=
  fun A B k r => Js.bind r k.

(** ** image-processor.ts *)

Module ImageProcessor.

Record Point := { x : Q; y : Q }.

Record BoundingBox := {
  bb_x : Z; bb_y : Z; bb_width : Z; bb_height : Z
}.

Record Blob := {
  id : Z;
  area : Z;
  centroid : Point;
  boundingBox : BoundingBox
}.

(** What [toGrayscale] resolves to. *)
Record Gray := { data : list Z; width : Z; height : Z }.

Record AnalysisResult := {
  blobs : list Blob;
  count : Z;
  mask : list Z
}.

(** *** Buffers *)

(** [buf[i]]; [None] is [undefined]. *)
Definition read (buf : list Z) (i : Z) : option Z :=
  if i <? 0 then None else buf !! Z.to_nat i.

(** [buf[i] = v] for a byte value [v]; dropped when out of range. *)
Definition write (buf : list Z) (i : Z) (v : Z) : list Z :=
  if i <? 0 then buf else <[Z.to_nat i := v]> buf.

(** [Buffer.alloc(n)] and [new Int32Array(n)]: zero-filled. *)
Definition alloc (n : nat) : list Z := replicate n 0.

(** [v === k] for a value read from a buffer. *)
Definition strict_eq (k : Z) (v : option Z) : bool :=
  match v with
  | Some n => n =? k
  | None => false
  end.

(** *** computeDifference *)

Definition computeDifference (current background : list Z) (threshold : Z)
  : list Z :=
  imap (fun i c =>
          match background !! i with
          | Some b => if Z.abs (c - b) >? threshold then 255 else 0
          | None => 0
          end) current.

(** *** morphologyClean *)

(** The offsets [(dx, dy)] in the order of the two inner loops. *)
Definition offsets : list (Z * Z) :=
  dy ← [-1; 0; 1]; dx ← [-1; 0; 1]; [(dx, dy)].

(** The inner loops of the erosion: [allWhite]. *)
Definition allWhite (result : list Z) (width x y : Z) : bool :=
  forallb
    (fun d =>
       negb (strict_eq 0 (read result ((y + d.2) * width + (x + d.1)))))
    offsets.

(** The inner loops of the dilation: [anyWhite]. *)
Definition anyWhite (result : list Z) (width x y : Z) : bool :=
  existsb
    (fun d => strict_eq 255 (read result ((y + d.2) * width + (x + d.1))))
    offsets.

(** One iteration of the first outer loop: a fresh zero buffer, written
    at every [(x, y)] with [1 <= y < height - 1] and [1 <= x < width - 1]. *)
Definition erode_pass (width height : Z) (result : list Z) : list Z :=
  foldl (fun eroded y =>
           foldl (fun eroded x =>
                    write eroded (y * width + x)
                          (if allWhite result width x y then 255 else 0))
                 eroded (seqZ 1 (width - 2)))
        (alloc (length result)) (seqZ 1 (height - 2)).

(** One iteration of the second outer loop. *)
Definition dilate_pass (width height : Z) (result : list Z) : list Z :=
  foldl (fun dilated y =>
           foldl (fun dilated x =>
                    write dilated (y * width + x)
                          (if anyWhite result width x y then 255 else 0))
                 dilated (seqZ 1 (width - 2)))
        (alloc (length result)) (seqZ 1 (height - 2)).

Definition morphologyClean (data : list Z) (width height : Z)
    (iterations : nat) : list Z :=
  let result := data in
  let result := Nat.iter iterations (erode_pass width height) result in
  let result := Nat.iter iterations (dilate_pass width height) result in
  result.

(** *** isPointInPolygon and createPolygonMask *)

Definition Qgt_bool (a b : Q) : bool := negb (Qle_bool a b).
Definition Qlt_bool (a b : Q) : bool := negb (Qle_bool b a).

(** The body of the loop of [isPointInPolygon] for the edge from vertex
    [pj] to vertex [pi].  Coordinates are rationals and the crossing is
    computed exactly; the source evaluates the same expression in
    doubles, which decides the same except for a point within a rounding
    error of an edge. *)
Definition crosses (point pi pj : Point) : bool :=
  let xi := x pi in let yi := y pi in
  let xj := x pj in let yj := y pj in
  negb (eqb (Qgt_bool yi (y point)) (Qgt_bool yj (y point)))
  && Qlt_bool (x point)
              (Qplus (Qdiv (Qmult (Qminus xj xi) (Qminus (y point) yi))
                           (Qminus yj yi)) xi).

(** [for (i = 0, j = n - 1; i < n; j = i++)]: [pj] is the previous vertex,
    the last one at the start. *)
Fixpoint ray_loop (point : Point) (pj : Point) (rest : list Point)
    (inside : bool) : bool :=
  match rest with
  | [] => inside
  | pi :: rest' =>
      ray_loop point pi rest'
               (if crosses point pi pj then negb inside else inside)
  end.

Definition isPointInPolygon (point : Point) (polygon : list Point) : bool :=
  match last polygon with
  | None => false
  | Some pn => ray_loop point pn polygon false
  end.

Definition createPolygonMask (polygon : list Point) (width height : Z)
  : list Z :=
  foldl (fun mask y =>
           foldl (fun mask x =>
                    if isPointInPolygon
                         {| x := inject_Z x; y := inject_Z y |} polygon
                    then write mask (y * width + x) 255
                    else mask)
                 mask (seqZ 0 width))
        (alloc (Z.to_nat (width * height))) (seqZ 0 height).

(** *** applyMask *)

Definition applyMask (data mask : list Z) : list Z :=
  imap (fun i d => if strict_eq 255 (mask !! i) then d else 0) data.

(** *** findBlobs *)

Record FillStats := {
  fs_area : Z;
  sumX : Z; sumY : Z;
  minX : Z; minY : Z; maxX : Z; maxY : Z
}.

(** The [while (stack.length > 0)] loop of [floodFill].  The head of the
    list is the top of the stack.  [fuel] bounds the number of iterations;
    [None] means that the bound was reached with the stack not empty. *)
Fixpoint floodFill_loop (fuel : nat) (binaryData : list Z)
    (width height : Z) (label : Z)
    (labels : list Z) (stack : list (Z * Z)) (st : FillStats)
  : option (list Z * FillStats) :=
  match stack with
  | [] => Some (labels, st)
  | (x, y) :: stack =>
      match fuel with
      | O => None
      | S fuel =>
          let idx := y * width + x in
          if (x <? 0) || (x >=? width) || (y <? 0) || (y >=? height) then
            floodFill_loop fuel binaryData width height label labels stack st
          else if strict_eq 0 (read binaryData idx)
                  || negb (strict_eq 0 (read labels idx)) then
            floodFill_loop fuel binaryData width height label labels stack st
          else
            let labels := write labels idx label in
            let st :=
              {| fs_area := fs_area st + 1;
                 sumX := sumX st + x;
                 sumY := sumY st + y;
                 minX := Z.min (minX st) x;
                 minY := Z.min (minY st) y;
                 maxX := Z.max (maxX st) x;
                 maxY := Z.max (maxY st) y |} in
            floodFill_loop fuel binaryData width height label labels
              ((x, y - 1) :: (x, y + 1) :: (x - 1, y) :: (x + 1, y) :: stack)
              st
      end
  end.

Definition floodFill (fuel : nat) (binaryData : list Z) (width height : Z)
    (labels : list Z) (startX startY : Z) (label : Z)
  : option (list Z * FillStats) :=
  floodFill_loop fuel binaryData width height label labels
    [(startX, startY)]
    {| fs_area := 0; sumX := 0; sumY := 0;
       minX := startX; minY := startY; maxX := startX; maxY := startY |}.

(** The variables of [findBlobs] that the scan updates. *)
Record ScanState := {
  labels : list Z;
  currentLabel : Z;
  found : list Blob
}.

Definition blob_of_stats (label : Z) (stats : FillStats) : Blob :=
  {| id := label;
     area := fs_area stats;
     centroid :=
       {| x := inject_Z (Js.round_div (sumX stats) (fs_area stats));
          y := inject_Z (Js.round_div (sumY stats) (fs_area stats)) |};
     boundingBox :=
       {| bb_x := minX stats;
          bb_y := minY stats;
          bb_width := maxX stats - minX stats + 1;
          bb_height := maxY stats - minY stats + 1 |} |}.

(** The body of the two scanning loops at pixel [(x, y)]. *)
Definition scan_pixel (fuel : nat) (binaryData : list Z) (width height : Z)
    (minArea maxArea : Z) (s : ScanState) (x y : Z) : option ScanState :=
  let idx := y * width + x in
  if strict_eq 255 (read binaryData idx)
     && strict_eq 0 (read (labels s) idx) then
    let currentLabel := currentLabel s + 1 in
    '(labels, stats) ←
      floodFill fuel binaryData width height (labels s) x y currentLabel;
    Some
      {| labels := labels;
         currentLabel := currentLabel;
         found :=
           if (fs_area stats >=? minArea) && (fs_area stats <=? maxArea)
           then found s ++ [blob_of_stats currentLabel stats]
           else found s |}
  else Some s.

Definition scan (fuel : nat) (binaryData : list Z) (width height : Z)
    (minArea maxArea : Z) : option ScanState :=
  foldl (fun s y =>
           foldl (fun s x =>
                    s ← s;
                    scan_pixel fuel binaryData width height
                               minArea maxArea s x y)
                 s (seqZ 0 width))
        (Some {| labels := alloc (length binaryData);
                 currentLabel := 0;
                 found := [] |})
        (seqZ 0 height).

(** [findBlobs] with an explicit bound on the iterations of each flood
    fill. *)
Definition findBlobs_fuel (fuel : nat) (binaryData : list Z)
    (width height : Z) (minArea maxArea : Z) : option (list Blob) :=
  found <$> scan fuel binaryData width height minArea maxArea.

(** A flood fill pops at most [4 * length binaryData + 1] stack entries
    (each pop either labels a pixel that had label 0 and pushes four
    entries, or pushes nothing), so this bound is never reached. *)
Definition findBlobs (binaryData : list Z) (width height : Z)
    (minArea maxArea : Z) : list Blob :=
  default []
    (findBlobs_fuel (4 * length binaryData + 1) binaryData width height
                    minArea maxArea).

(** *** analyzeFrame *)

Record AnalyzeOptions := {
  threshold : option Z;
  minBlobArea : option Z;
  maxBlobArea : option Z;
  morphIterations : option nat
}.

(** [sharp] is an external library: the decoder behind [toGrayscale]
    (which rejects what it cannot decode) and the PNG encoder are taken
    as given. *)
Section Codec.
Variable toGrayscale : list Z -> Js.Result Gray.
Variable toPng : Gray -> list Z.

(** The degraded threshold against the mean luma, used without a
    background: [Math.abs(p - sum / n) > threshold], compared exactly
    as [|p * n - sum| > threshold * n]. *)
Definition mean_threshold (current : list Z) (threshold : Z) : list Z :=
  let n := Z.of_nat (length current) in
  let sum := foldl Z.add 0 current in
  map (fun p => if Z.abs (p * n - sum) >? threshold * n then 255 else 0)
      current.

Definition analyzeFrame (currentFrame : list Z)
    (backgroundFrame : option (list Z)) (polygon : list Point)
    (options : AnalyzeOptions) : Js.Result AnalysisResult :=
  let threshold := default 30 (threshold options) in
  let minBlobArea := default 500 (minBlobArea options) in
  let maxBlobArea := default 50000 (maxBlobArea options) in
  let morphIterations := default 2%nat (morphIterations options) in
  current ← toGrayscale currentFrame;
  diffData ←
    match backgroundFrame with
    | Some backgroundFrame =>
        background ← toGrayscale backgroundFrame;
        if negb (width current =? width background)
           || negb (height current =? height background)
        then Js.Throw "Frame dimensions do not match background"
        else Js.Ok (computeDifference (data current) (data background)
                                      threshold)
    | None => Js.Ok (mean_threshold (data current) threshold)
    end;
  let cleaned :=
    morphologyClean diffData (width current) (height current)
                    morphIterations in
  let mask := createPolygonMask polygon (width current) (height current) in
  let masked := applyMask cleaned mask in
  let blobs :=
    findBlobs masked (width current) (height current)
              minBlobArea maxBlobArea in
  let maskImage :=
    toPng {| data := masked; width := width current;
             height := height current |} in
  Js.Ok {| blobs := blobs;
           count := Z.of_nat (length blobs);
           mask := maskImage |}.

(** *** updateBackground *)

(** The running average is computed in binary64.  A byte read from a
    buffer becomes a double; a read past the end is [undefined], which
    arithmetic turns into NaN. *)
Definition to_number (v : option Z) : float :=
  match v with
  | Some b => PrimFloat.of_uint63 (Uint63.of_Z b)
  | None => PrimFloat.nan
  end.

(** [Math.round] of a double: the nearest integer, ties towards
    +infinity; [None] for NaN and the infinities, which [Math.round]
    returns unchanged. *)
Definition math_round (f : float) : option Z :=
  match Prim2SF f with
  | S754_zero _ => Some 0
  | S754_finite s m e =>
      let v := if s then Z.neg m else Z.pos m in
      Some (if 0 <=? e then v * 2 ^ e
            else (2 * v + 2 ^ (- e)) / (2 * 2 ^ (- e)))
  | S754_infinity _ | S754_nan => None
  end.

(** The conversion applied by a store into a [Buffer]: modulo 256, and
    0 for NaN and the infinities. *)
Definition to_uint8 (v : option Z) : Z :=
  match v with
  | Some n => n mod 256
  | None => 0
  end.

(** [Math.round((1 - alpha) * bg + alpha * cur)], as stored. *)
Definition running_average (alpha : float) (bg cur : option Z) : Z :=
  to_uint8
    (math_round
       (PrimFloat.add
          (PrimFloat.mul (PrimFloat.sub 1%float alpha) (to_number bg))
          (PrimFloat.mul alpha (to_number cur)))).

(** The default [alpha = 0.1]: the double nearest to one tenth. *)
Definition default_alpha : float := 0x1.999999999999ap-4%float.

Definition updateBackground (currentFrame : list Z)
    (existingBackground : option (list Z)) (alpha : float)
  : Js.Result (list Z) :=
  current ← toGrayscale currentFrame;
  match existingBackground with
  | None => Js.Ok (toPng current)
  | Some existingBackground =>
      background ← toGrayscale existingBackground;
      let updated :=
        imap (fun i c =>
                running_average alpha (data background !! i) (Some c))
             (data current) in
      Js.Ok (toPng {| data := updated; width := width current;
                      height := height current |})
  end.

End Codec.

End ImageProcessor.

(** ** database.ts *)

Module Database.

Record Zone := {
  z_id : string;
  z_name : string;
  z_camera_id : option string;
  z_polygon : list ImageProcessor.Point;
  min_blob_area : Z;
  max_blob_area : Z;
  alarm_threshold : Z;
  created_at : Z;
  updated_at : Z
}.

Record ZoneInput := {
  in_name : string;
  in_camera_id : option string;
  in_polygon : list ImageProcessor.Point;
  in_min_blob_area : option Z;
  in_max_blob_area : option Z;
  in_alarm_threshold : option Z
}.

Record OccupancyRow := {
  occ_id : Z;
  occ_zone_id : string;
  occ_count : Z;
  occ_timestamp : Z
}.

Inductive EventType := entry | exit | occupancy_change.

Record ParkingEvent := {
  event_id : Z;
  zone_id : string;
  zone_name : string;
  camera_id : string;
  event_type : EventType;
  count_before : Z;
  count_after : Z;
  duration_seconds : option Z;
  entry_time : option Z;
  exit_time : option Z;
  timestamp : Z
}.

(** A value of [activeZoneSessions]. *)
Record Session := { entryTime : Z; count : Z }.

(** The three tables that the module touches, the AUTOINCREMENT counters
    of the two logs, and the module-level session map. *)
Record Db := {
  zones : gmap string Zone;
  occupancy_log : list OccupancyRow;
  occupancy_log_seq : Z;
  parking_events : list ParkingEvent;
  parking_events_seq : Z;
  activeZoneSessions : gmap string Session
}.

Definition empty_db : Db :=
  {| zones := ∅; occupancy_log := []; occupancy_log_seq := 0;
     parking_events := []; parking_events_seq := 0;
     activeZoneSessions := ∅ |}.

Definition with_sessions (s : gmap string Session) (d : Db) : Db :=
  {| zones := zones d; occupancy_log := occupancy_log d;
     occupancy_log_seq := occupancy_log_seq d;
     parking_events := parking_events d;
     parking_events_seq := parking_events_seq d;
     activeZoneSessions := s |}.

Global Instance EventType_eq_dec : EqDecision EventType.
Proof. solve_decision. Defined.

Definition getZone (d : Db) (id : string) : option Zone := zones d !! id.

(** [createZone]: the INSERT throws on a duplicate primary key; the row
    read back by [getZone] is returned. *)
Definition createZone (now : Z) (d : Db) (id : string) (input : ZoneInput)
  : Js.Result (Db * Zone) :=
  match zones d !! id with
  | Some _ => Js.Throw "UNIQUE constraint failed: zones.id"
  | None =>
      let row :=
        {| z_id := id;
           z_name := in_name input;
           z_camera_id :=
             (if Js.truthy_string (in_camera_id input)
              then in_camera_id input else None);
           z_polygon := in_polygon input;
           min_blob_area := Js.or_default (in_min_blob_area input) 500;
           max_blob_area := Js.or_default (in_max_blob_area input) 50000;
           alarm_threshold := Js.or_default (in_alarm_threshold input) 1;
           created_at := now;
           updated_at := now |} in
      let d' :=
        {| zones := <[id := row]> (zones d);
           occupancy_log := occupancy_log d;
           occupancy_log_seq := occupancy_log_seq d;
           parking_events := parking_events d;
           parking_events_seq := parking_events_seq d;
           activeZoneSessions := activeZoneSessions d |} in
      match getZone d' id with
      | Some z => Js.Ok (d', z)
      | None => Js.Throw "Cannot read properties of null"
      end
  end.

(** [deleteZone]: three DELETE statements in the order of the source; the
    result is [changes > 0] of the last one. *)
Definition delete_occupancy_rows (id : string) (d : Db) : Db :=
  {| zones := zones d;
     occupancy_log :=
       filter (fun r => occ_zone_id r ≠ id) (occupancy_log d);
     occupancy_log_seq := occupancy_log_seq d;
     parking_events := parking_events d;
     parking_events_seq := parking_events_seq d;
     activeZoneSessions := activeZoneSessions d |}.

Definition delete_event_rows (id : string) (d : Db) : Db :=
  {| zones := zones d;
     occupancy_log := occupancy_log d;
     occupancy_log_seq := occupancy_log_seq d;
     parking_events := filter (fun e => zone_id e ≠ id) (parking_events d);
     parking_events_seq := parking_events_seq d;
     activeZoneSessions := activeZoneSessions d |}.

(** The third statement, with its [changes] count. *)
Definition delete_zone_row (id : string) (d : Db) : Db * Z :=
  ({| zones := delete id (zones d);
      occupancy_log := occupancy_log d;
      occupancy_log_seq := occupancy_log_seq d;
      parking_events := parking_events d;
      parking_events_seq := parking_events_seq d;
      activeZoneSessions := activeZoneSessions d |},
   match zones d !! id with Some _ => 1 | None => 0 end).

Definition deleteZone (d : Db) (id : string) : Db * bool :=
  let d1 := delete_occupancy_rows id d in
  let d2 := delete_event_rows id d1 in
  let '(d3, changes) := delete_zone_row id d2 in
  (d3, changes >? 0).

(** The INSERT of [logOccupancy] for a zone that has its row in [zones];
    [now] is the CURRENT_TIMESTAMP that the statement stores. *)
Definition logOccupancy (now : Z) (d : Db) (zoneId : string) (cnt : Z) : Db :=
  let rid := occupancy_log_seq d + 1 in
  {| zones := zones d;
     occupancy_log :=
       occupancy_log d ++
       [ {| occ_id := rid; occ_zone_id := zoneId; occ_count := cnt;
            occ_timestamp := now |} ];
     occupancy_log_seq := rid;
     parking_events := parking_events d;
     parking_events_seq := parking_events_seq d;
     activeZoneSessions := activeZoneSessions d |}.

(** The INSERT of [logParkingEvent] for a zone that has its row in
    [zones]; returns [lastInsertRowid]. *)
Definition insert_parking_event (d : Db) (row : Z -> ParkingEvent) : Db * Z :=
  let rid := parking_events_seq d + 1 in
  ({| zones := zones d;
      occupancy_log := occupancy_log d;
      occupancy_log_seq := occupancy_log_seq d;
      parking_events := parking_events d ++ [row rid];
      parking_events_seq := rid;
      activeZoneSessions := activeZoneSessions d |}, rid).

(** What the if/else-if chain of [logParkingEvent] decides: the event
    type with [durationSeconds], [entryTime], [exitTime], and the session
    map after the branch; [None] is the early [return null]. *)
Definition classify (now : Z) (sessions : gmap string Session)
    (zoneId : string) (countBefore countAfter : Z)
  : option (EventType * option Z * option Z * option Z
            * gmap string Session) :=
  if (countBefore =? 0) && (countAfter >? 0) then
    Some (entry, None, Some now, None,
          <[zoneId := {| entryTime := now; count := countAfter |}]> sessions)
  else if (countBefore >? 0) && (countAfter =? 0) then
    match sessions !! zoneId with
    | Some session =>
        Some (exit,
              Some (Js.round_div (now - entryTime session) 1000),
              Some (entryTime session), Some now,
              delete zoneId sessions)
    | None => Some (exit, None, None, Some now, sessions)
    end
  else if negb (countBefore =? countAfter) then
    Some (occupancy_change, None, None, None, sessions)
  else None.

(** [logParkingEvent] for a zone that has its row in [zones], as at the
    scheduler's call, which follows a successful [logOccupancy] for the
    same zone.  The statement's CURRENT_TIMESTAMP is taken to be the
    instant of the call.  [ForeignKeys.logParkingEvent] below is the
    function for every zone id, with the two clocks apart. *)
Definition logParkingEvent (now : Z) (d : Db)
    (zoneId zoneName cameraId : string) (countBefore countAfter : Z)
  : Db * option ParkingEvent :=
  match classify now (activeZoneSessions d) zoneId countBefore countAfter with
  | None => (d, None)
  | Some (eventType, durationSeconds, entryTime, exitTime, sessions') =>
      let mk rid :=
        {| event_id := rid; zone_id := zoneId; zone_name := zoneName;
           camera_id := cameraId; event_type := eventType;
           count_before := countBefore; count_after := countAfter;
           duration_seconds := durationSeconds;
           entry_time := entryTime; exit_time := exitTime;
           timestamp := now |} in
      let '(d', rid) := insert_parking_event (with_sessions sessions' d) mk in
      (d', Some (mk rid))
  end.

(** *** getParkingStats *)

Record ZoneStats := {
  zs_zone_id : string;
  zs_zone_name : string;
  zs_entries : Z;
  zs_exits : Z;
  zs_avgDuration : Z
}.

Record Stats := {
  totalEntries : Z;
  totalExits : Z;
  avgDurationSeconds : Z;
  currentOccupied : Z;
  byZone : list ZoneStats
}.

(** [SUM(CASE WHEN event_type = t THEN 1 ELSE 0 END) || 0] *)
Definition count_type (t : EventType) (rows : list ParkingEvent) : Z :=
  Z.of_nat (length (filter (fun e => event_type e = t) rows)).

(** [Math.round(AVG(duration_seconds) || 0)] over the non-NULL values. *)
Definition avg_duration (rows : list ParkingEvent) : Z :=
  let ds := omap duration_seconds rows in
  match ds with
  | [] => 0
  | _ => Js.round_div (foldr Z.add 0 ds) (Z.of_nat (length ds))
  end.

(** [WHERE timestamp >= ?]: the source compares the caller's text with the
    stored text; here both are the instants that the texts denote. *)
Definition since_filter (since : option Z) (rows : list ParkingEvent)
  : list ParkingEvent :=
  match since with
  | Some s => filter (fun e => s ≤ timestamp e) rows
  | None => rows
  end.

(** [ORDER BY entries DESC], as a stable insertion sort. *)
Fixpoint insert_by_entries (z : ZoneStats) (l : list ZoneStats)
  : list ZoneStats :=
  match l with
  | [] => [z]
  | y :: l' =>
      if zs_entries y <? zs_entries z then z :: l
      else y :: insert_by_entries z l'
  end.

Definition sort_by_entries (l : list ZoneStats) : list ZoneStats :=
  foldr insert_by_entries [] l.

(** [GROUP BY zone_id, zone_name] *)
Definition group_stats (rows : list ParkingEvent) : list ZoneStats :=
  let keys := remove_dups (map (fun e => (zone_id e, zone_name e)) rows) in
  map (fun k =>
         let g := filter (fun e => (zone_id e, zone_name e) = k) rows in
         {| zs_zone_id := fst k; zs_zone_name := snd k;
            zs_entries := count_type entry g;
            zs_exits := count_type exit g;
            zs_avgDuration := avg_duration g |}) keys.

Definition getParkingStats (d : Db) (since : option Z) : Stats :=
  let rows := since_filter since (parking_events d) in
  {| totalEntries := count_type entry rows;
     totalExits := count_type exit rows;
     avgDurationSeconds := avg_duration rows;
     currentOccupied := Z.of_nat (size (activeZoneSessions d));
     byZone := sort_by_entries (group_stats rows) |}.

End Database.

(** ** database.ts: the foreign keys of the two logs *)

Module ForeignKeys.
Import Database.

(** Both logs are declared with FOREIGN KEY (zone_id) REFERENCES
    zones(id), and the driver enforces foreign keys: an INSERT for a zone
    id that has no row in [zones] throws and stores nothing.  The
    functions of [Database] above are the two INSERTs for a zone that has
    its row; here they are with the check. *)
Definition references_zone (d : Db) (zoneId : string) : bool :=
  bool_decide (is_Some (zones d !! zoneId)).

(** [logOccupancy]; [stamp] is the CURRENT_TIMESTAMP that the INSERT
    stores. *)
Definition logOccupancy (stamp : Z) (d : Db) (zoneId : string) (cnt : Z)
  : Js.Result Db :=
  if references_zone d zoneId
  then Js.Ok (Database.logOccupancy stamp d zoneId cnt)
  else Js.Throw "FOREIGN KEY constraint failed".

(** [logParkingEvent].  [now] is the instant of [new Date()], which goes
    into the session, into [entry_time] and [exit_time], and into the
    [timestamp] of the object returned; the INSERT names no [timestamp],
    so the stored row has the CURRENT_TIMESTAMP of the statement,
    [stamp].  The session map is updated before the INSERT runs, and
    stays updated when the INSERT throws. *)
Definition logParkingEvent (now stamp : Z) (d : Db)
    (zoneId zoneName cameraId : string) (countBefore countAfter : Z)
  : Db * Js.Result (option ParkingEvent) :=
  match classify now (activeZoneSessions d) zoneId countBefore countAfter with
  | None => (d, Js.Ok None)
  | Some (eventType, durationSeconds, entryTime, exitTime, sessions') =>
      let d := with_sessions sessions' d in
      let mk timestamp rid :=
        {| event_id := rid; zone_id := zoneId; zone_name := zoneName;
           camera_id := cameraId; event_type := eventType;
           count_before := countBefore; count_after := countAfter;
           duration_seconds := durationSeconds;
           entry_time := entryTime; exit_time := exitTime;
           timestamp := timestamp |} in
      if references_zone d zoneId
      then
        let '(d', rid) := insert_parking_event d (mk stamp) in
        (d', Js.Ok (Some (mk now rid)))
      else (d, Js.Throw "FOREIGN KEY constraint failed")
  end.

End ForeignKeys.

(** ** round-robin.ts *)

Module RoundRobin.

Record RoundRobinConfig := {
  cameras : list string;
  intervalMs : Z;
  go2rtcUrl : string;
  enabled : bool
}.

(** The module-level variables [config], [currentIndex] and
    [intervalHandle] (the period of the installed timer, if any). *)
Record State := {
  config : RoundRobinConfig;
  currentIndex : nat;
  intervalHandle : option Z
}.

Definition initial : State :=
  {| config := {| cameras := []; intervalMs := 5000;
                  go2rtcUrl := "http://localhost:1984";
                  enabled := false |};
     currentIndex := 0;
     intervalHandle := None |}.

(** What one call of [processNext] did: nothing, or [analyzeCamera] on
    [config.cameras[currentIndex]] ([None] is [undefined]). *)
Inductive Tick :=
| NoOp
| Analyzed (cameraId : option string).

(** [processNext].  [analyzeCamera] catches its own errors and touches
    neither [config] nor [currentIndex], so only the camera passed to it
    is recorded.  This is the call as one step, its analysis settling
    before anything else happens; [RoundRobinAsync] below has the call
    in its two halves, around the [await]. *)
Definition processNext (s : State) : State * Tick :=
  if negb (enabled (config s)) || (length (cameras (config s)) =? 0)%nat
  then (s, NoOp)
  else
    let cameraId := cameras (config s) !! currentIndex s in
    ({| config := config s;
        currentIndex :=
          (currentIndex s + 1) mod length (cameras (config s));
        intervalHandle := intervalHandle s |},
     Analyzed cameraId).

(** [start]: the state after the immediate call of [processNext] and the
    installation of the timer, with what that first call did. *)
Definition start (cameras : list string) (intervalMs : Z) (s : State)
  : State * Tick :=
  let s :=
    {| config := {| cameras := cameras; intervalMs := intervalMs;
                    go2rtcUrl := go2rtcUrl (config s);
                    enabled := true |};
       currentIndex := 0;
       intervalHandle := None |} in
  let '(s, t) := processNext s in
  ({| config := config s; currentIndex := currentIndex s;
      intervalHandle := Some intervalMs |}, t).

Definition stop (s : State) : State :=
  {| config := {| cameras := cameras (config s);
                  intervalMs := intervalMs (config s);
                  go2rtcUrl := go2rtcUrl (config s);
                  enabled := false |};
     currentIndex := currentIndex s;
     intervalHandle := None |}.

Definition currentCamera (s : State) : option string :=
  if enabled (config s) && negb (length (cameras (config s)) =? 0)%nat
  then cameras (config s) !! currentIndex s
  else None.

(** The argument of the [onUpdate] callback. *)
Record AnalysisResult := {
  camera_id : string;
  zone_id : string;
  zone_name : string;
  count : Z;
  blobs : list ImageProcessor.Blob;
  alarm : bool;
  timestamp : Z
}.

End RoundRobin.

(** ** detection-modes.ts *)

Module DetectionModes.

Inductive DetectionMode := blob | hailo_yolo | hailo_ssd.

Inductive ModelType := yolov5 | ssd.

Record BBox := { x : Q; y : Q; width : Q; height : Q }.

Record Detection := {
  class : string;
  confidence : Q;
  bbox : BBox
}.

Record DetectionResult := {
  detections : list Detection;
  count : Z;
  inferenceTimeMs : Z;
  mode : DetectionMode
}.

Record Options := {
  minBlobArea : option Z;
  maxBlobArea : option Z;
  confidenceThreshold : option Q;
  classes : option (list string)
}.

(** *** What the external detector may answer *)

(** A [bbox] of the payload: a four-element array or an object. *)
Inductive RawBBox :=
| BBoxArray (x y w h : Q)
| BBoxObject (b : BBox).

Record RawDetection := {
  label : option string;
  raw_confidence : option Q;
  raw_bbox : option RawBBox
}.

(** A truthy value of [result.detections] or [result.objects]: an array,
    whose elements are objects or [null] ([None]), or a value that has no
    [map] (an object, a number, a string, [true]). *)
Inductive RawList :=
| NotArray
| Array (elements : list (option RawDetection)).

(** The fields of the parsed body that are read; [None] is a field that
    is absent or falsy. *)
Record Payload := {
  p_detections : option RawList;
  p_objects : option RawList;
  inferenceMs : option Z;
  error : option string
}.

(** The outcome of the POST to [/analyze/base64]. *)
Inductive Reply :=
| NetworkError (msg : string)
    (** [fetch] rejects: connection refused, timeout, ... *)
| HttpError (status : Z) (errText : string)
    (** [response.ok] is false *)
| BadJson (msg : string)
    (** [response.json()] rejects *)
| JsonNull
    (** the body is the JSON value [null] *)
| Json (p : Payload).

Definition blob_bbox (b : ImageProcessor.BoundingBox) : BBox :=
  {| x := inject_Z (ImageProcessor.bb_x b);
     y := inject_Z (ImageProcessor.bb_y b);
     width := inject_Z (ImageProcessor.bb_width b);
     height := inject_Z (ImageProcessor.bb_height b) |}.

Section Detect.
Variable toGrayscale : list Z -> Js.Result ImageProcessor.Gray.
Variable toPng : ImageProcessor.Gray -> list Z.

(** [detectBlob]; [elapsed] is [Date.now() - startTime] at the
    return. *)
Definition detectBlob (frameBuffer : list Z)
    (backgroundBuffer : option (list Z))
    (polygon : list ImageProcessor.Point) (options : Options)
    (elapsed : Z) : Js.Result DetectionResult :=
  analysis ←
    ImageProcessor.analyzeFrame toGrayscale toPng
      frameBuffer backgroundBuffer polygon
      {| ImageProcessor.threshold := None;
         ImageProcessor.minBlobArea :=
           Some (Js.or_default (minBlobArea options) 500);
         ImageProcessor.maxBlobArea :=
           Some (Js.or_default (maxBlobArea options) 50000);
         ImageProcessor.morphIterations := None |};
  let detections :=
    map (fun blob =>
           {| class := "object";
              confidence := 1%Q;
              bbox := blob_bbox (ImageProcessor.boundingBox blob) |})
        (ImageProcessor.blobs analysis) in
  Js.Ok {| detections := detections;
           count := ImageProcessor.count analysis;
           inferenceTimeMs := elapsed;
           mode := blob |}.

Definition normalize (det : RawDetection) : Detection :=
  let bbox :=
    match raw_bbox det with
    | None => {| x := 0; y := 0; width := 0; height := 0 |}
    | Some (BBoxArray bx by_ bw bh) =>
        {| x := bx; y := by_; width := bw; height := bh |}
    | Some (BBoxObject b) => b
    end in
  {| class := if Js.truthy_string (label det)
              then default "object" (label det) else "object";
     confidence :=
       match raw_confidence det with
       | Some c => if Qeq_bool c 0 then 0%Q else c
       | None => 0%Q
       end;
     bbox := bbox |}.

(** [result.detections || result.objects || []] *)
Definition rawDetections (result : Payload) : RawList :=
  match p_detections result with
  | Some ds => ds
  | None => default (Array []) (p_objects result)
  end.

(** [rawDetections.map(det => ...)]: the call throws a TypeError when the
    value has no [map], and the callback throws one when it reads
    [det.bbox] of a [null] element. *)
Fixpoint map_normalize (elements : list (option RawDetection))
  : Js.Result (list Detection) :=
  match elements with
  | [] => Js.Ok []
  | None :: _ =>
      Js.Throw "Cannot read properties of null (reading 'bbox')"
  | Some det :: elements =>
      detections ← map_normalize elements;
      Js.Ok (normalize det :: detections)
  end.

Definition normalize_all (raw : RawList) : Js.Result (list Detection) :=
  match raw with
  | NotArray => Js.Throw "rawDetections.map is not a function"
  | Array elements => map_normalize elements
  end.

(** The centre of the box and the polygon test.  They are computed on the
    rationals that the numbers of the payload denote; the source rounds
    each operation to a double, and can decide differently for a centre
    within a rounding error of an edge. *)
Definition center_in_polygon (polygon : list ImageProcessor.Point)
    (det : Detection) : bool :=
  let centerX := Qplus (x (bbox det)) (Qdiv (width (bbox det)) 2) in
  let centerY := Qplus (y (bbox det)) (Qdiv (height (bbox det)) 2) in
  ImageProcessor.isPointInPolygon
    {| ImageProcessor.x := centerX; ImageProcessor.y := centerY |}
    polygon.

(** The body of the [try] block of [detectHailo], from the reply of the
    service on. *)
Definition hailo_try (polygon : list ImageProcessor.Point)
    (modelType : ModelType) (options : Options) (reply : Reply)
    (elapsed : Z) : Js.Result DetectionResult :=
  result ←
    match reply with
    | NetworkError msg => Js.Throw msg
    | HttpError status errText =>
        Js.Throw
          ("Hailo ops error: " +:+ pretty status +:+ " - " +:+ errText)
    | BadJson msg => Js.Throw msg
    | JsonNull =>
        Js.Throw "Cannot read properties of null (reading 'error')"
    | Json p => Js.Ok p
    end;
  if Js.truthy_string (error result)
  then Js.Throw (default "" (error result))
  else
    detections ← normalize_all (rawDetections result);
    let filteredDetections :=
      List.filter (center_in_polygon polygon) detections in
    let classFiltered :=
      match classes options with
      | Some (c :: cs) =>
          List.filter (fun d => bool_decide (class d ∈ c :: cs))
                      filteredDetections
      | Some [] | None => filteredDetections
      end in
    let confThreshold :=
      match confidenceThreshold options with
      | Some t => if Qeq_bool t 0 then (1 # 2)%Q else t
      | None => (1 # 2)%Q
      end in
    let confFiltered :=
      List.filter (fun d => Qle_bool confThreshold (confidence d))
                  classFiltered in
    Js.Ok {| detections := confFiltered;
             count := Z.of_nat (length confFiltered);
             inferenceTimeMs := Js.or_default (inferenceMs result) elapsed;
             mode := match modelType with
                     | yolov5 => hailo_yolo
                     | ssd => hailo_ssd
                     end |}.

(** [detectHailo]: the [try] block and its [catch].  [elapsedBlob] is
    the time that the fallback measures for itself. *)
Definition detectHailo (frameBuffer : list Z)
    (polygon : list ImageProcessor.Point) (modelType : ModelType)
    (options : Options) (reply : Reply) (elapsed elapsedBlob : Z)
  : Js.Result DetectionResult :=
  Js.try_catch
    (hailo_try polygon modelType options reply elapsed)
    (fun _ =>
       detectBlob frameBuffer None polygon
         {| minBlobArea := Some 500;
            maxBlobArea := Some 50000;
            confidenceThreshold := None;
            classes := None |}
         elapsedBlob).

(** [detectInFrame] under the module-level [currentMode]. *)
Definition detectInFrame (currentMode : DetectionMode)
    (frameBuffer : list Z) (backgroundBuffer : option (list Z))
    (polygon : list ImageProcessor.Point) (options : Options)
    (reply : Reply) (elapsed elapsedBlob : Z)
  : Js.Result DetectionResult :=
  match currentMode with
  | blob =>
      detectBlob frameBuffer backgroundBuffer polygon options elapsedBlob
  | hailo_yolo =>
      detectHailo frameBuffer polygon yolov5 options reply
                  elapsed elapsedBlob
  | hailo_ssd =>
      detectHailo frameBuffer polygon ssd options reply
                  elapsed elapsedBlob
  end.

End Detect.

End DetectionModes.

(** ** index.ts: the writers of the occupancy state *)

Module Server.

(** A value of [currentOccupancy]. *)
Record Occupancy := {
  count : Z;
  blobs : list ImageProcessor.Blob;
  timestamp : Z
}.

(** The messages that the writers broadcast. *)
Inductive Message :=
| occupancy_update (zone_id zone_name : string) (camera_id : option string)
                   (count : Z) (alarm : bool) (timestamp : Z)
| parking_event (event : Database.ParkingEvent).

Record State := {
  currentOccupancy : gmap string Occupancy;
  db : Database.Db;
  sent : list Message
}.

(** What a writer has computed for one zone. *)
Record Analysis := {
  a_blobs : list ImageProcessor.Blob;
  a_count : Z
}.

(** The body of the zone loop of the [/analyze] handler after the
    detector has returned: from [currentOccupancy.set] to [broadcast]. *)
Definition analyze_write (now : Z) (s : State) (zone : Database.Zone)
    (analysis : Analysis) : State :=
  let occ :=
    <[Database.z_id zone :=
        {| count := a_count analysis; blobs := a_blobs analysis;
           timestamp := now |}]> (currentOccupancy s) in
  let db := Database.logOccupancy now (db s) (Database.z_id zone)
                                  (a_count analysis) in
  {| currentOccupancy := occ;
     db := db;
     sent := sent s ++
             [occupancy_update (Database.z_id zone) (Database.z_name zone)
                None (a_count analysis)
                (a_count analysis >=? Database.alarm_threshold zone) now] |}.

(** The same lines of the [/analyze-stream] handler. *)
Definition analyze_stream_write (now : Z) (s : State) (zone : Database.Zone)
    (analysis : Analysis) : State :=
  let occ :=
    <[Database.z_id zone :=
        {| count := a_count analysis; blobs := a_blobs analysis;
           timestamp := now |}]> (currentOccupancy s) in
  let db := Database.logOccupancy now (db s) (Database.z_id zone)
                                  (a_count analysis) in
  {| currentOccupancy := occ;
     db := db;
     sent := sent s ++
             [occupancy_update (Database.z_id zone) (Database.z_name zone)
                None (a_count analysis)
                (a_count analysis >=? Database.alarm_threshold zone) now] |}.

(** [prevOccupancy?.count ?? 0] *)
Definition prev_count (s : State) (zoneId : string) : Z :=
  match currentOccupancy s !! zoneId with
  | Some o => count o
  | None => 0
  end.

(** The callback that [/round-robin/start] installs with
    [setUpdateCallback]: the scheduler's writer. *)
Definition onUpdate (now : Z) (s : State)
    (result : RoundRobin.AnalysisResult) : State :=
  let prevCount := prev_count s (RoundRobin.zone_id result) in
  let occ :=
    <[RoundRobin.zone_id result :=
        {| count := RoundRobin.count result;
           blobs := RoundRobin.blobs result;
           timestamp := RoundRobin.timestamp result |}]>
      (currentOccupancy s) in
  let '(db, sent) :=
    if negb (prevCount =? RoundRobin.count result) then
      let '(db, event) :=
        Database.logParkingEvent now (db s)
          (RoundRobin.zone_id result) (RoundRobin.zone_name result)
          (RoundRobin.camera_id result)
          prevCount (RoundRobin.count result) in
      (db, match event with
           | Some event => sent s ++ [parking_event event]
           | None => sent s
           end)
    else (db s, sent s) in
  {| currentOccupancy := occ;
     db := db;
     sent := sent ++
             [occupancy_update (RoundRobin.zone_id result)
                (RoundRobin.zone_name result)
                (Some (RoundRobin.camera_id result))
                (RoundRobin.count result) (RoundRobin.alarm result)
                (RoundRobin.timestamp result)] |}.

End Server.

(** ** database.ts: the remaining queries *)

Module Queries.
Import Database.

(** [ORDER BY key DESC], as an insertion sort.  The order among rows
    with equal keys is the engine's choice; the properties proved below
    do not depend on it. *)
Fixpoint insert_desc {A} (key : A -> Z) (a : A) (l : list A) : list A :=
  match l with
  | [] => [a]
  | y :: l' =>
      if key y <? key a then a :: l else y :: insert_desc key a l'
  end.

Definition order_by_desc {A} (key : A -> Z) (l : list A) : list A :=
  foldr (insert_desc key) [] l.

(** [LIMIT limit OFFSET offset]: a negative limit is no limit, a negative
    offset is 0. *)
Definition limit_offset {A} (limit offset : Z) (l : list A) : list A :=
  let l := drop (Z.to_nat offset) l in
  if limit <? 0 then l else take (Z.to_nat limit) l.

(** *** getAllZones *)

Definition getAllZones (d : Db) : list Zone :=
  order_by_desc created_at (map_to_list (zones d)).*2.

(** *** updateZone *)

(** [Partial<ZoneInput>]: [None] is [undefined]. *)
Record ZonePatch := {
  p_name : option string;
  p_camera_id : option string;
  p_polygon : option (list ImageProcessor.Point);
  p_min_blob_area : option Z;
  p_max_blob_area : option Z;
  p_alarm_threshold : option Z
}.

(** An entry of [updates] with its value. *)
Inductive Assignment :=
| set_name (v : string)
| set_camera_id (v : string)
| set_polygon (v : list ImageProcessor.Point)
| set_min_blob_area (v : Z)
| set_max_blob_area (v : Z)
| set_alarm_threshold (v : Z)
| set_updated_at.

Definition push {A} (f : A -> Assignment) (v : option A)
    (updates : list Assignment) : list Assignment :=
  match v with
  | Some v => updates ++ [f v]
  | None => updates
  end.

(** The six [if (input.f !== undefined)] blocks. *)
Definition updates_of (input : ZonePatch) : list Assignment :=
  let updates := [] in
  let updates := push set_name (p_name input) updates in
  let updates := push set_camera_id (p_camera_id input) updates in
  let updates := push set_polygon (p_polygon input) updates in
  let updates := push set_min_blob_area (p_min_blob_area input) updates in
  let updates := push set_max_blob_area (p_max_blob_area input) updates in
  let updates :=
    push set_alarm_threshold (p_alarm_threshold input) updates in
  updates.

(** One [column = value] of the UPDATE statement. *)
Definition assign (now : Z) (z : Zone) (a : Assignment) : Zone :=
  match a with
  | set_name v =>
      {| z_id := z_id z; z_name := v; z_camera_id := z_camera_id z;
         z_polygon := z_polygon z; min_blob_area := min_blob_area z;
         max_blob_area := max_blob_area z;
         alarm_threshold := alarm_threshold z;
         created_at := created_at z; updated_at := updated_at z |}
  | set_camera_id v =>
      {| z_id := z_id z; z_name := z_name z; z_camera_id := Some v;
         z_polygon := z_polygon z; min_blob_area := min_blob_area z;
         max_blob_area := max_blob_area z;
         alarm_threshold := alarm_threshold z;
         created_at := created_at z; updated_at := updated_at z |}
  | set_polygon v =>
      {| z_id := z_id z; z_name := z_name z; z_camera_id := z_camera_id z;
         z_polygon := v; min_blob_area := min_blob_area z;
         max_blob_area := max_blob_area z;
         alarm_threshold := alarm_threshold z;
         created_at := created_at z; updated_at := updated_at z |}
  | set_min_blob_area v =>
      {| z_id := z_id z; z_name := z_name z; z_camera_id := z_camera_id z;
         z_polygon := z_polygon z; min_blob_area := v;
         max_blob_area := max_blob_area z;
         alarm_threshold := alarm_threshold z;
         created_at := created_at z; updated_at := updated_at z |}
  | set_max_blob_area v =>
      {| z_id := z_id z; z_name := z_name z; z_camera_id := z_camera_id z;
         z_polygon := z_polygon z; min_blob_area := min_blob_area z;
         max_blob_area := v;
         alarm_threshold := alarm_threshold z;
         created_at := created_at z; updated_at := updated_at z |}
  | set_alarm_threshold v =>
      {| z_id := z_id z; z_name := z_name z; z_camera_id := z_camera_id z;
         z_polygon := z_polygon z; min_blob_area := min_blob_area z;
         max_blob_area := max_blob_area z;
         alarm_threshold := v;
         created_at := created_at z; updated_at := updated_at z |}
  | set_updated_at =>
      {| z_id := z_id z; z_name := z_name z; z_camera_id := z_camera_id z;
         z_polygon := z_polygon z; min_blob_area := min_blob_area z;
         max_blob_area := max_blob_area z;
         alarm_threshold := alarm_threshold z;
         created_at := created_at z; updated_at := now |}
  end.

Definition with_zones (zs : gmap string Zone) (d : Db) : Db :=
  {| zones := zs; occupancy_log := occupancy_log d;
     occupancy_log_seq := occupancy_log_seq d;
     parking_events := parking_events d;
     parking_events_seq := parking_events_seq d;
     activeZoneSessions := activeZoneSessions d |}.

(** [UPDATE zones SET ... WHERE id = ?] *)
Definition update_zone_row (now : Z) (id : string)
    (updates : list Assignment) (d : Db) : Db :=
  with_zones (alter (fun z => foldl (assign now) z updates) id (zones d)) d.

Definition updateZone (now : Z) (d : Db) (id : string) (input : ZonePatch)
  : Db * option Zone :=
  match getZone d id with
  | None => (d, None)
  | Some zone =>
      let updates := updates_of input in
      let d :=
        if (0 <? length updates)%nat
        then update_zone_row now id (updates ++ [set_updated_at]) d
        else d in
      (d, getZone d id)
  end.

(** *** Background frames *)

(** The table [background_frames] is modelled by a map from camera ids
    to frames. *)

(** [INSERT OR REPLACE] *)
Definition saveBackgroundFrame (t : gmap string (list Z))
    (cameraId : string) (frameData : list Z) : gmap string (list Z) :=
  <[cameraId := frameData]> t.

(** [row?.frame_data || null]: a [Buffer] is an object, so also an empty
    one is truthy. *)
Definition getBackgroundFrame (t : gmap string (list Z))
    (cameraId : string) : option (list Z) :=
  t !! cameraId.

(** *** getRecentOccupancy *)

Definition getRecentOccupancy (d : Db) (zoneId : string) (limit : option Z)
  : list OccupancyRow :=
  let limit := default 100 limit in
  limit_offset limit 0
    (order_by_desc occ_timestamp
       (filter (fun r => occ_zone_id r = zoneId) (occupancy_log d))).

(** *** getParkingEvents *)

(** The text stored in the column [event_type]. *)
Definition event_type_text (t : EventType) : string :=
  match t with
  | entry => "entry"
  | exit => "exit"
  | occupancy_change => "occupancy_change"
  end.

(** The options; [None] is [undefined].  [since] and [until] are
    timestamps, [None] when absent or empty. *)
Record EventQuery := {
  q_limit : option Z;
  q_offset : option Z;
  q_zoneId : option string;
  q_cameraId : option string;
  q_eventType : option string;
  q_since : option Z;
  q_until : option Z
}.

(** [if (s) whereClause += ' AND column = ?']: a missing or empty string
    adds no condition. *)
Definition string_filter (s : option string) (column : string) : bool :=
  if Js.truthy_string s then bool_decide (Some column = s) else true.

(** The WHERE clause. *)
Definition matches (q : EventQuery) (e : ParkingEvent) : bool :=
  string_filter (q_zoneId q) (zone_id e)
  && string_filter (q_cameraId q) (camera_id e)
  && string_filter (q_eventType q) (event_type_text (event_type e))
  && match q_since q with Some s => s <=? timestamp e | None => true end
  && match q_until q with Some u => timestamp e <=? u | None => true end.

Record EventPage := {
  events : list ParkingEvent;
  total : Z
}.

Definition getParkingEvents (d : Db) (q : EventQuery) : EventPage :=
  let limit := default 100 (q_limit q) in
  let offset := default 0 (q_offset q) in
  let rows := filter (fun e => matches q e = true) (parking_events d) in
  {| events := limit_offset limit offset (order_by_desc timestamp rows);
     total := Z.of_nat (length rows) |}.

End Queries.

(** ** round-robin.ts: reconfiguration *)

Module Reconfigure.
Import RoundRobin.

(** [Partial<RoundRobinConfig>]: [None] is [undefined]. *)
Record ConfigPatch := {
  new_cameras : option (list string);
  new_intervalMs : option Z;
  new_go2rtcUrl : option string;
  new_enabled : option bool
}.

(** [updateConfig]: the three guarded assignments, then the restart of a
    running scheduler, with what the immediate [processNext] of that
    restart did.  An array is truthy also when it is empty; 0 and the
    empty string are falsy; [newConfig.enabled] is not read. *)
Definition updateConfig (newConfig : ConfigPatch) (s : State)
  : State * Tick :=
  let config :=
    {| cameras := default (cameras (config s)) (new_cameras newConfig);
       intervalMs :=
         Js.or_default (new_intervalMs newConfig) (intervalMs (config s));
       go2rtcUrl :=
         if Js.truthy_string (new_go2rtcUrl newConfig)
         then default (go2rtcUrl (config s)) (new_go2rtcUrl newConfig)
         else go2rtcUrl (config s);
       enabled := enabled (config s) |} in
  let s :=
    {| config := config; currentIndex := currentIndex s;
       intervalHandle := intervalHandle s |} in
  if enabled config
  then start (cameras config) (intervalMs config) (stop s)
  else (s, NoOp).

(** A call from outside or a firing of the timer.  As for [processNext],
    each runs to completion before the next one starts. *)
Inductive Call :=
| call_start (cameras : list string) (intervalMs : Z)
| call_stop
| call_updateConfig (newConfig : ConfigPatch)
| timer_fires.

Definition call (c : Call) (s : State) : State * Tick :=
  match c with
  | call_start cameras intervalMs => start cameras intervalMs s
  | call_stop => (stop s, NoOp)
  | call_updateConfig newConfig => updateConfig newConfig s
  | timer_fires => processNext s
  end.

(** The state after a sequence of calls, with what each did. *)
Definition calls (cs : list Call) (s : State) : State * list Tick :=
  foldl (fun st c => let '(s, t) := call c st.1 in (s, st.2 ++ [t]))
        (s, []) cs.

End Reconfigure.

(** ** round-robin.ts: ticks that overlap *)

Module RoundRobinAsync.
Import Reconfigure.

(** [processNext] is an async function.  The statements before
    [await analyzeCamera(cameraId)] run when it is called; the assignment
    to [currentIndex] after the [await] runs when the analysis has
    settled.  [start] does not await the call it makes, and the timer
    calls [processNext] whether or not an earlier call is still
    suspended.  Here the two halves are separate steps. *)

(** [currentIndex] is a number: an index, or NaN once
    [(currentIndex + 1) % 0] was stored. *)
Inductive Cursor :=
| Index (i : nat)
| NaN.

(** The module-level variables, and the number of calls of
    [processNext] that are suspended at their [await]. *)
Record State := {
  config : RoundRobin.RoundRobinConfig;
  currentIndex : Cursor;
  intervalHandle : option Z;
  in_flight : nat
}.

Definition initial : State :=
  {| config := RoundRobin.config RoundRobin.initial;
     currentIndex := Index 0;
     intervalHandle := None;
     in_flight := 0 |}.

(** [config.cameras[currentIndex]] *)
Definition camera_at (s : State) : option string :=
  match currentIndex s with
  | Index i => RoundRobin.cameras (config s) !! i
  | NaN => None
  end.

(** The first half of [processNext]: the guard, the read of the camera
    at the cursor, and the call of [analyzeCamera], on which the function
    is suspended. *)
Definition processNext (s : State) : State * RoundRobin.Tick :=
  if negb (RoundRobin.enabled (config s))
     || (length (RoundRobin.cameras (config s)) =? 0)%nat
  then (s, RoundRobin.NoOp)
  else
    ({| config := config s; currentIndex := currentIndex s;
        intervalHandle := intervalHandle s;
        in_flight := S (in_flight s) |},
     RoundRobin.Analyzed (camera_at s)).

(** [(currentIndex + 1) % config.cameras.length], on the variables as
    they are when the analysis has settled. *)
Definition advance (s : State) : Cursor :=
  match currentIndex s with
  | Index i =>
      if (length (RoundRobin.cameras (config s)) =? 0)%nat then NaN
      else Index ((i + 1) mod length (RoundRobin.cameras (config s)))
  | NaN => NaN
  end.

(** The second half of [processNext], for one of the suspended calls. *)
Definition resume (s : State) : State :=
  match in_flight s with
  | O => s
  | S n =>
      {| config := config s; currentIndex := advance s;
         intervalHandle := intervalHandle s; in_flight := n |}
  end.

Definition start (cameras : list string) (intervalMs : Z) (s : State)
  : State * RoundRobin.Tick :=
  let s :=
    {| config := {| RoundRobin.cameras := cameras;
                    RoundRobin.intervalMs := intervalMs;
                    RoundRobin.go2rtcUrl := RoundRobin.go2rtcUrl (config s);
                    RoundRobin.enabled := true |};
       currentIndex := Index 0;
       intervalHandle := None;
       in_flight := in_flight s |} in
  let '(s, t) := processNext s in
  ({| config := config s; currentIndex := currentIndex s;
      intervalHandle := Some intervalMs; in_flight := in_flight s |}, t).

Definition stop (s : State) : State :=
  {| config := {| RoundRobin.cameras := RoundRobin.cameras (config s);
                  RoundRobin.intervalMs := RoundRobin.intervalMs (config s);
                  RoundRobin.go2rtcUrl := RoundRobin.go2rtcUrl (config s);
                  RoundRobin.enabled := false |};
     currentIndex := currentIndex s;
     intervalHandle := None;
     in_flight := in_flight s |}.

(** [updateConfig], as in [Reconfigure]; the restart begins a tick and
    returns while that tick is suspended. *)
Definition updateConfig (newConfig : ConfigPatch) (s : State)
  : State * RoundRobin.Tick :=
  let config :=
    {| RoundRobin.cameras :=
         default (RoundRobin.cameras (config s)) (new_cameras newConfig);
       RoundRobin.intervalMs :=
         Js.or_default (new_intervalMs newConfig)
                       (RoundRobin.intervalMs (config s));
       RoundRobin.go2rtcUrl :=
         if Js.truthy_string (new_go2rtcUrl newConfig)
         then default (RoundRobin.go2rtcUrl (config s))
                      (new_go2rtcUrl newConfig)
         else RoundRobin.go2rtcUrl (config s);
       RoundRobin.enabled := RoundRobin.enabled (config s) |} in
  let s :=
    {| config := config; currentIndex := currentIndex s;
       intervalHandle := intervalHandle s; in_flight := in_flight s |} in
  if RoundRobin.enabled config
  then start (RoundRobin.cameras config) (RoundRobin.intervalMs config)
             (stop s)
  else (s, RoundRobin.NoOp).

(** What happens between two calls from outside: the timer fires, or
    the analysis of a suspended call settles. *)
Inductive Event :=
| timer_fires
| analysis_settles.

(** The state after the event, and the tick that it began, if any. *)
Definition step (s : State) (e : Event)
  : State * option RoundRobin.Tick :=
  match e with
  | timer_fires => let '(s, t) := processNext s in (s, Some t)
  | analysis_settles => (resume s, None)
  end.

(** [start] followed by the events [es]: the final state and the ticks
    begun, the first of them by [start] itself. *)
Definition run (cameras : list string) (intervalMs : Z) (es : list Event)
    (s : State) : State * list RoundRobin.Tick :=
  let '(s, t) := start cameras intervalMs s in
  foldl (fun st e =>
           let '(s, t) := step st.1 e in
           (s, st.2 ++ match t with Some t => [t] | None => [] end))
        (s, [t]) es.

End RoundRobinAsync.

(** ** round-robin.ts: the analysis of one camera *)

Module Analyzer.
Import Database Queries.

Section Analyze.
Variable toGrayscale : list Z -> Js.Result ImageProcessor.Gray.
Variable toPng : ImageProcessor.Gray -> list Z.

(** [clock zoneId] is the instant read by [new Date()] (and by
    CURRENT_TIMESTAMP) while the zone is processed. *)
Variable clock : string -> Z.

(** The module-level [onUpdate]: [None] until [setUpdateCallback] is
    called. *)
Variable onUpdate :
  option (Server.State -> RoundRobin.AnalysisResult -> Server.State).

(** [analyzeCamera] is suspended at [await fetchFrame] and then at every
    [await analyzeFrame]; [meanwhile k s] is the state that the requests
    served during the [k]-th suspension make of the state [s]. *)
Variable meanwhile : nat -> Server.State -> Server.State.

Definition with_db (d : Db) (s : Server.State) : Server.State :=
  {| Server.currentOccupancy := Server.currentOccupancy s;
     Server.db := d;
     Server.sent := Server.sent s |}.

(** The body of [for (const zone of zones)] from the point where
    [analyzeFrame] has settled; a [Throw] leaves the loop for the [catch]
    around it, with the state as it is.  The INSERT of [logOccupancy] is
    refused when the zone has lost its row. *)
Definition analyze_zone (frameBuffer : list Z)
    (backgroundFrame : option (list Z)) (cameraId : string)
    (s : Server.State) (zone : Zone)
  : Js.Result (Server.State * RoundRobin.AnalysisResult) :=
  analysis ←
    ImageProcessor.analyzeFrame toGrayscale toPng
      frameBuffer backgroundFrame (z_polygon zone)
      {| ImageProcessor.threshold := None;
         ImageProcessor.minBlobArea := Some (min_blob_area zone);
         ImageProcessor.maxBlobArea := Some (max_blob_area zone);
         ImageProcessor.morphIterations := None |};
  let result :=
    {| RoundRobin.camera_id := cameraId;
       RoundRobin.zone_id := z_id zone;
       RoundRobin.zone_name := z_name zone;
       RoundRobin.count := ImageProcessor.count analysis;
       RoundRobin.blobs := ImageProcessor.blobs analysis;
       RoundRobin.alarm :=
         ImageProcessor.count analysis >=? alarm_threshold zone;
       RoundRobin.timestamp := clock (z_id zone) |} in
  d ← ForeignKeys.logOccupancy (clock (z_id zone)) (Server.db s)
         (z_id zone) (ImageProcessor.count analysis);
  let s := with_db d s in
  let s :=
    match onUpdate with
    | Some callback => callback s result
    | None => s
    end in
  Js.Ok (s, result).

(** The loop; [k] counts the suspensions. *)
Fixpoint zone_loop (frameBuffer : list Z)
    (backgroundFrame : option (list Z)) (cameraId : string) (k : nat)
    (s : Server.State) (results : list RoundRobin.AnalysisResult)
    (zones : list Zone)
  : Server.State * list RoundRobin.AnalysisResult :=
  match zones with
  | [] => (s, results)
  | zone :: zones =>
      let s := meanwhile k s in
      match analyze_zone frameBuffer backgroundFrame cameraId s zone with
      | Js.Ok (s, result) =>
          zone_loop frameBuffer backgroundFrame cameraId (S k) s
                    (results ++ [result]) zones
      | Js.Throw _ => (s, results)
      end
  end.

(** [analyzeCamera]; [frame] is the outcome of [fetchFrame(cameraId)],
    which is awaited only when the camera has zones, and [backgrounds]
    is the table of backgrounds when the frame has arrived. *)
Definition analyzeCamera (frame : Js.Result (list Z))
    (backgrounds : gmap string (list Z)) (s : Server.State)
    (cameraId : string)
  : Server.State * list RoundRobin.AnalysisResult :=
  let results := [] in
  let allZones := getAllZones (Server.db s) in
  let zones :=
    filter (fun z => z_camera_id z = Some cameraId) allZones in
  if (length zones =? 0)%nat then (s, results)
  else
    let s := meanwhile 0 s in
    match frame with
    | Js.Throw _ => (s, results)
    | Js.Ok frameBuffer =>
        let backgroundFrame := getBackgroundFrame backgrounds cameraId in
        zone_loop frameBuffer backgroundFrame cameraId 1 s results zones
    end.

End Analyze.

End Analyzer.

(** ** index.ts: request handlers *)

Module Handlers.
Import Database Queries.

(** What a handler answers: the status code and, for an error, its
    message. *)
Inductive Response :=
| ok (status : Z)
| failed (status : Z) (error : string).

Definition status_of (r : Response) : Z :=
  match r with ok s | failed s _ => s end.

(** The messages that these handlers broadcast. *)
Inductive Broadcast :=
| zone_created (zone : Zone)
| zone_deleted (zoneId : string).

(** *** POST /zones *)

(** An element of [polygon] in the request body that is an object;
    [None] is a coordinate for which [typeof] is not ['number'].  (A
    number, a string or a boolean as element reads as an object without
    coordinates.) *)
Record RawPoint := { raw_x : option Q; raw_y : option Q }.

(** The fields of the request body; [b_polygon] is [None] when the field
    is missing or not an array, and an element of the array is [None]
    when it is [null]. *)
Record ZoneBody := {
  b_name : option string;
  b_camera_id : option string;
  b_polygon : option (list (option RawPoint));
  b_min_blob_area : option Z;
  b_max_blob_area : option Z;
  b_alarm_threshold : option Z
}.

Definition numeric (p : RawPoint) : bool :=
  match raw_x p, raw_y p with
  | Some _, Some _ => true
  | _, _ => false
  end.

Definition point_of (p : RawPoint) : ImageProcessor.Point :=
  {| ImageProcessor.x := default 0%Q (raw_x p);
     ImageProcessor.y := default 0%Q (raw_y p) |}.

(** [for (const point of polygon)]: [Ok None] when the loop runs to its
    end, [Ok (Some r)] when it answers [r] and returns, and a TypeError
    when it reads [point.x] of [null]. *)
Fixpoint validate (polygon : list (option RawPoint))
  : Js.Result (option Response) :=
  match polygon with
  | [] => Js.Ok None
  | None :: _ => Js.Throw "Cannot read properties of null (reading 'x')"
  | Some point :: polygon =>
      if negb (numeric point)
      then Js.Ok (Some (failed 400
             "Invalid polygon point format. Expected {x: number, y: number}"))
      else validate polygon
  end.

(** The handler, with the id that [uuidv4()] returns.  Its body is one
    [try] block, whose [catch] answers 500 with the message of the
    error. *)
Definition post_zones (now : Z) (id : string) (body : ZoneBody)
    (d : Db) (sent : list Broadcast) : Response * Db * list Broadcast :=
  match b_polygon body with
  | Some polygon =>
      if negb (Js.truthy_string (b_name body))
         || (length polygon <? 3)%nat
      then (failed 400 "Name and polygon (min 3 points) are required",
            d, sent)
      else
        match validate polygon with
        | Js.Throw msg => (failed 500 msg, d, sent)
        | Js.Ok (Some response) => (response, d, sent)
        | Js.Ok None =>
            match createZone now d id
                    {| in_name := default "" (b_name body);
                       in_camera_id := b_camera_id body;
                       in_polygon := map point_of (omap (fun point => point) polygon);
                       in_min_blob_area := b_min_blob_area body;
                       in_max_blob_area := b_max_blob_area body;
                       in_alarm_threshold := b_alarm_threshold body |} with
            | Js.Ok (d, zone) => (ok 201, d, sent ++ [zone_created zone])
            | Js.Throw msg => (failed 500 msg, d, sent)
            end
        end
  | None =>
      (failed 400 "Name and polygon (min 3 points) are required", d, sent)
  end.

(** *** DELETE /zones/:id *)

Definition delete_zone (zoneId : string) (d : Db)
    (currentOccupancy : gmap string Server.Occupancy)
    (sent : list Broadcast)
  : Response * Db * gmap string Server.Occupancy * list Broadcast :=
  let '(d, deleted) := deleteZone d zoneId in
  if negb deleted
  then (failed 404 "Zone not found", d, currentOccupancy, sent)
  else (ok 200, d, delete zoneId currentOccupancy,
        sent ++ [zone_deleted zoneId]).

(** *** POST /analyze: the zones to analyze *)

(** [!z.camera_id] *)
Definition unassigned (z : Zone) : bool :=
  negb (Js.truthy_string (z_camera_id z)).

(** The two filters on [getAllZones()]; [zoneIds] is [None] when no list
    is given, [cameraId] adds a condition when it is a non-empty
    string. *)
Definition zones_to_analyze (d : Db) (zoneIds : option (list string))
    (cameraId : option string) : list Zone :=
  let zones := getAllZones d in
  let zones :=
    match zoneIds with
    | Some zoneIds => filter (fun z => z_id z ∈ zoneIds) zones
    | None => zones
    end in
  let zones :=
    if Js.truthy_string cameraId
    then filter (fun z => z_camera_id z = cameraId
                          \/ unassigned z = true) zones
    else zones in
  zones.

(** *** POST /background *)

Section Codec.
Variable toGrayscale : list Z -> Js.Result ImageProcessor.Gray.
Variable toPng : ImageProcessor.Gray -> list Z.

(** The handler for a raw image body with the query parameter
    [camera_id]. *)
Definition post_background (imageBuffer : list Z)
    (cameraId : option string) (t : gmap string (list Z))
  : Response * gmap string (list Z) :=
  if negb (Js.truthy_string cameraId)
  then (failed 400 "camera_id query param required", t)
  else
    let cameraId := default "" cameraId in
    let existingBg := getBackgroundFrame t cameraId in
    match ImageProcessor.updateBackground toGrayscale toPng
            imageBuffer existingBg ImageProcessor.default_alpha with
    | Js.Ok newBackground =>
        (ok 200, saveBackgroundFrame t cameraId newBackground)
    | Js.Throw msg => (failed 500 msg, t)
    end.

End Codec.

(** *** POST /backgrounds/capture-all *)

(** What the fetch of a camera's frame gives. *)
Inductive Fetched :=
| fetched (buffer : list Z)
| http_error (status : Z)
| rejected (msg : string).

Record Capture := {
  cap_camera_id : string;
  success : bool
}.

(** One iteration of [for (const cameraId of cameras)]. *)
Definition capture (fetch : string -> Fetched)
    (st : gmap string (list Z) * list Capture) (cameraId : string)
  : gmap string (list Z) * list Capture :=
  match fetch cameraId with
  | fetched buffer =>
      (saveBackgroundFrame st.1 cameraId buffer,
       st.2 ++ [{| cap_camera_id := cameraId; success := true |}])
  | http_error _ | rejected _ =>
      (st.1, st.2 ++ [{| cap_camera_id := cameraId; success := false |}])
  end.

(** The loop over the discovered cameras. *)
Definition capture_all (fetch : string -> Fetched) (cameras : list string)
    (t : gmap string (list Z))
  : gmap string (list Z) * list Capture :=
  foldl (capture fetch) (t, []) cameras.

End Handlers.

(** * Properties *)

(** ** The event logger and the zone store *)

Module DatabaseFacts.
Import Database.

Lemma round_div_exact (k b : Z) : 0 < b -> Js.round_div (b * k) b = k.
Proof.
  intros Hb. unfold Js.round_div.
  replace (2 * (b * k) + b) with (k * (2 * b) + b) by lia.
  rewrite Z.div_add_l by lia. rewrite Z.div_small by lia. lia.
Qed.

Lemma or_default_nonzero (v : option Z) (dflt : Z) :
  dflt <> 0 -> Js.or_default v dflt <> 0.
Proof.
  intros Hd. unfold Js.or_default. destruct v as [n|]; [|done].
  destruct (Z.eqb_spec n 0); done.
Qed.

Ltac branch :=
  repeat match goal with
    | |- context [Z.gtb ?a ?b] => rewrite (Z.gtb_ltb a b)
    | |- context [Z.eqb ?a ?b] => destruct (Z.eqb_spec a b)
    | |- context [Z.ltb ?a ?b] => destruct (Z.ltb_spec a b)
    end; simpl; try lia.

(** The row of [e] was appended to the log with the timestamp [stamp],
    and nothing else changed in the tables. *)
Definition recorded (d d' : Db) (e : ParkingEvent) (stamp : Z) : Prop :=
  parking_events d'
  = parking_events d
    ++ [ {| event_id := event_id e; zone_id := zone_id e;
            zone_name := zone_name e; camera_id := camera_id e;
            event_type := event_type e;
            count_before := count_before e; count_after := count_after e;
            duration_seconds := duration_seconds e;
            entry_time := entry_time e; exit_time := exit_time e;
            timestamp := stamp |} ]
  /\ zones d' = zones d /\ occupancy_log d' = occupancy_log d.

(** The tables are as they were. *)
Definition same_tables (d d' : Db) : Prop :=
  parking_events d' = parking_events d
  /\ parking_events_seq d' = parking_events_seq d
  /\ zones d' = zones d /\ occupancy_log d' = occupancy_log d.

(** C1, as the code has it.  For a zone that has its row in [zones],
    [logParkingEvent] follows the transition table: 0 -> positive is an
    [entry] that opens a session at [now] with the new count; positive ->
    0 is an [exit] whose duration is the time since the session's entry
    (in seconds, rounded) and whose entry time is the session's, after
    which the session is closed, or with no duration when there is no
    session; any other change is an [occupancy_change] with no duration
    and the sessions untouched; no change records nothing.  A recorded
    event has a duration exactly when it is an exit and a session
    existed.  For a zone that has no row, the call with equal counts
    still returns [null]; every other call throws the foreign-key error
    and records nothing, after the session map was changed as in the
    table: the entry has opened a session and the exit has closed
    one. *)
Theorem logParkingEvent_transitions
    (now stamp : Z) (d : Db) (zoneId zoneName cameraId : string)
    (prev new : Z) :
  let r := ForeignKeys.logParkingEvent now stamp d zoneId zoneName cameraId
             prev new in
  (is_Some (zones d !! zoneId) ->
   (prev = 0 /\ new > 0 ->
      exists e, r.2 = Js.Ok (Some e) /\ recorded d r.1 e stamp
        /\ event_type e = entry
        /\ count_before e = prev /\ count_after e = new
        /\ duration_seconds e = None /\ entry_time e = Some now
        /\ activeZoneSessions r.1
           = <[zoneId := {| entryTime := now; count := new |}]>
               (activeZoneSessions d))
   /\ (prev > 0 /\ new = 0 ->
         exists e, r.2 = Js.Ok (Some e) /\ recorded d r.1 e stamp
           /\ event_type e = exit
           /\ count_before e = prev /\ count_after e = new
           /\ exit_time e = Some now
           /\ match activeZoneSessions d !! zoneId with
              | Some session =>
                  duration_seconds e
                  = Some (Js.round_div (now - entryTime session) 1000)
                  /\ (forall k, now - entryTime session = 1000 * k ->
                                duration_seconds e = Some k)
                  /\ entry_time e = Some (entryTime session)
                  /\ activeZoneSessions r.1
                     = delete zoneId (activeZoneSessions d)
              | None =>
                  duration_seconds e = None
                  /\ activeZoneSessions r.1 = activeZoneSessions d
              end)
   /\ (prev <> new /\ ~ (prev = 0 /\ new > 0) /\ ~ (prev > 0 /\ new = 0) ->
         exists e, r.2 = Js.Ok (Some e) /\ recorded d r.1 e stamp
           /\ event_type e = occupancy_change
           /\ count_before e = prev /\ count_after e = new
           /\ duration_seconds e = None
           /\ activeZoneSessions r.1 = activeZoneSessions d)
   /\ (prev = new -> r = (d, Js.Ok None))
   /\ (forall e, r.2 = Js.Ok (Some e) ->
         (is_Some (duration_seconds e)
          <-> event_type e = exit
              /\ is_Some (activeZoneSessions d !! zoneId))))
  /\ (zones d !! zoneId = None ->
      (prev = new -> r = (d, Js.Ok None))
      /\ (prev <> new ->
          r.2 = Js.Throw "FOREIGN KEY constraint failed"
          /\ same_tables d r.1
          /\ activeZoneSessions r.1
             = if (prev =? 0) && (new >? 0)
               then <[zoneId := {| entryTime := now; count := new |}]>
                      (activeZoneSessions d)
               else if (prev >? 0) && (new =? 0)
               then delete zoneId (activeZoneSessions d)
               else activeZoneSessions d)).
Proof.
  cbv zeta. unfold ForeignKeys.logParkingEvent,
    ForeignKeys.references_zone, classify, recorded, same_tables.
  split.
  - intros Hzone.
    split; [|split; [|split; [|split]]].
    + intros [-> Hnew]. branch. rewrite bool_decide_eq_true_2 by done.
      eexists; repeat split; reflexivity.
    + intros [Hprev ->]. branch;
        destruct (activeZoneSessions d !! zoneId) as [session|] eqn:Hs; simpl;
        rewrite bool_decide_eq_true_2 by done;
        eexists; repeat split; try reflexivity.
      intros k Hk. simpl. rewrite Hk, round_div_exact by lia. done.
    + intros (Hne & Hentry & Hexit). branch;
        rewrite bool_decide_eq_true_2 by done;
        eexists; repeat split; reflexivity.
    + intros ->. branch; done.
    + intros ev. branch;
        try destruct (activeZoneSessions d !! zoneId) as [session|] eqn:Hs;
        simpl; rewrite ?bool_decide_eq_true_2 by done; simpl;
        intros [= <-]; simpl;
        (split;
         [ intros [v Hv];
           first [ discriminate Hv | split; [done | by eexists] ]
         | intros [Hty Hses];
           first [ discriminate Hty
                 | by destruct Hses as [? Hses]
                 | by eexists ] ]).
  - intros Hzone. split.
    + intros ->. branch; done.
    + intros Hne. branch;
        try destruct (activeZoneSessions d !! zoneId) as [session|] eqn:Hs;
        simpl; rewrite bool_decide_eq_false_2 by (rewrite Hzone; by intros [? ?]);
        simpl; repeat split; try done.
  symmetry. first [by apply delete_id | by apply delete_notin].
Qed.

(** C1, as the specification words it, fails for a zone without a row.
    The logger is called with the counts 0 and 2 for a zone id that is
    not in [zones]: the session is opened, the INSERT is refused, no
    event is recorded and the call throws, where the claim has an entry
    recorded for every invocation. *)
Lemma logParkingEvent_absent_zone :
  let r := ForeignKeys.logParkingEvent 1000 1000 empty_db
             "z1" "Bay A" "front" 0 2 in
  r.2 = Js.Throw "FOREIGN KEY constraint failed"
  /\ parking_events r.1 = []
  /\ activeZoneSessions r.1 !! "z1"
     = Some {| entryTime := 1000; count := 2 |}.
Proof. cbv zeta. split; [reflexivity|]. split; reflexivity. Qed.

(** C10.  [createZone] with a fresh id succeeds and stores the default for
    a missing or zero [min_blob_area], [max_blob_area] or
    [alarm_threshold] (500, 50000 and 1), and the supplied value
    otherwise; so none of the three is zero in the created zone. *)
Theorem createZone_defaults
    (now : Z) (d : Db) (id : string) (input : ZoneInput) :
  zones d !! id = None ->
  exists d' z,
    createZone now d id input = Js.Ok (d', z)
    /\ getZone d' id = Some z
    /\ min_blob_area z = Js.or_default (in_min_blob_area input) 500
    /\ max_blob_area z = Js.or_default (in_max_blob_area input) 50000
    /\ alarm_threshold z = Js.or_default (in_alarm_threshold input) 1
    /\ (in_min_blob_area input = Some 0 -> min_blob_area z = 500)
    /\ (in_max_blob_area input = Some 0 -> max_blob_area z = 50000)
    /\ (in_alarm_threshold input = Some 0 -> alarm_threshold z = 1)
    /\ min_blob_area z <> 0 /\ max_blob_area z <> 0
    /\ alarm_threshold z <> 0.
Proof.
  intros Hfresh. unfold createZone, getZone. rewrite Hfresh. simpl.
  rewrite lookup_insert_eq. do 2 eexists. split; [reflexivity|]. simpl.
  rewrite lookup_insert_eq.
  repeat split; try (intros ->; reflexivity);
    apply or_default_nonzero; lia.
Qed.

Definition zero_input : ZoneInput :=
  {| in_name := "Bay A"; in_camera_id := Some "front";
     in_polygon := [];
     in_min_blob_area := Some 0; in_max_blob_area := Some 0;
     in_alarm_threshold := Some 0 |}.

Lemma createZone_defaults_witness :
  exists d' z,
    createZone 0 empty_db "z1" zero_input = Js.Ok (d', z)
    /\ min_blob_area z = 500 /\ max_blob_area z = 50000
    /\ alarm_threshold z = 1.
Proof.
  destruct (createZone_defaults 0 empty_db "z1" zero_input)
    as (d' & z & Hc & _ & _ & _ & _ & Hmin & Hmax & Halarm & _).
  - reflexivity.
  - exists d', z. split; [exact Hc|].
    split; [apply Hmin|split; [apply Hmax|apply Halarm]]; reflexivity.
Defined.

End DatabaseFacts.

(** ** Deleting a zone *)

Module DeleteZoneFacts.
Import Database.

(** What [deleteZone] does to the tables, for every database and id: the
    zone's occupancy and event rows are gone before the zone row is
    deleted, the result tells whether a zone row was deleted, and the
    session map is not touched. *)
Lemma deleteZone_cascade (d : Db) (id : string) :
  let d2 := delete_event_rows id (delete_occupancy_rows id d) in
  let r := deleteZone d id in
  Forall (fun o => occ_zone_id o <> id) (occupancy_log d2)
  /\ Forall (fun e => zone_id e <> id) (parking_events d2)
  /\ zones d2 = zones d
  /\ r.1 = (delete_zone_row id d2).1
  /\ zones r.1 = delete id (zones d)
  /\ (r.2 = true <-> is_Some (zones d !! id))
  /\ activeZoneSessions r.1 = activeZoneSessions d.
Proof.
  cbv zeta. unfold deleteZone. simpl.
  repeat split.
  - apply Forall_forall. intros o [Ho _]%list_elem_of_filter. done.
  - apply Forall_forall. intros e [He _]%list_elem_of_filter. done.
  - destruct (zones d !! id); [by eexists | done].
  - intros [z Hz]. by rewrite Hz.
Qed.

Lemma group_stats_zone (rows : list ParkingEvent) (z : ZoneStats) :
  z ∈ sort_by_entries (group_stats rows) ->
  exists e, e ∈ rows /\ zone_id e = zs_zone_id z.
Proof.
  assert (Hins : forall a l y,
             y ∈ insert_by_entries a l -> y = a \/ y ∈ l).
  { intros a l. induction l as [|b l IH]; simpl; intros y Hy.
    - apply list_elem_of_singleton in Hy. by left.
    - destruct (zs_entries b <? zs_entries a).
      + apply elem_of_cons in Hy. tauto.
      + apply elem_of_cons in Hy as [->|Hy]; [right; left|].
        destruct (IH _ Hy); [by left|right; by right]. }
  assert (Hsort : forall l y, y ∈ sort_by_entries l -> y ∈ l).
  { induction l as [|a l IH]; simpl; intros y Hy; [done|].
    apply Hins in Hy as [->|Hy]; [left|right; by apply IH]. }
  intros Hz%Hsort. unfold group_stats in Hz.
  apply list_elem_of_fmap in Hz as (k & -> & Hk).
  apply elem_of_remove_dups, list_elem_of_fmap in Hk as (e & -> & He).
  by exists e.
Qed.

(** After [deleteZone], the totals and the per-zone breakdown of
    [getParkingStats] are computed from rows none of which belongs to the
    deleted zone. *)
Lemma stats_rows_exclude (d : Db) (id : string) (since : option Z) :
  let st := getParkingStats (deleteZone d id).1 since in
  let rows :=
    since_filter since
      (filter (fun e => zone_id e <> id) (parking_events d)) in
  totalEntries st = count_type entry rows
  /\ totalExits st = count_type exit rows
  /\ avgDurationSeconds st = avg_duration rows
  /\ Forall (fun z => zs_zone_id z <> id) (byZone st).
Proof.
  cbv zeta. unfold getParkingStats, deleteZone. simpl.
  repeat split. apply Forall_forall. intros z Hz.
  apply group_stats_zone in Hz as (e & He & <-).
  destruct since as [s|]; simpl in He.
  - apply list_elem_of_filter in He as [_ He].
    by apply list_elem_of_filter in He as [He _].
  - by apply list_elem_of_filter in He as [He _].
Qed.

(** A zone is created, the scheduler reports two vehicles in it (an entry
    event, which opens a session), and the zone is deleted. *)
Definition bay : ZoneInput :=
  {| in_name := "Bay A"; in_camera_id := Some "front"; in_polygon := [];
     in_min_blob_area := None; in_max_blob_area := None;
     in_alarm_threshold := None |}.

Definition occupied_then_deleted : Db * bool :=
  match createZone 0 empty_db "z1" bay with
  | Js.Ok (d, _) =>
      deleteZone (logParkingEvent 1000 d "z1" "Bay A" "front" 0 2).1 "z1"
  | Js.Throw _ => (empty_db, false)
  end.

(** C8 at that input: the delete reports success and leaves no zone, no
    event row and no per-zone statistics, but the statistics still count
    one occupied zone, because the session of the deleted zone stays in
    [activeZoneSessions]. *)
Theorem deleteZone_keeps_session :
  let d := occupied_then_deleted.1 in
  occupied_then_deleted.2 = true
  /\ zones d !! "z1" = None
  /\ parking_events d = []
  /\ byZone (getParkingStats d None) = []
  /\ totalEntries (getParkingStats d None) = 0
  /\ is_Some (activeZoneSessions d !! "z1")
  /\ currentOccupied (getParkingStats d None) = 1.
Proof.
  cbv zeta. repeat split; try (vm_compute; reflexivity).
  vm_compute. by eexists.
Qed.

End DeleteZoneFacts.

(** ** The writers of the occupancy state *)

Module ServerFacts.
Import Server.

(** The scheduler's writer follows the protocol: the previous count is
    read from the entry before it is overwritten, and the database is
    what the event logger makes of it with that previous count.  (The
    guard [prevCount !== result.count] skips only the calls in which the
    logger returns [null].) *)
Lemma onUpdate_protocol (now : Z) (s : State)
    (result : RoundRobin.AnalysisResult) :
  let zid := RoundRobin.zone_id result in
  let prev := prev_count s zid in
  let s' := onUpdate now s result in
  db s' = (Database.logParkingEvent now (db s) zid
             (RoundRobin.zone_name result) (RoundRobin.camera_id result)
             prev (RoundRobin.count result)).1
  /\ prev_count s' zid = RoundRobin.count result.
Proof.
  cbv zeta. unfold onUpdate, prev_count. split.
  - destruct (Z.eqb_spec
                (match currentOccupancy s !! RoundRobin.zone_id result with
                 | Some o => count o | None => 0 end)
                (RoundRobin.count result)) as [Heq|Hne]; simpl.
    + rewrite Heq. unfold Database.logParkingEvent, Database.classify.
      rewrite Z.eqb_refl. simpl.
      destruct (RoundRobin.count result =? 0) eqn:E0;
        destruct (RoundRobin.count result >? 0) eqn:E1; simpl; try done.
      rewrite Z.gtb_ltb in E1. apply Z.eqb_eq in E0. apply Z.ltb_lt in E1.
      lia.
    + by destruct (Database.logParkingEvent _ _ _ _ _ _ _).
  - destruct (negb _); [destruct (Database.logParkingEvent _ _ _ _ _ _ _)|];
      simpl; by rewrite lookup_insert_eq.
Qed.

(** The two HTTP writers never call the event logger: whatever they
    write, the event log and the sessions stay as they were. *)
Lemma analyze_write_no_event (now : Z) (s : State)
    (zone : Database.Zone) (analysis : Analysis) :
  let s1 := analyze_write now s zone analysis in
  let s2 := analyze_stream_write now s zone analysis in
  Database.parking_events (db s1) = Database.parking_events (db s)
  /\ Database.activeZoneSessions (db s1) = Database.activeZoneSessions (db s)
  /\ Database.parking_events (db s2) = Database.parking_events (db s)
  /\ Database.activeZoneSessions (db s2) = Database.activeZoneSessions (db s)
  /\ prev_count s1 (Database.z_id zone) = a_count analysis
  /\ prev_count s2 (Database.z_id zone) = a_count analysis.
Proof.
  cbv zeta. unfold analyze_write, analyze_stream_write, prev_count. simpl.
  rewrite lookup_insert_eq. done.
Qed.

Definition bay_zone : Database.Zone :=
  {| Database.z_id := "z1"; Database.z_name := "Bay A";
     Database.z_camera_id := Some "front"; Database.z_polygon := [];
     Database.min_blob_area := 500; Database.max_blob_area := 50000;
     Database.alarm_threshold := 1;
     Database.created_at := 0; Database.updated_at := 0 |}.

Definition s0 : State :=
  {| currentOccupancy := ∅;
     db := {| Database.zones := {[ "z1" := bay_zone ]};
              Database.occupancy_log := [];
              Database.occupancy_log_seq := 0;
              Database.parking_events := [];
              Database.parking_events_seq := 0;
              Database.activeZoneSessions := ∅ |};
     sent := [] |}.

Definition empty_result : RoundRobin.AnalysisResult :=
  {| RoundRobin.camera_id := "front"; RoundRobin.zone_id := "z1";
     RoundRobin.zone_name := "Bay A"; RoundRobin.count := 0;
     RoundRobin.blobs := []; RoundRobin.alarm := false;
     RoundRobin.timestamp := 5000 |}.

(** C2 at a concrete input.  With the zone empty, [/analyze] writes a
    count of 2: the entry is updated, but no event is recorded and no
    session is opened, where the event logger called with (0, 2) records
    an [entry].  The scheduler's next write of 0 then reads 2 as the
    previous count and records an [exit] with no duration, for a session
    that was never opened. *)
Theorem analyze_write_skips_logger :
  let s1 := analyze_write 1000 s0 bay_zone {| a_blobs := []; a_count := 2 |} in
  let logged :=
    Database.logParkingEvent 1000 (db s0) "z1" "Bay A" "front" 0 2 in
  let s2 := onUpdate 5000 s1 empty_result in
  prev_count s0 "z1" = 0
  /\ prev_count s1 "z1" = 2
  /\ Database.parking_events (db s1) = []
  /\ Database.event_type <$> logged.2 = Some Database.entry
  /\ Database.parking_events logged.1 <> Database.parking_events (db s1)
  /\ Database.event_type <$> Database.parking_events (db s2)
     = [Database.exit]
  /\ Database.duration_seconds <$> Database.parking_events (db s2)
     = [None].
Proof.
  cbv zeta. repeat split; try (vm_compute; reflexivity).
  vm_compute. discriminate.
Qed.

End ServerFacts.

(** ** The round-robin scheduler *)

Module RoundRobinFacts.
Import RoundRobin.
Local Open Scope nat_scope.

Lemma processNext_running (s : State) :
  enabled (config s) = true ->
  cameras (config s) <> [] ->
  processNext s
  = ({| config := config s;
        currentIndex := (currentIndex s + 1) mod length (cameras (config s));
        intervalHandle := intervalHandle s |},
     Analyzed (cameras (config s) !! currentIndex s)).
Proof.
  intros Hen Hne. unfold processNext. rewrite Hen. simpl.
  destruct (cameras (config s)) as [|c cs]; [done|]. reflexivity.
Qed.

End RoundRobinFacts.

(** ** Ticks that overlap *)

Module RoundRobinAsyncFacts.
Import RoundRobinAsync.
Local Open Scope nat_scope.

Global Instance Event_eq_dec : EqDecision Event.
Proof. solve_decision. Defined.

(** The number of events of [es] that are settlements. *)
Definition settled (es : list Event) : nat :=
  length (filter (fun e => e = analysis_settles) es).

(** The ticks of a run in which every event finds the scheduler as
    [start] left it but for the cursor: the tick begun by a firing
    analyzes the camera at the number of settlements before it. *)
Fixpoint expected (cams : list string) (n : nat) (es : list Event)
  : list RoundRobin.Tick :=
  match es with
  | [] => []
  | timer_fires :: es =>
      RoundRobin.Analyzed (cams !! (n mod length cams)) :: expected cams n es
  | analysis_settles :: es => expected cams (S n) es
  end.

(** No settlement finds nothing in flight: before every settlement in
    [es], more ticks have begun than have settled, [k] of them being in
    flight at the start. *)
Fixpoint balanced (k : nat) (es : list Event) : bool :=
  match es with
  | [] => true
  | timer_fires :: es => balanced (S k) es
  | analysis_settles :: es =>
      match k with
      | O => false
      | S k => balanced k es
      end
  end.

Lemma foldl_step (cams : list string) (ms : Z) (url : string) :
  cams <> [] ->
  forall (es : list Event) (n k : nat) (ts : list RoundRobin.Tick),
    balanced k es = true ->
    foldl (fun st e =>
             let '(s, t) := step st.1 e in
             (s, st.2 ++ match t with Some t => [t] | None => [] end))
          ({| config := {| RoundRobin.cameras := cams;
                           RoundRobin.intervalMs := ms;
                           RoundRobin.go2rtcUrl := url;
                           RoundRobin.enabled := true |};
              currentIndex := Index (n mod length cams);
              intervalHandle := Some ms;
              in_flight := k |}, ts) es
    = ({| config := {| RoundRobin.cameras := cams;
                       RoundRobin.intervalMs := ms;
                       RoundRobin.go2rtcUrl := url;
                       RoundRobin.enabled := true |};
          currentIndex := Index ((n + settled es) mod length cams);
          intervalHandle := Some ms;
          in_flight := k + length es - 2 * settled es |},
       ts ++ expected cams n es).
Proof.
  intros Hne. induction es as [|[|] es IH]; intros n k ts Hb.
  - cbn. rewrite app_nil_r. do 3 f_equal; [f_equal; lia | lia].
  - cbn [foldl step fst snd]. unfold processNext.
    cbn [config RoundRobin.enabled RoundRobin.cameras negb orb].
    assert ((length cams =? 0) = false) as ->
      by (apply Nat.eqb_neq; by destruct cams).
    cbn [fst snd in_flight config currentIndex intervalHandle].
    cbn in Hb. rewrite (IH n (S k) _ Hb).
    unfold camera_at, settled. cbn [currentIndex config RoundRobin.cameras].
    rewrite filter_cons, decide_False by done.
    cbn [expected length]. rewrite <- app_assoc. cbn [app].
    do 2 f_equal. f_equal. lia.
  - cbn in Hb. destruct k as [|k]; [done|].
    cbn [foldl step fst snd]. unfold resume, advance.
    cbn [in_flight config currentIndex intervalHandle RoundRobin.cameras].
    assert ((length cams =? 0) = false) as ->
      by (apply Nat.eqb_neq; by destruct cams).
    rewrite app_nil_r.
    assert ((n mod length cams + 1) mod length cams
            = S n mod length cams) as ->.
    { rewrite Nat.Div0.add_mod_idemp_l. f_equal. lia. }
    rewrite (IH (S n) k _ Hb).
    unfold settled. rewrite filter_cons, decide_True by done.
    cbn [expected length].
    assert (length (filter (fun e => e = analysis_settles) es) <= length es)
      by apply length_filter.
    f_equal. f_equal; [f_equal; f_equal; lia | lia].
Qed.

(** The law of the cursor.  After [start] with a non-empty list, in any
    run of firings and settlements, the tick begun by a firing analyzes
    the camera at [j mod |C|], where [j] is the number of ticks that have
    settled before it, not the number of ticks that have begun; the
    cursor is the number of settlements modulo [|C|]. *)
Lemma run_law (cams : list string) (ms : Z) (es : list Event) (s : State) :
  cams <> [] ->
  balanced (S (in_flight s)) es = true ->
  let r := run cams ms es s in
  r.2 = RoundRobin.Analyzed (head cams) :: expected cams 0 es
  /\ currentIndex r.1 = Index (settled es mod length cams)
  /\ in_flight r.1 = S (in_flight s) + length es - 2 * settled es.
Proof.
  intros Hne Hb. cbv zeta. unfold run, start, processNext.
  cbn [config RoundRobin.enabled RoundRobin.cameras negb orb].
  assert ((length cams =? 0) = false) as ->
    by (apply Nat.eqb_neq; by destruct cams).
  cbn [fst snd in_flight config currentIndex intervalHandle].
  pose proof (foldl_step cams ms (RoundRobin.go2rtcUrl (config s)) Hne
                es 0 (S (in_flight s))) as Hf.
  rewrite Nat.Div0.mod_0_l in Hf. rewrite Hf by done.
  cbn [fst snd currentIndex in_flight app].
  split; [|done]. unfold camera_at. cbn. by destruct cams.
Qed.

(** Every tick settles before the next begins. *)
Fixpoint in_turn (n : nat) : list Event :=
  match n with
  | O => []
  | S n => analysis_settles :: timer_fires :: in_turn n
  end.

Lemma expected_in_turn cams (n k : nat) :
  expected cams k (in_turn n)
  = map (fun j => RoundRobin.Analyzed (cams !! ((k + 1 + j) mod length cams)))
        (seq 0 n).
Proof.
  revert k. induction n as [|n IH]; intros k; [done|].
  cbn [in_turn expected seq map]. f_equal.
  - do 3 f_equal. lia.
  - rewrite IH, <- seq_shift, map_map. apply map_ext. intros j.
    do 3 f_equal. lia.
Qed.

Lemma balanced_in_turn n k : balanced (S k) (in_turn n) = true.
Proof. induction n as [|n IH]; [done|]. exact IH. Qed.

Lemma settled_in_turn n : settled (in_turn n) = n.
Proof.
  unfold settled. induction n as [|n IH]; [done|]. cbn [in_turn].
  rewrite filter_cons, decide_True by done.
  rewrite filter_cons, decide_False by done. cbn. by rewrite IH.
Qed.

Lemma length_in_turn n : length (in_turn n) = 2 * n.
Proof. induction n as [|m IH]; [done|]. cbn [in_turn length]. lia. Qed.

(** When every tick settles before the next begins, the ticks go round
    the cameras: tick [k] analyzes [cameras[k mod |C|]], and after [n]
    further ticks, the last still in flight, the cursor is at
    [n mod |C|]. *)
Lemma sequential_ticks (cams : list string) (ms : Z) (n : nat) (s : State) :
  cams <> [] ->
  let r := run cams ms (in_turn n) s in
  r.2 = map (fun k => RoundRobin.Analyzed (cams !! (k mod length cams)))
            (seq 0 (S n))
  /\ currentIndex r.1 = Index (n mod length cams)
  /\ currentIndex (resume r.1) = Index (S n mod length cams).
Proof.
  intros Hne. cbv zeta.
  destruct (run_law cams ms (in_turn n) s Hne (balanced_in_turn n _))
    as (Hts & Hc & Hk).
  rewrite settled_in_turn in Hc, Hk.
  split; [|split; [done|]].
  - rewrite Hts, expected_in_turn. cbn [seq map]. f_equal.
    + rewrite Nat.Div0.mod_0_l. by destruct cams.
    + rewrite <- seq_shift, map_map. apply map_ext. intros j.
      do 2 f_equal.
  - unfold resume. rewrite Hk.
    rewrite length_in_turn.
    replace (S (in_flight s) + 2 * n - 2 * n) with (S (in_flight s)) by lia.
    cbn [currentIndex]. unfold advance. rewrite Hc.
    assert (config (run cams ms (in_turn n) s).1
            = {| RoundRobin.cameras := cams;
                 RoundRobin.intervalMs := ms;
                 RoundRobin.go2rtcUrl := RoundRobin.go2rtcUrl (config s);
                 RoundRobin.enabled := true |}) as ->.
    { unfold run, start, processNext.
      cbn [config RoundRobin.enabled RoundRobin.cameras negb orb].
      assert ((length cams =? 0) = false) as ->
        by (apply Nat.eqb_neq; by destruct cams).
      cbn [fst snd in_flight config currentIndex intervalHandle].
      pose proof (foldl_step cams ms (RoundRobin.go2rtcUrl (config s)) Hne
                    (in_turn n) 0 (S (in_flight s))) as Hf.
      rewrite Nat.Div0.mod_0_l in Hf.
      rewrite Hf by apply balanced_in_turn. done. }
    cbn [RoundRobin.cameras].
    assert ((length cams =? 0) = false) as ->
      by (apply Nat.eqb_neq; by destruct cams).
    f_equal. rewrite Nat.Div0.add_mod_idemp_l. f_equal. lia.
Qed.

(** Cameras a, b, c.  The snapshot of camera a is slow: the timer fires
    while the first tick is still waiting for it. *)
Definition slow_snapshot : list Event :=
  [timer_fires; analysis_settles; analysis_settles; timer_fires].

(** C3 at that run.  [start] resets the cursor and begins tick 0 on
    camera a.  Tick 1 begins before tick 0 has advanced the cursor and
    analyzes camera a again, where the claim has it analyze
    [cameras[1 mod 3]], camera b.  When both have settled the cursor
    has advanced twice, and tick 2 analyzes camera c: camera b is passed
    over.  A tick of a stopped scheduler, or with no cameras, does
    nothing. *)
Theorem overlapping_ticks_repeat_camera :
  let cams := ["a"; "b"; "c"]%string in
  let r := run cams 1000 slow_snapshot initial in
  (start cams 1000 initial).2 = RoundRobin.Analyzed (Some "a"%string)
  /\ currentIndex (start cams 1000 initial).1 = Index 0
  /\ r.2 = [RoundRobin.Analyzed (Some "a"%string);
            RoundRobin.Analyzed (Some "a"%string);
            RoundRobin.Analyzed (Some "c"%string)]
  /\ r.2 !! 1 <> Some (RoundRobin.Analyzed (cams !! (1 mod 3)))
  /\ currentIndex r.1 = Index 2
  /\ (forall s, RoundRobin.enabled (config s) = false
                \/ RoundRobin.cameras (config s) = [] ->
                processNext s = (s, RoundRobin.NoOp)).
Proof.
  cbv zeta. split; [reflexivity|]. split; [reflexivity|].
  split; [reflexivity|]. split; [discriminate|]. split; [reflexivity|].
  intros s [Hdis|Hempty]; unfold processNext.
  - by rewrite Hdis.
  - rewrite Hempty. simpl. by rewrite orb_true_r.
Qed.

End RoundRobinAsyncFacts.

(** ** A concrete image codec, for examples

    Images are raw: a buffer [w :: h :: pixels] with [w * h] pixels decodes
    to that plane, anything else is rejected; encoding is the inverse. *)

Module RawCodec.
Import ImageProcessor.

Definition toGrayscale (buf : list Z) : Js.Result Gray :=
  match buf with
  | w :: h :: pixels =>
      if (0 <=? w) && (0 <=? h) && (Z.of_nat (length pixels) =? w * h)
      then Js.Ok {| data := pixels; width := w; height := h |}
      else Js.Throw "Input buffer has corrupt header"
  | _ => Js.Throw "Input buffer contains unsupported image format"
  end.

Definition toPng (g : Gray) : list Z := width g :: height g :: data g.

(** A 1 x 1 frame whose pixel has value 1. *)
Definition dot : list Z := [1; 1; 1].

(** A polygon around the pixels of a 4 x 4 frame. *)
Definition square : list Point :=
  [ {| x := 0; y := 0 |}; {| x := 4; y := 0 |};
    {| x := 4; y := 4 |}; {| x := 0; y := 4 |} ]%Q.

End RawCodec.

(** ** The fallback of the external detector *)

Module DetectionModesFacts.
Import DetectionModes.

(** The payloads that cannot be normalised: the value read as the list
    of detections has no [map], or one of its elements is [null]. *)
Definition malformed (raw : RawList) : bool :=
  match raw with
  | NotArray => true
  | Array elements => existsb (fun det => negb (bool_decide (is_Some det)))
                              elements
  end.

(** The replies on which the [try] block of [detectHailo] throws: a
    transport error, a status that is not OK, a body that is not JSON or
    is [null], a payload with a non-empty [error], a payload that cannot
    be normalised. *)
Definition failed (reply : Reply) : bool :=
  match reply with
  | NetworkError _ | HttpError _ _ | BadJson _ | JsonNull => true
  | Json p => Js.truthy_string (error p) || malformed (rawDetections p)
  end.

(** The options with which the [catch] block calls [detectBlob]. *)
Definition fallback_options : Options :=
  {| minBlobArea := Some 500; maxBlobArea := Some 50000;
     confidenceThreshold := None; classes := None |}.

Lemma map_normalize_outcome (elements : list (option RawDetection)) :
  match map_normalize elements with
  | Js.Ok ds =>
      malformed (Array elements) = false
      /\ Some <$> omap id elements = elements
      /\ ds = normalize <$> omap id elements
  | Js.Throw _ => malformed (Array elements) = true
  end.
Proof.
  induction elements as [|[det|] elements IH]; simpl; [done| |done].
  destruct (map_normalize elements) as [ds|msg]; simpl in *; [|done].
  destruct IH as (Hm & He & ->).
  split; [done|]. split; [|done]. f_equal. exact He.
Qed.

Lemma normalize_all_outcome (raw : RawList) :
  match normalize_all raw with
  | Js.Ok _ => malformed raw = false
  | Js.Throw _ => malformed raw = true
  end.
Proof.
  destruct raw as [|elements]; [done|]. simpl.
  pose proof (map_normalize_outcome elements) as H.
  destruct (map_normalize elements); [by destruct H|done].
Qed.

Section Fallback.
Variable toGrayscale : list Z -> Js.Result ImageProcessor.Gray.
Variable toPng : ImageProcessor.Gray -> list Z.

(** [failed] singles out the replies on which the [try] block throws,
    and no others. *)
Lemma hailo_try_throws polygon modelType options reply elapsed :
  failed reply = true
  <-> exists msg,
        hailo_try polygon modelType options reply elapsed = Js.Throw msg.
Proof.
  unfold hailo_try. destruct reply as [msg|status txt|msg| |p]; simpl;
    try (split; [by eexists|done]).
  change (mbind ?f (Js.Ok p)) with (f p). cbv beta.
  destruct (Js.truthy_string (error p)); simpl.
  { split; [by eexists|done]. }
  pose proof (normalize_all_outcome (rawDetections p)) as H.
  destruct (normalize_all (rawDetections p)) as [ds|msg]; simpl.
  - rewrite H. split; [done|]. by intros [? ?].
  - rewrite H. split; [by eexists|done].
Qed.

Lemma hailo_try_failed polygon modelType options reply elapsed :
  failed reply = true ->
  exists msg,
    hailo_try polygon modelType options reply elapsed = Js.Throw msg.
Proof. apply hailo_try_throws. Qed.

Lemma detectHailo_failed frame polygon modelType options reply
    elapsed elapsedBlob :
  failed reply = true ->
  detectHailo toGrayscale toPng frame polygon modelType options reply
              elapsed elapsedBlob
  = detectBlob toGrayscale toPng frame None polygon fallback_options
               elapsedBlob.
Proof.
  intros Hf. unfold detectHailo.
  destruct (hailo_try_failed polygon modelType options reply elapsed Hf)
    as [msg ->].
  reflexivity.
Qed.

Lemma detectBlob_outcome frame background polygon options elapsed :
  match detectBlob toGrayscale toPng frame background polygon options
                   elapsed with
  | Js.Ok r =>
      mode r = blob /\ count r = Z.of_nat (length (detections r))
      /\ inferenceTimeMs r = elapsed
  | Js.Throw msg =>
      toGrayscale frame = Js.Throw msg
      \/ exists bg, background = Some bg
                    /\ (forall g, toGrayscale frame = Js.Ok g ->
                          toGrayscale bg = Js.Throw msg
                          \/ msg = "Frame dimensions do not match background")
  end.
Proof.
  unfold detectBlob, ImageProcessor.analyzeFrame.
  destruct (toGrayscale frame) as [cur|msg] eqn:Hcur; simpl; [|by left].
  destruct background as [bg|]; simpl.
  - destruct (toGrayscale bg) as [g|msg] eqn:Hbg; simpl.
    + destruct (negb _ || negb _); simpl.
      * right. exists bg. split; [done|]. intros g' _. by right.
      * by rewrite length_map.
    + right. exists bg. split; [done|]. intros g' _. by left.
  - by rewrite length_map.
Qed.

(** C5, as the code has it.  In an external mode, when the call to the
    external detector fails (transport error, status not OK, unreadable
    or [null] body, an [error] in the payload, or a payload that cannot
    be normalised), [detectInFrame] returns what the blob variant returns
    for the frame with no background and the area bounds 500 and 50000.
    The external failure never reaches the caller.  What reaches the
    caller is the outcome of the blob variant: for a frame that decodes,
    a blob result with [count = length detections]; for a frame that the
    decoder rejects, the decoder's exception, because the [catch] block
    calls [detectBlob] unguarded. *)
Theorem detectInFrame_fallback
    (currentMode : DetectionMode) (frame : list Z)
    (background : option (list Z)) (polygon : list ImageProcessor.Point)
    (options : Options) (reply : Reply) (elapsed elapsedBlob : Z) :
  currentMode <> blob ->
  failed reply = true ->
  let r := detectInFrame toGrayscale toPng currentMode frame background
             polygon options reply elapsed elapsedBlob in
  r = detectBlob toGrayscale toPng frame None polygon fallback_options
                 elapsedBlob
  /\ match toGrayscale frame with
     | Js.Ok _ =>
         exists res, r = Js.Ok res /\ mode res = blob
                     /\ count res = Z.of_nat (length (detections res))
                     /\ inferenceTimeMs res = elapsedBlob
     | Js.Throw msg => r = Js.Throw msg
     end.
Proof.
  intros Hmode Hf. cbv zeta.
  assert (Hr : detectInFrame toGrayscale toPng currentMode frame
                 background polygon options reply elapsed elapsedBlob
               = detectBlob toGrayscale toPng frame None polygon
                   fallback_options elapsedBlob).
  { destruct currentMode; [done| |]; simpl;
      by apply detectHailo_failed. }
  rewrite Hr. split; [done|].
  pose proof (detectBlob_outcome frame None polygon fallback_options
                elapsedBlob) as Hout.
  destruct (toGrayscale frame) as [g|msg] eqn:Hg.
  - destruct (detectBlob _ _ _ _ _ _ _) as [res|msg'].
    + by exists res.
    + destruct Hout as [Hout|(bg & Hbg & _)]; done.
  - unfold detectBlob, ImageProcessor.analyzeFrame. by rewrite Hg.
Qed.

(** The blob analysis that the fallback runs: [analyzeFrame] without a
    background and with the area bounds 500 and 50000. *)
Definition fallback_analysis (frame : list Z)
    (polygon : list ImageProcessor.Point)
  : Js.Result ImageProcessor.AnalysisResult :=
  ImageProcessor.analyzeFrame toGrayscale toPng frame None polygon
    {| ImageProcessor.threshold := None;
       ImageProcessor.minBlobArea := Some 500;
       ImageProcessor.maxBlobArea := Some 50000;
       ImageProcessor.morphIterations := None |}.

(** C9.  When the external path falls back, the blob analysis runs with
    [minBlobArea = 500], [maxBlobArea = 50000] and no background, and
    the result does not depend on the options or on the background that
    the caller passed to [detectInFrame]. *)
Theorem fallback_ignores_options
    (currentMode : DetectionMode) (frame : list Z)
    (polygon : list ImageProcessor.Point) (reply : Reply)
    (elapsedBlob : Z)
    (background background' : option (list Z))
    (options options' : Options) (elapsed elapsed' : Z) :
  currentMode <> blob ->
  failed reply = true ->
  let r := detectInFrame toGrayscale toPng currentMode frame background
             polygon options reply elapsed elapsedBlob in
  r = detectInFrame toGrayscale toPng currentMode frame background'
        polygon options' reply elapsed' elapsedBlob
  /\ r = (analysis ← fallback_analysis frame polygon;
          Js.Ok {| detections :=
                     map (fun b =>
                            {| class := "object"; confidence := 1%Q;
                               bbox := blob_bbox
                                         (ImageProcessor.boundingBox b) |})
                         (ImageProcessor.blobs analysis);
                   count := ImageProcessor.count analysis;
                   inferenceTimeMs := elapsedBlob;
                   mode := blob |}).
Proof.
  intros Hmode Hf. cbv zeta.
  destruct currentMode; [done| |]; simpl;
    rewrite !detectHailo_failed by done; done.
Qed.

End Fallback.

(** The service answers 503 while the mode is [hailo-yolo]. *)
Definition unavailable : Reply := HttpError 503 "Service Unavailable".

Definition zone_options : Options :=
  {| minBlobArea := Some 1; maxBlobArea := Some 4;
     confidenceThreshold := Some (1 # 2)%Q;
     classes := Some ["car"; "truck"]%string |}.

Lemma detectInFrame_fallback_witness :
  exists res,
    detectInFrame RawCodec.toGrayscale RawCodec.toPng hailo_yolo
      RawCodec.dot None RawCodec.square zone_options unavailable 7 3
    = Js.Ok res
    /\ mode res = blob.
Proof.
  destruct (detectInFrame_fallback RawCodec.toGrayscale RawCodec.toPng
              hailo_yolo RawCodec.dot None RawCodec.square zone_options
              unavailable 7 3) as (_ & res & Hres & Hmode & _).
  - discriminate.
  - reflexivity.
  - exists res. split; [exact Hres | exact Hmode].
Defined.

(** C5, as the specification words it, fails for a frame that does not
    decode.  The service answers 503 and the frame is an empty buffer:
    the fallback runs, its decoder rejects the frame, and that exception
    is what [detectInFrame] gives its caller, where the claim promises
    detections and no exception for every frame. *)
Lemma detectInFrame_undecodable :
  failed unavailable = true
  /\ RawCodec.toGrayscale []
     = Js.Throw "Input buffer contains unsupported image format"
  /\ detectInFrame RawCodec.toGrayscale RawCodec.toPng hailo_yolo
       [] None RawCodec.square zone_options unavailable 7 3
     = Js.Throw "Input buffer contains unsupported image format".
Proof. repeat split. Qed.

(** A payload whose list of detections holds a [null]: the [try] block
    throws while it normalises the list, and the fallback runs. *)
Example null_detection_falls_back :
  let reply :=
    Json {| p_detections := Some (Array [None]); p_objects := None;
            inferenceMs := Some 12; error := None |} in
  failed reply = true
  /\ exists res,
       detectInFrame RawCodec.toGrayscale RawCodec.toPng hailo_ssd
         RawCodec.dot None RawCodec.square zone_options reply 7 3
       = Js.Ok res
       /\ mode res = blob.
Proof. split; [reflexivity|]. eexists. split; reflexivity. Qed.

Lemma fallback_ignores_options_witness :
  detectInFrame RawCodec.toGrayscale RawCodec.toPng hailo_ssd
    RawCodec.dot (Some RawCodec.dot) RawCodec.square zone_options
    unavailable 7 3
  = detectInFrame RawCodec.toGrayscale RawCodec.toPng hailo_ssd
      RawCodec.dot None RawCodec.square fallback_options unavailable 9 3.
Proof.
  destruct (fallback_ignores_options RawCodec.toGrayscale RawCodec.toPng
              hailo_ssd RawCodec.dot RawCodec.square unavailable 3
              (Some RawCodec.dot) None zone_options fallback_options 7 9)
    as [H _].
  - discriminate.
  - reflexivity.
  - exact H.
Defined.

End DetectionModesFacts.

(** ** The running-mean background *)

Module BackgroundFacts.
Import ImageProcessor.

Definition bytes (l : list Z) : Prop := Forall (fun b => 0 <= b < 256) l.

Lemma byte_cases (P : Z -> bool) :
  forallb P (seqZ 0 256) = true -> forall b, 0 <= b < 256 -> P b = true.
Proof.
  intros H b Hb. rewrite forallb_forall in H. apply H.
  apply list_elem_of_In, elem_of_seqZ. lia.
Qed.

(** With the default weight, an identical frame leaves every byte as it
    is: the binary64 evaluation of [0.9 * b + 0.1 * b] rounds to [b]. *)
Lemma running_average_fixed (b : Z) :
  0 <= b < 256 -> running_average default_alpha (Some b) (Some b) = b.
Proof.
  intros Hb.
  apply Z.eqb_eq.
  apply (byte_cases
           (fun b => running_average default_alpha (Some b) (Some b) =? b));
    [|exact Hb].
  vm_compute. reflexivity.
Qed.

(** With the default weight, the binary64 evaluation agrees on all bytes
    with the exact [round ((9 * bg + cur) / 10)]. *)
Lemma running_average_exact (bg cur : Z) :
  0 <= bg < 256 -> 0 <= cur < 256 ->
  running_average default_alpha (Some bg) (Some cur)
  = Js.round_div (9 * bg + cur) 10.
Proof.
  intros Hbg Hcur. apply Z.eqb_eq.
  apply (byte_cases
           (fun cur => running_average default_alpha (Some bg) (Some cur)
                       =? Js.round_div (9 * bg + cur) 10)); [|exact Hcur].
  apply (byte_cases
           (fun bg =>
              forallb
                (fun cur =>
                   running_average default_alpha (Some bg) (Some cur)
                   =? Js.round_div (9 * bg + cur) 10) (seqZ 0 256)));
    [|exact Hbg].
  vm_compute. reflexivity.
Qed.

(** The weight [k / 256], which is a double. *)
Definition dyadic_alpha (k : Z) : float :=
  PrimFloat.div (PrimFloat.of_uint63 (Uint63.of_Z k)) 256%float.

(** For the weights [k / 256] between 0 and 1 no operation of the blend
    rounds, and an identical frame leaves every byte as it is. *)
Lemma running_average_fixed_dyadic (k b : Z) :
  0 <= k < 256 -> 0 <= b < 256 ->
  running_average (dyadic_alpha k) (Some b) (Some b) = b.
Proof.
  intros Hk Hb. apply Z.eqb_eq.
  apply (byte_cases
           (fun b => running_average (dyadic_alpha k) (Some b) (Some b)
                     =? b)); [|exact Hb].
  apply (byte_cases
           (fun k =>
              forallb
                (fun b => running_average (dyadic_alpha k) (Some b) (Some b)
                          =? b) (seqZ 0 256))); [|exact Hk].
  vm_compute. reflexivity.
Qed.

Lemma imap_fixed (l : list Z) (f : nat -> Z -> Z) :
  (forall i c, l !! i = Some c -> f i c = c) -> imap f l = l.
Proof.
  intros H. apply list_eq. intros i. rewrite list_lookup_imap.
  destruct (l !! i) as [c|] eqn:Hl; simpl; [|done]. by rewrite (H i c).
Qed.

End BackgroundFacts.

(** ** Rounding in binary64

    The operations of [SpecFloat], which specify the primitive doubles,
    on numbers that are not negative: what a right shift does to a
    mantissa, and how far [binary_round_aux] moves a value. *)

Module RoundingFacts.
Import SpecFloat.

(** *** Shifts and digits *)

Lemma shr_1_m (mrs : shr_record) :
  0 <= shr_m mrs ->
  shr_m (shr_1 mrs) = shr_m mrs / 2 /\ 0 <= shr_m (shr_1 mrs).
Proof.
  destruct mrs as [m r s]. cbn [shr_m]. intros Hm.
  rewrite <- Z.div2_div.
  destruct m as [|[p|p|]|p]; cbn; try lia.
Qed.

Lemma iter_shr_1_m (p : positive) : forall mrs : shr_record,
  0 <= shr_m mrs ->
  shr_m (iter_pos shr_1 p mrs) = shr_m mrs / 2 ^ Z.pos p
  /\ 0 <= shr_m (iter_pos shr_1 p mrs).
Proof.
  induction p as [p IH|p IH|]; intros mrs Hm; cbn [iter_pos].
  - destruct (shr_1_m mrs Hm) as [H1 H1'].
    destruct (IH _ H1') as [H2 H2'].
    destruct (IH _ H2') as [H3 H3'].
    split; [|done]. rewrite H3, H2, H1.
    assert (0 < 2 ^ Z.pos p) by (apply Z.pow_pos_nonneg; lia).
    rewrite !Z.div_div by lia.
    f_equal. replace (Z.pos p~1) with (1 + Z.pos p + Z.pos p) by lia.
    rewrite !Z.pow_add_r by lia. lia.
  - destruct (IH _ Hm) as [H2 H2'].
    destruct (IH _ H2') as [H3 H3'].
    split; [|done]. rewrite H3, H2.
    assert (0 < 2 ^ Z.pos p) by (apply Z.pow_pos_nonneg; lia).
    rewrite !Z.div_div by lia.
    f_equal. replace (Z.pos p~0) with (Z.pos p + Z.pos p) by lia.
    rewrite !Z.pow_add_r by lia. lia.
  - destruct (shr_1_m mrs Hm) as [H1 H1']. split; [|done].
    by rewrite H1, Z.pow_1_r.
Qed.

Lemma digits2_pos_bounds (p : positive) :
  2 ^ (Z.pos (digits2_pos p) - 1) <= Z.pos p < 2 ^ Z.pos (digits2_pos p).
Proof.
  induction p as [p IH|p IH|]; cbn [digits2_pos].
  - rewrite Pos2Z.inj_succ.
    replace (Z.succ (Z.pos (digits2_pos p)) - 1)
      with (Z.succ (Z.pos (digits2_pos p) - 1)) by lia.
    rewrite !Z.pow_succ_r by lia. lia.
  - rewrite Pos2Z.inj_succ.
    replace (Z.succ (Z.pos (digits2_pos p)) - 1)
      with (Z.succ (Z.pos (digits2_pos p) - 1)) by lia.
    rewrite !Z.pow_succ_r by lia. lia.
  - cbn. lia.
Qed.

Lemma Zdigits2_nonneg (m : Z) : 0 <= Zdigits2 m.
Proof. destruct m; cbn; lia. Qed.

(** A positive number below [2 ^ n] has at most [n] digits. *)
Lemma Zdigits2_le (m n : Z) :
  0 <= m -> 0 <= n -> m < 2 ^ n -> Zdigits2 m <= n.
Proof.
  intros Hm Hn Hlt. destruct m as [|p|p]; cbn; [lia| |lia].
  pose proof (digits2_pos_bounds p) as [Hlo _].
  destruct (Z.le_gt_cases (Z.pos (digits2_pos p)) n) as [|Hgt]; [done|].
  exfalso.
  assert (2 ^ n <= 2 ^ (Z.pos (digits2_pos p) - 1))
    by (apply Z.pow_le_mono_r; lia).
  lia.
Qed.

Lemma iter_xO (d m : positive) :
  Z.pos (Pos.iter xO m d) = Z.pos m * 2 ^ Z.pos d.
Proof.
  induction d as [|d IH] using Pos.peano_ind.
  - cbn. lia.
  - rewrite Pos.iter_succ, Pos2Z.inj_succ.
    rewrite Z.pow_succ_r by lia.
    change (Z.pos (Pos.iter xO m d)~0) with (2 * Z.pos (Pos.iter xO m d)).
    rewrite IH. lia.
Qed.

End RoundingFacts.

(** ** The blend for a weight between 0 and 1

    Values are scaled by [2 ^ K] to stay in the integers; [K] is any
    number above the smallest exponent that occurs. *)

Module WeightFacts.
Import SpecFloat RoundingFacts.

Section Scaled.
Variable K : Z.
Hypothesis HK : 1200 <= K.

(** [2 ^ e], scaled by [2 ^ K] so that it is an integer. *)
Definition pw (e : Z) : Z := 2 ^ (e + K).

Lemma pw_pos (e : Z) : - K <= e -> 0 < pw e.
Proof. intros He. apply Z.pow_pos_nonneg; lia. Qed.

Lemma pw_add (e d : Z) : - K <= e -> 0 <= d -> pw (e + d) = 2 ^ d * pw e.
Proof.
  intros He Hd. unfold pw.
  replace (e + d + K) with (d + (e + K)) by lia.
  apply Z.pow_add_r; lia.
Qed.

Lemma pw_le (e e' : Z) : - K <= e -> e <= e' -> pw e <= pw e'.
Proof. intros He Hle. apply Z.pow_le_mono_r; lia. Qed.

Lemma pw_lt_inv (e e' : Z) : - K <= e' -> pw e < pw e' -> e < e'.
Proof.
  intros He Hlt. unfold pw in Hlt.
  apply Z.pow_lt_mono_r_iff in Hlt; lia.
Qed.

(** The float [f] is zero or positive, with the scaled value [v] and an
    exponent of at least [lo]. *)
Definition repr (lo : Z) (f : spec_float) (v : Z) : Prop :=
  match f with
  | S754_zero _ => v = 0
  | S754_finite false m e => lo <= e /\ v = Z.pos m * pw e
  | _ => False
  end.

Lemma repr_weaken lo lo' f v : lo' <= lo -> repr lo f v -> repr lo' f v.
Proof.
  intros Hlo. destruct f as [s|s| |[|] m e]; cbn; try done.
  intros [He Hv]. split; [lia|done].
Qed.

Lemma repr_nonneg lo f v : - K <= lo -> repr lo f v -> 0 <= v.
Proof.
  intros Hlo. destruct f as [s|s| |[|] m e]; cbn; try done; [lia|].
  intros [He ->]. pose proof (pw_pos e). nia.
Qed.

Lemma fexp_eq (x : Z) : fexp prec emax x = Z.max (x - 53) (-1074).
Proof. reflexivity. Qed.

(** The exponent that a positive number of scaled value below
    [2 ^ 9] is rounded at. *)
Lemma fexp_small (M : positive) (E : Z) :
  - K <= E -> Z.pos M * pw E < pw 9 ->
  Z.pos (digits2_pos M) + E <= 9.
Proof.
  intros HE Hlt.
  pose proof (digits2_pos_bounds M) as [Hlo _].
  set (d := Z.pos (digits2_pos M)) in *.
  assert (pw (E + (d - 1)) < pw 9) as H.
  { rewrite pw_add by lia. pose proof (pw_pos E HE). nia. }
  apply pw_lt_inv in H; lia.
Qed.

(** Rounding to nearest moves the mantissa by at most one. *)
Lemma round_nearest_even_near (m : Z) (l : location) :
  m <= round_nearest_even m l <= m + 1.
Proof.
  destruct l as [|[| |]]; cbn; try lia. destruct (Z.even m); lia.
Qed.

(** [binary_round_aux] on a positive number of scaled value below
    [2 ^ 9]: the result is zero or positive and within [2 ^ -43] of the
    number. *)
Lemma binary_round_aux_near (M : positive) (E : Z) :
  -1140 <= E -> Z.pos M * pw E < pw 9 ->
  exists v,
    repr (Z.min E (-1074))
         (binary_round_aux prec emax false (Z.pos M) E loc_Exact) v
    /\ Z.abs (v - Z.pos M * pw E) <= 2 * pw (-44).
Proof.
  intros HE Hlt.
  pose proof (fexp_small M E ltac:(lia) Hlt) as Hd.
  pose proof (digits2_pos_bounds M) as [HMlo HMhi].
  assert (0 < pw E) as HpE by (apply pw_pos; lia).
  assert (E < 9) as HE9.
  { assert (pw E < pw 9) by nia. eapply pw_lt_inv; [|done]. lia. }
  unfold binary_round_aux, shr_fexp.
  cbn [Zdigits2]. rewrite fexp_eq.
  set (d := Z.pos (digits2_pos M)) in *.
  set (F := Z.max (d + E - 53) (-1074)).
  destruct (F - E) as [|k|k] eqn:Hk; cbn [shr shr_record_of_loc].
  - (* no shift *)
    cbn [shr_m loc_of_shr_record round_nearest_even Zdigits2].
    rewrite fexp_eq. fold d. fold F. rewrite Hk. cbn [shr shr_m].
    assert ((E <=? emax - prec) = true) as ->
      by (apply Z.leb_le; unfold emax, prec; lia).
    exists (Z.pos M * pw E). split.
    + cbn. split; [lia|done].
    + rewrite Z.sub_diag. cbn. pose proof (pw_pos (-44)). lia.
  - (* a shift to the right by [k] *)
    destruct (iter_shr_1_m k {| shr_m := Z.pos M; shr_r := false;
                                shr_s := false |}) as [Hm' Hm'0];
      [cbn; lia|]. cbn [shr_m] in Hm'.
    set (mrs' := iter_pos shr_1 k _) in *.
    pose proof (round_nearest_even_near (shr_m mrs')
                  (loc_of_shr_record mrs')) as Hm1.
    set (m1 := round_nearest_even _ _) in *.
    set (m' := shr_m mrs') in *.
    assert (0 < 2 ^ Z.pos k) as Hpk by (apply Z.pow_pos_nonneg; lia).
    assert (2 ^ Z.pos k * m' <= Z.pos M < 2 ^ Z.pos k * (m' + 1)) as Hdiv.
    { rewrite Hm'. split.
      - apply Z.mul_div_le. lia.
      - replace (Z.pos M `div` 2 ^ Z.pos k + 1)
          with (Z.succ (Z.pos M `div` 2 ^ Z.pos k)) by lia.
        apply Z.mul_succ_div_gt. lia. }
    replace (E + Z.pos k) with F by lia.
    assert (-1074 <= F <= -44) as HF by lia.
    assert (pw F = 2 ^ Z.pos k * pw E) as HpF.
    { replace F with (E + Z.pos k) by lia. apply pw_add; lia. }
    assert (0 < pw F) as HpF0 by (apply pw_pos; lia).
    assert (pw F <= pw (-44)) as HpF44 by (apply pw_le; lia).
    assert (Z.abs (m1 * pw F - Z.pos M * pw E) <= pw F) as Herr1.
    { rewrite HpF. nia. }
    assert (fexp prec emax (Zdigits2 m1 + F) - F <= 1) as Hk2.
    { rewrite fexp_eq.
      destruct (Z.eq_dec m1 0) as [->|Hm1pos]; [cbn; lia|].
      destruct (Z.le_gt_cases (Z.pos k) d) as [Hkd|Hkd].
      - assert (Zdigits2 m1 <= d - Z.pos k + 1); [|lia].
        apply Zdigits2_le; [lia|lia|].
        assert (m' < 2 ^ (d - Z.pos k)).
        { rewrite Hm'. apply Z.div_lt_upper_bound; [lia|].
          rewrite <- Z.pow_add_r by lia.
          replace (Z.pos k + (d - Z.pos k)) with d by lia. done. }
        rewrite Z.pow_add_r, Z.pow_1_r by lia. lia.
      - assert (Zdigits2 m1 <= 1); [|lia].
        apply Zdigits2_le; [lia|lia|].
        assert (m' = 0).
        { rewrite Hm'. apply Z.div_small. split; [lia|].
          assert (2 ^ d <= 2 ^ Z.pos k)
            by (apply Z.pow_le_mono_r; lia).
          lia. }
        rewrite Z.pow_1_r. lia. }
    destruct (fexp prec emax (Zdigits2 m1 + F) - F) as [|k2|k2] eqn:Hk2e;
      cbn [shr shr_m].
    + (* the rounded mantissa fits *)
      destruct m1 as [|q|q] eqn:Hq; [| |lia].
      * exists 0. split; [done|].
        replace (0 - Z.pos M * pw E) with (0 * pw F - Z.pos M * pw E)
          by lia.
        lia.
      * assert ((F <=? emax - prec) = true) as ->
          by (apply Z.leb_le; unfold emax, prec; lia).
        exists (Z.pos q * pw F). split; [|lia].
        cbn. split; [lia|done].
    + (* the rounded mantissa has one digit too many *)
      assert (k2 = 1%positive) as -> by lia.
      cbn [iter_pos].
      destruct (shr_1_m {| shr_m := m1; shr_r := false; shr_s := false |})
        as [Hm2 Hm20]; [cbn; lia|]. cbn [shr_m] in Hm2.
      set (m2 := shr_m (shr_1 _)) in *.
      assert (2 * m2 <= m1 < 2 * (m2 + 1)) as Hdiv2.
      { rewrite Hm2. split.
        - apply Z.mul_div_le. lia.
        - replace (m1 `div` 2 + 1) with (Z.succ (m1 `div` 2)) by lia.
          apply Z.mul_succ_div_gt. lia. }
      assert (pw (F + 1) = 2 * pw F) as HpF1.
      { rewrite pw_add by lia. by rewrite Z.pow_1_r. }
      destruct m2 as [|q|q] eqn:Hq; [| |lia].
      * exists 0. split; [done|]. nia.
      * assert ((F + 1 <=? emax - prec) = true) as ->
          by (apply Z.leb_le; unfold emax, prec; lia).
        exists (Z.pos q * pw (F + 1)). split.
        -- cbn. split; [lia|done].
        -- rewrite HpF1. nia.
    + (* the rounded mantissa fits *)
      destruct m1 as [|q|q] eqn:Hq; [| |lia].
      * exists 0. split; [done|].
        replace (0 - Z.pos M * pw E) with (0 * pw F - Z.pos M * pw E)
          by lia.
        lia.
      * assert ((F <=? emax - prec) = true) as ->
          by (apply Z.leb_le; unfold emax, prec; lia).
        exists (Z.pos q * pw F). split; [|lia].
        cbn. split; [lia|done].
  - (* no shift *)
    cbn [shr_m loc_of_shr_record round_nearest_even Zdigits2].
    rewrite fexp_eq. fold d. fold F. rewrite Hk. cbn [shr shr_m].
    assert ((E <=? emax - prec) = true) as ->
      by (apply Z.leb_le; unfold emax, prec; lia).
    exists (Z.pos M * pw E). split.
    + cbn. split; [lia|done].
    + rewrite Z.sub_diag. cbn. pose proof (pw_pos (-44)). lia.
Qed.

(** [binary_normalize] on a number that is not negative. *)
Lemma binary_normalize_near (m E : Z) :
  0 <= m -> -1140 <= E -> m * pw E < pw 9 ->
  exists v,
    repr (Z.min E (-1074)) (binary_normalize prec emax m E false) v
    /\ Z.abs (v - m * pw E) <= 2 * pw (-44).
Proof.
  intros Hm HE Hlt. destruct m as [|p|p]; [| |lia].
  - exists 0. split; [done|]. pose proof (pw_pos (-44)). lia.
  - cbn [binary_normalize]. unfold binary_round, shl_align.
    rewrite fexp_eq.
    set (F := Z.max (Z.pos (digits2_pos p) + E - 53) (-1074)).
    destruct (F - E) as [|dd|dd] eqn:Hdd.
    + destruct (binary_round_aux_near p E HE Hlt) as (v & Hv & Herr).
      by exists v.
    + destruct (binary_round_aux_near p E HE Hlt) as (v & Hv & Herr).
      by exists v.
    + assert (Z.pos (Pos.iter xO p dd) * pw F = Z.pos p * pw E) as Hval.
      { rewrite iter_xO. replace E with (F + Z.pos dd) by lia.
        rewrite pw_add by lia. lia. }
      destruct (binary_round_aux_near (Pos.iter xO p dd) F)
        as (v & Hv & Herr); [lia|by rewrite Hval|].
      exists v. split; [|by rewrite <- Hval].
      eapply repr_weaken; [|exact Hv]. lia.
Qed.

(** Aligning a mantissa to a smaller exponent keeps the value. *)
Lemma shl_align_value (m : positive) (e ez : Z) :
  - K <= ez -> ez <= e ->
  Z.pos (shl_align m e ez).1 * pw ez = Z.pos m * pw e.
Proof.
  intros Hez Hle. unfold shl_align.
  destruct (ez - e) as [|dd|dd] eqn:Hdd; cbn [fst]; [|lia|].
  - by replace ez with e by lia.
  - rewrite iter_xO. replace e with (ez + Z.pos dd) by lia.
    rewrite pw_add by lia. lia.
Qed.

(** The sum of two floats that are zero or positive. *)
Lemma SFadd_near (X Y : spec_float) (x y : Z) :
  repr (-1126) X x -> repr (-1126) Y y -> x + y < pw 9 ->
  exists v,
    repr (-1126) (SF64add X Y) v
    /\ Z.abs (v - (x + y)) <= 2 * pw (-44).
Proof.
  intros HX HY Hlt. pose proof (pw_pos (-44) ltac:(lia)) as H44.
  destruct X as [sx|sx| |[|] mx ex]; try done;
    destruct Y as [sy|sy| |[|] my ey]; try done; cbn in HX, HY.
  - subst. exists 0. split; [|lia]. by destruct sx, sy.
  - destruct HY as [Hey ->]. subst x. eexists. split; [by split|]. lia.
  - destruct HX as [Hex ->]. subst y. eexists. split; [by split|]. lia.
  - destruct HX as [Hex ->], HY as [Hey ->].
    unfold SF64add, SFadd. cbv zeta. cbn [cond_Zopp].
    set (ez := Z.min ex ey).
    pose proof (shl_align_value mx ex ez ltac:(lia) ltac:(lia)) as Hx.
    pose proof (shl_align_value my ey ez ltac:(lia) ltac:(lia)) as Hy.
    destruct (binary_normalize_near
                (Z.pos (shl_align mx ex ez).1 + Z.pos (shl_align my ey ez).1)
                ez) as (v & Hv & Herr); [lia|lia|nia|].
    exists v. split.
    + eapply repr_weaken; [|exact Hv]. lia.
    + rewrite <- Hx, <- Hy.
      replace (Z.pos (shl_align mx ex ez).1 * pw ez
               + Z.pos (shl_align my ey ez).1 * pw ez)
        with ((Z.pos (shl_align mx ex ez).1
               + Z.pos (shl_align my ey ez).1) * pw ez) by lia.
      exact Herr.
Qed.

(** The double 1. *)
Lemma Prim2SF_one : Prim2SF 1%float = S754_finite false 4503599627370496 (-52).
Proof. reflexivity. Qed.

Lemma pw_0_52 : pw 0 = 4503599627370496 * pw (-52).
Proof.
  replace 0 with (-52 + 52) at 1 by lia. rewrite pw_add by lia. done.
Qed.

(** [1 - A] for a float [A] between 0 and 1. *)
Lemma SFsub_one_near (A : spec_float) (a : Z) :
  repr (-1074) A a -> a <= pw 0 ->
  exists v,
    repr (-1074) (SF64sub (Prim2SF 1%float) A) v
    /\ Z.abs (v - (pw 0 - a)) <= 2 * pw (-44).
Proof.
  intros HA Ha. pose proof (pw_pos (-44) ltac:(lia)) as H44.
  rewrite Prim2SF_one.
  destruct A as [sa|sa| |[|] ma ea]; try done; cbn in HA.
  - subst a. exists (pw 0). split; [|lia].
    cbn. split; [lia|]. apply pw_0_52.
  - destruct HA as [Hea ->].
    unfold SF64sub, SFsub. cbv zeta. cbn [cond_Zopp].
    set (ez := Z.min (-52) ea).
    pose proof (shl_align_value 4503599627370496 (-52) ez
                  ltac:(lia) ltac:(lia)) as H1.
    pose proof (shl_align_value ma ea ez ltac:(lia) ltac:(lia)) as Hy.
    rewrite <- pw_0_52 in H1.
    assert (0 < pw ez) as Hpz by (apply pw_pos; lia).
    assert (pw 0 < pw 9) as H09.
    { replace 9 with (0 + 9) by lia. rewrite pw_add by lia.
      pose proof (pw_pos 0). lia. }
    destruct (binary_normalize_near
                (Z.pos (shl_align 4503599627370496 (-52) ez).1
                 - Z.pos (shl_align ma ea ez).1)
                ez) as (v & Hv & Herr); [nia|lia|nia|].
    exists v. split.
    + eapply repr_weaken; [|exact Hv]. lia.
    + rewrite <- H1, <- Hy.
      replace (Z.pos (shl_align 4503599627370496 (-52) ez).1 * pw ez
               - Z.pos (shl_align ma ea ez).1 * pw ez)
        with ((Z.pos (shl_align 4503599627370496 (-52) ez).1
               - Z.pos (shl_align ma ea ez).1) * pw ez) by lia.
      exact Herr.
Qed.

(** *** Bytes as doubles *)

(** The double that a byte becomes. *)
Definition byte_float (b : Z) : spec_float :=
  Prim2SF (ImageProcessor.to_number (Some b)).

Definition byte_float_ok (b : Z) : bool :=
  match byte_float b with
  | S754_zero false => b =? 0
  | S754_finite false m e =>
      (-52 <=? e) && (e <=? 0) && (Z.pos m =? b * 2 ^ (- e))
  | _ => false
  end.

Lemma byte_float_spec (b : Z) :
  0 <= b < 256 ->
  match byte_float b with
  | S754_zero false => b = 0
  | S754_finite false m e =>
      -52 <= e <= 0 /\ Z.pos m = b * 2 ^ (- e)
  | _ => False
  end.
Proof.
  intros Hb.
  pose proof (BackgroundFacts.byte_cases byte_float_ok
                ltac:(vm_compute; reflexivity) b Hb) as H.
  unfold byte_float_ok in H.
  destruct (byte_float b) as [[|]|s| |[|] m e]; try done.
  - by apply Z.eqb_eq.
  - apply andb_true_iff in H as [[H1 H2]%andb_true_iff H3]. lia.
Qed.

(** The product of a float that is zero or positive, at most 2, with a
    byte. *)
Lemma SFmul_byte_near (X : spec_float) (x b : Z) :
  repr (-1074) X x -> x <= 2 * pw 0 -> 0 <= b < 256 ->
  exists v,
    repr (-1126) (SF64mul X (byte_float b)) v
    /\ Z.abs (v - x * b) <= 2 * pw (-44).
Proof.
  intros HX Hx Hb. pose proof (pw_pos (-44) ltac:(lia)) as H44.
  pose proof (byte_float_spec b Hb) as HB.
  destruct (byte_float b) as [[|]|sb| |[|] mb eb]; try done.
  - subst b.
    destruct X as [sx|sx| |[|] mx ex]; try done; cbn in HX |- *.
    + exists 0. split; [done|]. lia.
    + exists 0. split; [done|]. lia.
  - destruct HB as [Heb Hmb].
    destruct X as [sx|sx| |[|] mx ex]; try done; cbn in HX.
    + subst x. exists 0. split; [done|]. cbn. lia.
    + destruct HX as [Hex ->].
      unfold SF64mul, SFmul. cbn [xorb].
      assert (0 < pw 0) as Hp0 by (apply pw_pos; lia).
      assert (pw 9 = 512 * pw 0) as Hp9.
      { replace 9 with (0 + 9) by lia. rewrite pw_add by lia. done. }
      assert (0 < 2 ^ (- eb)) as Hpeb by (apply Z.pow_pos_nonneg; lia).
      assert (pw ex = 2 ^ (- eb) * pw (ex + eb)) as Hpex.
      { replace ex with (ex + eb + - eb) at 1 by lia.
        apply pw_add; lia. }
      assert (Z.pos (mx * mb) * pw (ex + eb) = Z.pos mx * pw ex * b) as Hval.
      { rewrite Pos2Z.inj_mul, Hmb, Hpex. lia. }
      destruct (binary_round_aux_near (mx * mb) (ex + eb))
        as (v & Hv & Herr); [lia|rewrite Hval; nia|].
      exists v. split; [|by rewrite <- Hval].
      eapply repr_weaken; [|exact Hv]. lia.
Qed.

(** *** Weights *)

(** A canonical mantissa at an exponent that makes it at most 1. *)
Lemma weight_finite (m : positive) (e : Z) :
  bounded prec emax m e = true ->
  e < -52 \/ (e = -52 /\ Z.pos m <= 4503599627370496) ->
  -1074 <= e /\ Z.pos m * pw e <= pw 0.
Proof.
  intros Hvalid Hcmp. unfold bounded, canonical_mantissa in Hvalid.
  apply andb_true_iff in Hvalid as [Hcan Hbound].
  apply Z.eqb_eq in Hcan. rewrite fexp_eq in Hcan.
  pose proof (digits2_pos_bounds m) as [_ Hm].
  assert (2 ^ Z.pos (digits2_pos m) <= 2 ^ 53) as Hd
    by (apply Z.pow_le_mono_r; lia).
  change (2 ^ 53) with 9007199254740992 in Hd.
  assert (0 < pw e) as Hpe by (apply pw_pos; lia).
  split; [lia|].
  destruct Hcmp as [Hlt|[-> Hle]].
  - assert (pw e <= pw (-53)) as Hle by (apply pw_le; lia).
    assert (pw 0 = 9007199254740992 * pw (-53)) as ->.
    { replace 0 with (-53 + 53) at 1 by lia. apply pw_add; lia. }
    pose proof (pw_pos (-53) ltac:(lia)) as Hp53. nia.
  - rewrite pw_0_52. nia.
Qed.

Lemma Prim2SF_zero : Prim2SF 0%float = S754_zero false.
Proof. reflexivity. Qed.

Lemma SFleb_finite (m p : positive) (e q : Z) :
  SFleb (S754_finite false m e) (S754_finite false p q)
  = match Z.compare e q with
    | Lt => true
    | Gt => false
    | Eq => match Pos.compare m p with Gt => false | _ => true end
    end.
Proof.
  unfold SFleb, SFcompare, Pos.compare.
  destruct (e ?= q); [|reflexivity|reflexivity].
  destruct (Pos.compare_cont Eq m p); reflexivity.
Qed.

Lemma SFleb_one (m : positive) (e : Z) :
  SFleb (S754_finite false m e) (S754_finite false 4503599627370496 (-52))
  = true ->
  e < -52 \/ (e = -52 /\ Z.pos m <= 4503599627370496).
Proof.
  rewrite SFleb_finite.
  destruct (Z.compare_spec e (-52)) as [Heq|Hlt|Hgt].
  - intros Hcmp. right. split; [exact Heq|].
    apply Pos2Z.pos_le_pos. intros Hgt.
    rewrite Hgt in Hcmp. discriminate Hcmp.
  - left. exact Hlt.
  - intros H; discriminate H.
Qed.

(** A double between 0 and 1. *)
Lemma weight_repr (alpha : float) :
  (0 <=? alpha)%float = true -> (alpha <=? 1)%float = true ->
  exists a, repr (-1074) (Prim2SF alpha) a /\ a <= pw 0.
Proof.
  rewrite !leb_spec. rewrite Prim2SF_one, Prim2SF_zero.
  pose proof (Prim2SF_valid alpha) as Hvalid.
  assert (0 < pw 0) as Hp0 by (apply pw_pos; lia).
  destruct (Prim2SF alpha) as [s|[|]| |[|] m e].
  - intros _ _. exists 0. split; [reflexivity|lia].
  - intros H. discriminate H.
  - intros _ H. discriminate H.
  - intros H. discriminate H.
  - intros H. discriminate H.
  - intros _ Hcmp%SFleb_one. cbn [valid_binary] in Hvalid.
    exists (Z.pos m * pw e).
    destruct (weight_finite m e Hvalid Hcmp) as [He Ha].
    split; [|exact Ha]. split; [exact He|reflexivity].
Qed.

(** *** Math.round *)

Lemma math_round_near (f : float) (s b lo : Z) :
  - K <= lo -> repr lo (Prim2SF f) s -> 0 <= b ->
  Z.abs (s - b * pw 0) < pw (-1) ->
  ImageProcessor.math_round f = Some b.
Proof.
  intros Hlo Hs Hb Hnear. unfold ImageProcessor.math_round.
  assert (0 < pw (-1)) as Hp1 by (apply pw_pos; lia).
  assert (pw 0 = 2 * pw (-1)) as Hp0.
  { replace 0 with (-1 + 1) at 1 by lia. rewrite pw_add by lia. done. }
  destruct (Prim2SF f) as [sf|sf| |[|] m e]; try done; cbn in Hs.
  - subst s. f_equal. nia.
  - destruct Hs as [He ->]. f_equal.
    destruct (Z.leb_spec 0 e) as [Hpos|Hneg].
    + assert (pw e = 2 ^ e * pw 0) as Hpe.
      { replace e with (0 + e) at 1 by lia. apply pw_add; lia. }
      rewrite Hpe in Hnear.
      assert (0 < 2 ^ e) by (apply Z.pow_pos_nonneg; lia). nia.
    + set (t := 2 ^ (-1 - e)).
      assert (0 < t) as Ht by (apply Z.pow_pos_nonneg; lia).
      assert (2 ^ (- e) = 2 * t) as ->.
      { unfold t. replace (- e) with (1 + (-1 - e)) by lia.
        rewrite Z.pow_add_r by lia. done. }
      assert (pw (-1) = t * pw e) as Hpm.
      { unfold t. replace (-1) with (e + (-1 - e)) at 1 by lia.
        apply pw_add; lia. }
      assert (0 < pw e) as Hpe by (apply pw_pos; lia).
      rewrite Hp0, Hpm in Hnear.
      assert (2 * b * t - t < Z.pos m < 2 * b * t + t) as Hm by nia.
      symmetry. apply Z.div_unique with (2 * Z.pos m + 2 * t - b * (2 * (2 * t))).
      * left. lia.
      * lia.
Qed.

(** *** The blend of a byte with itself *)

Lemma running_average_weight_scaled (alpha : float) (b : Z) :
  (0 <=? alpha)%float = true -> (alpha <=? 1)%float = true ->
  0 <= b < 256 ->
  ImageProcessor.running_average alpha (Some b) (Some b) = b.
Proof.
  intros H0 H1 Hb. unfold ImageProcessor.running_average.
  set (P := pw (-44)).
  assert (0 < P) as HP by (apply pw_pos; lia).
  assert (pw 0 = 17592186044416 * P) as Hp0.
  { unfold P. replace 0 with (-44 + 44) at 1 by lia.
    rewrite pw_add by lia. reflexivity. }
  assert (pw (-1) = 8796093022208 * P) as Hpm1.
  { unfold P. replace (-1) with (-44 + 43) at 1 by lia.
    rewrite pw_add by lia. reflexivity. }
  assert (pw 9 = 9007199254740992 * P) as Hp9.
  { unfold P. replace 9 with (-44 + 53) at 1 by lia.
    rewrite pw_add by lia. reflexivity. }
  destruct (weight_repr alpha H0 H1) as (a & HA & Ha).
  pose proof (repr_nonneg (-1074) _ _ ltac:(lia) HA) as Ha0.
  destruct (SFsub_one_near _ a HA Ha) as (u & HU & Hu).
  rewrite <- sub_spec in HU.
  pose proof (repr_nonneg (-1074) _ _ ltac:(lia) HU) as Hu0.
  fold P in Hu.
  destruct (SFmul_byte_near _ u b HU ltac:(lia) Hb) as (p1 & HP1 & Hp1).
  destruct (SFmul_byte_near _ a b HA ltac:(lia) Hb) as (p2 & HP2 & Hp2).
  unfold byte_float in HP1, HP2. rewrite <- mul_spec in HP1, HP2.
  fold P in Hp1, Hp2.
  pose proof (repr_nonneg (-1126) _ _ ltac:(lia) HP1) as Hp10.
  pose proof (repr_nonneg (-1126) _ _ ltac:(lia) HP2) as Hp20.
  assert (u * b <= 255 * (17592186044416 * P + 2 * P)) as Hub by nia.
  assert (a * b <= 255 * (17592186044416 * P)) as Hab by nia.
  destruct (SFadd_near _ _ p1 p2 HP1 HP2 ltac:(lia)) as (s & HS & Hs).
  rewrite <- add_spec in HS. fold P in Hs.
  assert (Z.abs (b * (u + a - 17592186044416 * P)) <= 510 * P) as Hmix
    by nia.
  rewrite (math_round_near _ s b (-1126)); [| lia | exact HS | lia |].
  - cbn [ImageProcessor.to_uint8]. apply Z.mod_small. lia.
  - rewrite Hp0, Hpm1. lia.
Qed.

End Scaled.

(** For every weight between 0 and 1, the blend of a byte with itself
    is that byte: the three roundings and the rounding of the sum move
    the exact value, the byte, by less than one half. *)
Lemma running_average_weight (alpha : float) (b : Z) :
  (0 <=? alpha)%float = true -> (alpha <=? 1)%float = true ->
  0 <= b < 256 ->
  ImageProcessor.running_average alpha (Some b) (Some b) = b.
Proof. apply (running_average_weight_scaled 1200). lia. Qed.

End WeightFacts.

(** ** The running-mean update *)

Module RunningMeanFacts.
Import ImageProcessor BackgroundFacts.

Section Codec.
Variable toGrayscale : list Z -> Js.Result Gray.
Variable toPng : Gray -> list Z.

(** C7.  With a background, the update is the pixelwise
    [Math.round((1 - alpha) * bg + alpha * cur)], evaluated in binary64
    as the source does; for the default [alpha = 0.1] this is the exact
    [round ((9 * bg + cur) / 10)] on all bytes.  For every weight
    [alpha] between 0 and 1, a frame identical to the background gives
    the background back.  With no background the current frame is
    returned as it is, for every [alpha]. *)
Theorem updateBackground_running_mean
    (currentFrame existing : list Z) (cur bg : Gray) (alpha : float) :
  toGrayscale currentFrame = Js.Ok cur ->
  toGrayscale existing = Js.Ok bg ->
  bytes (data cur) -> bytes (data bg) ->
  length (data bg) = length (data cur) ->
  updateBackground toGrayscale toPng currentFrame (Some existing) alpha
  = Js.Ok (toPng {| data :=
                      zip_with (fun b c =>
                                  running_average alpha (Some b) (Some c))
                               (data bg) (data cur);
                    width := width cur; height := height cur |})
  /\ updateBackground toGrayscale toPng currentFrame (Some existing)
                      default_alpha
     = Js.Ok (toPng {| data :=
                         zip_with (fun b c => Js.round_div (9 * b + c) 10)
                                  (data bg) (data cur);
                       width := width cur; height := height cur |})
  /\ (PrimFloat.leb 0 alpha = true -> PrimFloat.leb alpha 1 = true ->
      data cur = data bg ->
      updateBackground toGrayscale toPng currentFrame (Some existing) alpha
      = Js.Ok (toPng cur))
  /\ updateBackground toGrayscale toPng currentFrame None alpha
     = Js.Ok (toPng cur).
Proof.
  intros Hcur Hbg Bcur Bbg Hlen.
  unfold updateBackground. rewrite Hcur. simpl. rewrite Hbg. simpl.
  assert (forall (a : float) (f : Z -> Z -> Z),
            (forall b c, 0 <= b < 256 -> 0 <= c < 256 ->
                         running_average a (Some b) (Some c) = f b c) ->
            imap (fun i c => running_average a (data bg !! i) (Some c))
                 (data cur)
            = zip_with f (data bg) (data cur)) as Hpix.
  { intros a f Hf. apply list_eq. intros i.
    rewrite list_lookup_imap, lookup_zip_with.
    destruct (data cur !! i) as [c|] eqn:Hc; simpl.
    - destruct (lookup_lt_is_Some_2 (data bg) i) as [b Hb].
      { rewrite Hlen. by eapply lookup_lt_Some. }
      rewrite Hb. simpl. f_equal. apply Hf.
      + eapply Forall_lookup_1 in Bbg; [|exact Hb]. done.
      + eapply Forall_lookup_1 in Bcur; [|exact Hc]. done.
    - by destruct (data bg !! i). }
  split; [|split; [|split; [|done]]].
  - by rewrite (Hpix alpha
                  (fun b c => running_average alpha (Some b) (Some c))).
  - rewrite (Hpix default_alpha (fun b c => Js.round_div (9 * b + c) 10));
      [done|]. intros b c. apply running_average_exact.
  - intros H0 H1 Heq. do 2 f_equal. destruct cur as [d w h]. simpl in *.
    f_equal. subst d. apply imap_fixed.
    intros i c Hc. rewrite Hc.
    apply WeightFacts.running_average_weight; [done|done|].
    eapply Forall_lookup_1 in Bbg; [|exact Hc]. done.
Qed.

End Codec.

(** A weight that is not a multiple of a power of two: three tenths. *)
Definition three_tenths : float := 0x1.3333333333333p-2%float.

Lemma updateBackground_running_mean_witness :
  updateBackground RawCodec.toGrayscale RawCodec.toPng
    [2; 1; 200; 7] (Some [2; 1; 200; 7]) three_tenths
  = Js.Ok [2; 1; 200; 7].
Proof.
  destruct (updateBackground_running_mean
              RawCodec.toGrayscale RawCodec.toPng
              [2; 1; 200; 7] [2; 1; 200; 7]
              {| data := [200; 7]; width := 2; height := 1 |}
              {| data := [200; 7]; width := 2; height := 1 |}
              three_tenths) as (_ & _ & Hfix & _).
  - reflexivity.
  - reflexivity.
  - repeat constructor; lia.
  - repeat constructor; lia.
  - reflexivity.
  - apply Hfix; reflexivity.
Defined.

(** Between two different frames the weights 0 and 1 are the two ends of
    the blend: the background is kept, or replaced by the frame. *)
Example updateBackground_ends :
  updateBackground RawCodec.toGrayscale RawCodec.toPng
    [2; 1; 200; 7] (Some [2; 1; 10; 90]) 0%float
  = Js.Ok [2; 1; 10; 90]
  /\ updateBackground RawCodec.toGrayscale RawCodec.toPng
       [2; 1; 200; 7] (Some [2; 1; 10; 90]) 1%float
     = Js.Ok [2; 1; 200; 7].
Proof. split; vm_compute; reflexivity. Qed.

End RunningMeanFacts.

(** ** Loops over the pixels of a frame *)

Module LoopFacts.
Import ImageProcessor.

(** A binary image: every pixel is 0 or 255. *)
Definition binary (img : list Z) : Prop :=
  Forall (fun v => v = 0 \/ v = 255) img.

(** The pixels [(x, y)] visited by [for y ... for x ...], in order. *)
Definition grid (xs ys : list Z) : list (Z * Z) :=
  y ← ys; x ← xs; [(x, y)].

Lemma foldl_nested {A} (F : A -> Z -> Z -> A) (xs ys : list Z) (a : A) :
  foldl (fun a y => foldl (fun a x => F a x y) a xs) a ys
  = foldl (fun a p => F a p.1 p.2) a (grid xs ys).
Proof.
  unfold grid. revert a. induction ys as [|y ys IH]; intros a; [done|].
  simpl. rewrite foldl_app, <- IH. f_equal.
  generalize a. clear. induction xs as [|x xs IH]; intros a; [done|].
  simpl. by rewrite IH.
Qed.

Lemma elem_of_grid (xs ys : list Z) (x y : Z) :
  (x, y) ∈ grid xs ys <-> x ∈ xs /\ y ∈ ys.
Proof.
  unfold grid. rewrite list_elem_of_bind. split.
  - intros (y' & Hx & Hy). apply list_elem_of_bind in Hx as (x' & Hp & Hx).
    apply list_elem_of_singleton in Hp as [= -> ->]. done.
  - intros [Hx Hy]. exists y. split; [|done].
    apply list_elem_of_bind. exists x. split; [|done].
    by apply list_elem_of_singleton.
Qed.

Lemma length_write (buf : list Z) (i v : Z) :
  length (write buf i v) = length buf.
Proof. unfold write. destruct (i <? 0); [done|]. apply length_insert. Qed.

Lemma lookup_write (buf : list Z) (i v : Z) (j : nat) :
  0 <= i ->
  write buf i v !! j
  = if decide (i = Z.of_nat j) then (fun _ => v) <$> buf !! j else buf !! j.
Proof.
  intros Hi. unfold write. destruct (Z.ltb_spec i 0); [lia|].
  destruct (decide (i = Z.of_nat j)) as [->|Hne].
  - rewrite Nat2Z.id. destruct (decide (j < length buf)%nat) as [Hlt|Hge].
    + rewrite list_lookup_insert_eq by done.
      destruct (lookup_lt_is_Some_2 buf j Hlt) as [b ->]. done.
    + rewrite list_insert_ge by lia. rewrite lookup_ge_None_2 by lia. done.
  - apply list_lookup_insert_ne. lia.
Qed.

(** A loop of stores whose values are determined by the index stored
    to: afterwards an index holds that value if the loop stored to it,
    and what it held before otherwise. *)
Lemma foldl_write_lookup {K} (idx val : K -> Z) (g : Z -> Z)
    (ks : list K) (buf : list Z) (j : nat) :
  (forall k, k ∈ ks -> 0 <= idx k /\ val k = g (idx k)) ->
  foldl (fun b k => write b (idx k) (val k)) buf ks !! j
  = if bool_decide (Z.of_nat j ∈ idx <$> ks)
    then (fun _ => g (Z.of_nat j)) <$> buf !! j
    else buf !! j.
Proof.
  induction ks as [|k ks IH] using rev_ind; intros Hks; [done|].
  rewrite foldl_snoc, fmap_app. simpl.
  destruct (Hks k) as [Hk Hv]; [apply elem_of_app; right; by left|].
  rewrite lookup_write by done. rewrite IH; clear IH.
  2:{ intros k' Hk'. apply Hks, elem_of_app. by left. }
  destruct (decide (idx k = Z.of_nat j)) as [He|Hne].
  - rewrite (bool_decide_eq_true_2 (_ ∈ _ ++ _)).
    2:{ apply elem_of_app. right. rewrite <- He. by left. }
    rewrite Hv, He. case_bool_decide; [|done].
    by destruct (buf !! j).
  - rewrite (bool_decide_ext (Z.of_nat j ∈ (idx <$> ks) ++ [idx k])
                             (Z.of_nat j ∈ idx <$> ks)); [done|].
    rewrite elem_of_app, list_elem_of_singleton.
    split; [intros [?|?]; [done|congruence] | by left].
Qed.

Lemma length_foldl_write {K} (idx val : K -> Z) (ks : list K)
    (buf : list Z) :
  length (foldl (fun b k => write b (idx k) (val k)) buf ks) = length buf.
Proof.
  induction ks as [|k ks IH] using rev_ind; [done|].
  by rewrite foldl_snoc, length_write.
Qed.

(** Row-major indices. *)
Lemma index_split (w x y : Z) :
  0 <= x < w -> (y * w + x) mod w = x /\ (y * w + x) / w = y.
Proof.
  intros Hx. split.
  - rewrite Z.add_comm, Z.mod_add by lia. apply Z.mod_small. lia.
  - rewrite Z.add_comm, Z.div_add by lia. rewrite Z.div_small by lia. lia.
Qed.

Lemma index_join (w i : Z) : 0 < w -> (i / w) * w + i mod w = i.
Proof. intros Hw. pose proof (Z.div_mod i w). lia. Qed.

(** The indices written by loops over the columns [x0 <= x < x0 + nx] and
    the rows [y0 <= y < y0 + ny] of a frame of width [w]. *)
Lemma elem_of_grid_index (w x0 nx y0 ny i : Z) :
  0 <= x0 -> x0 + nx <= w ->
  i ∈ (fun p : Z * Z => p.2 * w + p.1) <$> grid (seqZ x0 nx) (seqZ y0 ny)
  <-> (x0 <= i mod w < x0 + nx) /\ (y0 <= i / w < y0 + ny).
Proof.
  intros Hx0 Hnx. rewrite list_elem_of_fmap. split.
  - intros ([x y] & -> & Hp). apply elem_of_grid in Hp as [Hx Hy].
    apply elem_of_seqZ in Hx. apply elem_of_seqZ in Hy. simpl.
    destruct (index_split w x y) as [-> ->]; lia.
  - intros [Hx Hy]. exists (i mod w, i / w). split.
    + simpl. symmetry. apply index_join. lia.
    + apply elem_of_grid. rewrite !elem_of_seqZ. done.
Qed.

End LoopFacts.

(** ** Morphological cleaning *)

Module MorphologyFacts.
Import ImageProcessor LoopFacts.

(** *** The operations as the specification words them *)

(** The pixel at column [x] of row [y]. *)
Definition pixel (img : list Z) (w x y : Z) : Z :=
  default 0 (read img (y * w + x)).

(** The 3 x 3 square around [(x, y)]. *)
Definition window (img : list Z) (w x y : Z) : list Z :=
  (fun d => pixel img w (x + d.1) (y + d.2)) <$> offsets.

(** The pixels within the 1-pixel border of a [w] x [h] frame. *)
Definition on_border (w h x y : Z) : bool :=
  (x <? 1) || (w - 1 <=? x) || (y <? 1) || (h - 1 <=? y).

(** Following the specification: erosion by the 3 x 3 square is the
    minimum over the window; pixels on the border are set to 0. *)
Definition erode_spec (w h : Z) (img : list Z) : list Z :=
  imap (fun i v =>
          let x := Z.of_nat i mod w in
          let y := Z.of_nat i / w in
          if on_border w h x y then 0
          else foldr Z.min 255 (window img w x y)) img.

(** Following the specification: dilation by the 3 x 3 square is the
    maximum over the window; pixels on the border are left as they
    are. *)
Definition dilate_spec (w h : Z) (img : list Z) : list Z :=
  imap (fun i v =>
          let x := Z.of_nat i mod w in
          let y := Z.of_nat i / w in
          if on_border w h x y then v
          else foldr Z.max 0 (window img w x y)) img.

(** *** The passes of the source, pixel by pixel *)

Definition zero_border (w h : Z) (img : list Z) : Prop :=
  forall i v, img !! i = Some v ->
              on_border w h (Z.of_nat i mod w) (Z.of_nat i / w) = true ->
              v = 0.

(** The two outer loops share their shape. *)
Definition pass (test : list Z -> Z -> Z -> Z -> bool) (width height : Z)
    (result : list Z) : list Z :=
  foldl (fun out y =>
           foldl (fun out x =>
                    write out (y * width + x)
                          (if test result width x y then 255 else 0))
                 out (seqZ 1 (width - 2)))
        (alloc (length result)) (seqZ 1 (height - 2)).

Lemma erode_pass_pass : erode_pass = pass allWhite.
Proof. reflexivity. Qed.

Lemma dilate_pass_pass : dilate_pass = pass anyWhite.
Proof. reflexivity. Qed.

Lemma pass_imap test (w h : Z) (result : list Z) :
  pass test w h result
  = imap (fun i _ =>
            let x := Z.of_nat i mod w in
            let y := Z.of_nat i / w in
            if on_border w h x y then 0
            else if test result w x y then 255 else 0) result.
Proof.
  apply list_eq. intros j. unfold pass.
  rewrite (foldl_nested
             (fun out x y =>
                write out (y * w + x)
                      (if test result w x y then 255 else 0))).
  rewrite (foldl_write_lookup
             (fun p : Z * Z => p.2 * w + p.1)
             (fun p : Z * Z => if test result w p.1 p.2 then 255 else 0)
             (fun i => if test result w (i mod w) (i / w)
                       then 255 else 0)).
  2:{ intros [x y] [Hx Hy]%elem_of_grid.
      apply elem_of_seqZ in Hx. apply elem_of_seqZ in Hy. simpl.
      destruct (index_split w x y) as [-> ->]; [lia|]. split; [nia|done]. }
  rewrite list_lookup_imap. unfold alloc.
  destruct (result !! j) as [v|] eqn:Hv; simpl.
  - rewrite lookup_replicate_2 by (by eapply lookup_lt_Some).
    unfold on_border. case_bool_decide as Hin.
    + apply elem_of_grid_index in Hin; [|lia..].
      destruct (Z.ltb_spec (Z.of_nat j mod w) 1); [lia|].
      destruct (Z.leb_spec (w - 1) (Z.of_nat j mod w)); [lia|].
      destruct (Z.ltb_spec (Z.of_nat j / w) 1); [lia|].
      destruct (Z.leb_spec (h - 1) (Z.of_nat j / w)); [lia|]. done.
    + rewrite elem_of_grid_index in Hin by lia.
      destruct (Z.ltb_spec (Z.of_nat j mod w) 1); [done|].
      destruct (Z.leb_spec (w - 1) (Z.of_nat j mod w)); [done|].
      destruct (Z.ltb_spec (Z.of_nat j / w) 1); [done|].
      destruct (Z.leb_spec (h - 1) (Z.of_nat j / w)); [done|]. lia.
  - rewrite (proj1 (lookup_replicate_None _ _ _));
      [by case_bool_decide|].
    by apply lookup_ge_None.
Qed.

Lemma length_pass test w h result :
  length (pass test w h result) = length result.
Proof. by rewrite pass_imap, length_imap. Qed.

Lemma binary_pass test w h result : binary (pass test w h result).
Proof.
  rewrite pass_imap. apply Forall_forall. intros v Hv.
  apply list_elem_of_lookup in Hv as [i Hi].
  rewrite list_lookup_imap in Hi.
  destruct (result !! i); simpl in Hi; [|done]. injection Hi as <-.
  destruct (on_border _ _ _ _); [by left|].
  destruct (test _ _ _ _); [by right | by left].
Qed.

Lemma zero_border_pass test w h result :
  zero_border w h (pass test w h result).
Proof.
  intros i v Hi Hb. rewrite pass_imap, list_lookup_imap in Hi.
  destruct (result !! i); simpl in Hi; [|done]. injection Hi as <-.
  by rewrite Hb.
Qed.

(** *** The inner loops on a binary frame *)

Section Window.
Variables (w h : Z) (img : list Z).
Hypothesis Hw : 0 <= w.
Hypothesis Hh : 0 <= h.
Hypothesis Hlen : length img = Z.to_nat (w * h).
Hypothesis Hbin : binary img.

Lemma read_window (x y dx dy : Z) :
  on_border w h x y = false ->
  -1 <= dx <= 1 -> -1 <= dy <= 1 ->
  read img ((y + dy) * w + (x + dx)) = Some 0
  \/ read img ((y + dy) * w + (x + dx)) = Some 255.
Proof.
  unfold on_border. intros Hb Hdx Hdy.
  destruct (Z.ltb_spec x 1); [done|].
  destruct (Z.leb_spec (w - 1) x); [done|].
  destruct (Z.ltb_spec y 1); [done|].
  destruct (Z.leb_spec (h - 1) y); [done|].
  unfold read. destruct (Z.ltb_spec ((y + dy) * w + (x + dx)) 0); [nia|].
  destruct (lookup_lt_is_Some_2 img (Z.to_nat ((y + dy) * w + (x + dx))))
    as [v Hv]; [rewrite Hlen; nia|].
  rewrite Hv. eapply Forall_lookup_1 in Hbin; [|exact Hv].
  destruct Hbin as [->| ->]; [by left | by right].
Qed.

Lemma offsets_range (d : Z * Z) :
  d ∈ offsets -> -1 <= d.1 <= 1 /\ -1 <= d.2 <= 1.
Proof.
  unfold offsets. intros Hd.
  repeat (apply elem_of_cons in Hd as [->|Hd]; [simpl; lia|]).
  by apply elem_of_nil in Hd.
Qed.

Lemma allWhite_min (x y : Z) :
  on_border w h x y = false ->
  (if allWhite img w x y then 255 else 0)
  = foldr Z.min 255 (window img w x y).
Proof.
  intros Hb. unfold allWhite, window.
  assert (Hoff : forall d, d ∈ offsets ->
            pixel img w (x + d.1) (y + d.2) = 0
            /\ strict_eq 0 (read img ((y + d.2) * w + (x + d.1))) = true
            \/ pixel img w (x + d.1) (y + d.2) = 255
            /\ strict_eq 0 (read img ((y + d.2) * w + (x + d.1))) = false).
  { intros d [Hd1 Hd2]%offsets_range. unfold pixel.
    destruct (read_window x y d.1 d.2 Hb Hd1 Hd2) as [-> | ->];
      [by left | by right]. }
  induction offsets as [|d ds IH]; [done|].
  rewrite fmap_cons. cbn [foldr forallb].
  rewrite <- IH by (intros; apply Hoff; by right).
  destruct (Hoff d) as [[-> ->]|[-> ->]]; [by left| |]; simpl;
    by destruct (forallb _ _).
Qed.

Lemma anyWhite_max (x y : Z) :
  on_border w h x y = false ->
  (if anyWhite img w x y then 255 else 0)
  = foldr Z.max 0 (window img w x y).
Proof.
  intros Hb. unfold anyWhite, window.
  assert (Hoff : forall d, d ∈ offsets ->
            pixel img w (x + d.1) (y + d.2) = 0
            /\ strict_eq 255 (read img ((y + d.2) * w + (x + d.1))) = false
            \/ pixel img w (x + d.1) (y + d.2) = 255
            /\ strict_eq 255 (read img ((y + d.2) * w + (x + d.1))) = true).
  { intros d [Hd1 Hd2]%offsets_range. unfold pixel.
    destruct (read_window x y d.1 d.2 Hb Hd1 Hd2) as [-> | ->];
      [by left | by right]. }
  induction offsets as [|d ds IH]; [done|].
  rewrite fmap_cons. cbn [foldr existsb].
  rewrite <- IH by (intros; apply Hoff; by right).
  destruct (Hoff d) as [[-> ->]|[-> ->]]; [by left| |]; simpl;
    by destruct (existsb _ _).
Qed.

Lemma erode_pass_spec : erode_pass w h img = erode_spec w h img.
Proof.
  rewrite erode_pass_pass, pass_imap. unfold erode_spec.
  apply imap_ext. intros i v _. cbv beta zeta.
  destruct (on_border w h _ _) eqn:Hb; [done|]. exact (allWhite_min _ _ Hb).
Qed.

Lemma dilate_pass_spec :
  zero_border w h img -> dilate_pass w h img = dilate_spec w h img.
Proof.
  intros Hzero. rewrite dilate_pass_pass, pass_imap. unfold dilate_spec.
  apply imap_ext. intros i v Hv. cbv beta zeta.
  destruct (on_border w h _ _) eqn:Hb.
  - symmetry. by eapply Hzero.
  - exact (anyWhite_max _ _ Hb).
Qed.

End Window.

(** *** The iterated passes *)

Section Iterate.
Variables (w h : Z).
Hypothesis Hw : 0 <= w.
Hypothesis Hh : 0 <= h.

Lemma iter_pass_frame test (n : nat) (img : list Z) :
  length img = Z.to_nat (w * h) -> binary img ->
  length (Nat.iter n (pass test w h) img) = Z.to_nat (w * h)
  /\ binary (Nat.iter n (pass test w h) img).
Proof.
  intros Hlen Hbin. destruct n as [|n]; [done|]. simpl.
  split; [|apply binary_pass].
  rewrite length_pass. induction n as [|n IH]; [done|].
  simpl. by rewrite length_pass.
Qed.

Lemma iter_erode (n : nat) (img : list Z) :
  length img = Z.to_nat (w * h) -> binary img ->
  Nat.iter n (erode_pass w h) img = Nat.iter n (erode_spec w h) img.
Proof.
  intros Hlen Hbin. induction n as [|n IH]; [done|].
  simpl. rewrite <- IH.
  destruct (iter_pass_frame allWhite n img Hlen Hbin) as [Hl Hb].
  by apply erode_pass_spec.
Qed.

Lemma iter_dilate (n : nat) (img : list Z) :
  length img = Z.to_nat (w * h) -> binary img -> zero_border w h img ->
  Nat.iter n (dilate_pass w h) img = Nat.iter n (dilate_spec w h) img.
Proof.
  intros Hlen Hbin Hzero. induction n as [|n IH]; [done|].
  simpl. rewrite <- IH.
  destruct (iter_pass_frame anyWhite n img Hlen Hbin) as [Hl Hb].
  apply dilate_pass_spec; try done.
  destruct n as [|n]; [done|]. simpl. apply zero_border_pass.
Qed.

End Iterate.


(** A 7 x 7 frame, black but for the pixel in the middle. *)
Definition speck : list Z := <[24%nat := 255]> (replicate 49 0).


(** The speck is removed: it does not survive the erosions, and the
    dilations have nothing to grow back. *)
Example morphologyClean_removes_speck :
  morphologyClean speck 7 7 2 = replicate 49 0.
Proof. vm_compute. reflexivity. Qed.

End MorphologyFacts.

(** ** Connected components *)

Module BlobFacts.
Import ImageProcessor LoopFacts.

Definition sumZ (l : list Z) : Z := foldr Z.add 0 l.

(** The least and the greatest element of a list (0 for the empty
    list). *)
Definition lmin (l : list Z) : Z := foldr Z.min (hd 0 l) l.
Definition lmax (l : list Z) : Z := foldr Z.max (hd 0 l) l.

Lemma sumZ_perm (l k : list Z) : l ≡ₚ k -> sumZ l = sumZ k.
Proof. induction 1; simpl; lia. Qed.

Lemma foldr_min_spec (a : Z) (l : list Z) :
  let m := foldr Z.min a l in
  m <= a /\ (forall v, v ∈ l -> m <= v) /\ (m = a \/ m ∈ l).
Proof.
  induction l as [|v l (IHa & IHl & IHm)]; simpl.
  - split; [lia|]. split; [|by left]. intros v Hv. by apply elem_of_nil in Hv.
  - split; [lia|]. split.
    + intros v' [->|Hv]%elem_of_cons; [lia|]. specialize (IHl v' Hv). lia.
    + destruct (Z.min_spec v (foldr Z.min a l)) as [[_ ->]|[_ ->]].
      * right. by left.
      * destruct IHm as [?|?]; [by left|right; by right].
Qed.

Lemma foldr_max_spec (a : Z) (l : list Z) :
  let m := foldr Z.max a l in
  a <= m /\ (forall v, v ∈ l -> v <= m) /\ (m = a \/ m ∈ l).
Proof.
  induction l as [|v l (IHa & IHl & IHm)]; simpl.
  - split; [lia|]. split; [|by left]. intros v Hv. by apply elem_of_nil in Hv.
  - split; [lia|]. split.
    + intros v' [->|Hv]%elem_of_cons; [lia|]. specialize (IHl v' Hv). lia.
    + destruct (Z.max_spec v (foldr Z.max a l)) as [[_ ->]|[_ ->]].
      * destruct IHm as [?|?]; [by left|right; by right].
      * right. by left.
Qed.

Lemma lmin_unique (m : Z) (l : list Z) :
  m ∈ l -> (forall v, v ∈ l -> m <= v) -> lmin l = m.
Proof.
  intros Hm Hle. unfold lmin.
  destruct (foldr_min_spec (hd 0 l) l) as (Ha & Hl & Hin).
  assert (Hhd : hd 0 l ∈ l).
  { destruct l; [by apply elem_of_nil in Hm | by left]. }
  assert (foldr Z.min (hd 0 l) l ∈ l) as Hin' by (by destruct Hin as [->|]).
  specialize (Hl m Hm). specialize (Hle _ Hin'). lia.
Qed.

Lemma lmax_unique (m : Z) (l : list Z) :
  m ∈ l -> (forall v, v ∈ l -> v <= m) -> lmax l = m.
Proof.
  intros Hm Hle. unfold lmax.
  destruct (foldr_max_spec (hd 0 l) l) as (Ha & Hl & Hin).
  assert (Hhd : hd 0 l ∈ l).
  { destruct l; [by apply elem_of_nil in Hm | by left]. }
  assert (foldr Z.max (hd 0 l) l ∈ l) as Hin' by (by destruct Hin as [->|]).
  specialize (Hl m Hm). specialize (Hle _ Hin'). lia.
Qed.

(** The pixels that carry label 0. *)
Definition zeros (labels : list Z) : nat :=
  length (filter (fun v => v = 0) labels).

Lemma zeros_le (labels : list Z) : (zeros labels <= length labels)%nat.
Proof. apply length_filter. Qed.

Lemma zeros_insert (labels : list Z) (i : nat) (l : Z) :
  labels !! i = Some 0 -> l <> 0 ->
  (zeros (<[i := l]> labels) + 1 = zeros labels)%nat.
Proof.
  intros Hi Hl. unfold zeros.
  rewrite insert_take_drop by (by eapply lookup_lt_Some).
  rewrite <- (take_drop_middle labels i 0 Hi) at 3.
  rewrite !filter_app, !filter_cons, !length_app.
  rewrite decide_False by done. rewrite decide_True by done. simpl. lia.
Qed.

(** *** Pixels, adjacency and components of a frame *)

Section Frame.
Variables (bin : list Z) (w h : Z).

Definition in_frame (p : Z * Z) : Prop :=
  0 <= p.1 < w /\ 0 <= p.2 < h.

Definition index (p : Z * Z) : Z := p.2 * w + p.1.

(** A foreground pixel. *)
Definition white (p : Z * Z) : Prop :=
  in_frame p /\ read bin (index p) = Some 255.

(** 4-connectivity, in the order in which [floodFill] pushes the
    neighbours. *)
Definition adjacent (p q : Z * Z) : Prop :=
  q = (p.1 + 1, p.2) \/ q = (p.1 - 1, p.2)
  \/ q = (p.1, p.2 + 1) \/ q = (p.1, p.2 - 1).

Definition step (p q : Z * Z) : Prop :=
  white p /\ white q /\ adjacent p q.

(** [q] can be reached from [p] through adjacent foreground pixels. *)
Definition connected : relation (Z * Z) := rtc step.

(** The label of a pixel of the frame. *)
Definition lab (labels : list Z) (p : Z * Z) : Z :=
  default 0 (read labels (index p)).

Hypothesis Hw : 0 <= w.
Hypothesis Hh : 0 <= h.
Hypothesis Hlen : length bin = Z.to_nat (w * h).
Hypothesis Hbin : binary bin.

Lemma adjacent_sym (p q : Z * Z) : adjacent p q -> adjacent q p.
Proof.
  destruct p as [x y], q as [x' y']. unfold adjacent. simpl.
  intros [[= -> ->]|[[= -> ->]|[[= -> ->]|[= -> ->]]]].
  - right; left. f_equal; lia.
  - left. f_equal; lia.
  - do 3 right. f_equal; lia.
  - do 2 right; left. f_equal; lia.
Qed.

Lemma index_range (p : Z * Z) : in_frame p -> 0 <= index p < w * h.
Proof using Hw Hh.
  clear Hlen Hbin. destruct p as [x y]. unfold in_frame, index. simpl. nia. Qed.

Lemma index_inj (p q : Z * Z) :
  in_frame p -> in_frame q -> index p = index q -> p = q.
Proof using Hw Hh.
  clear Hlen Hbin.
  destruct p as [x y], q as [x' y']. unfold in_frame, index. simpl.
  intros [Hx Hy] [Hx' Hy'] Heq.
  destruct (index_split w x y) as [Hm Hd]; [lia|].
  destruct (index_split w x' y') as [Hm' Hd']; [lia|].
  rewrite Heq in Hm, Hd. f_equal; congruence.
Qed.

Lemma read_frame (buf : list Z) (p : Z * Z) :
  length buf = Z.to_nat (w * h) -> in_frame p ->
  exists v, buf !! Z.to_nat (index p) = Some v
            /\ read buf (index p) = Some v.
Proof using Hw Hh.
  clear Hlen Hbin.
  intros Hl Hp. pose proof (index_range p Hp) as Hi.
  destruct (lookup_lt_is_Some_2 buf (Z.to_nat (index p))) as [v Hv];
    [lia|].
  exists v. split; [done|]. unfold read.
  destruct (Z.ltb_spec (index p) 0); [lia|done].
Qed.

Lemma lab_lookup (labels : list Z) (p : Z * Z) (v : Z) :
  in_frame p -> labels !! Z.to_nat (index p) = Some v -> lab labels p = v.
Proof using Hw Hh.
  clear Hlen Hbin.
  intros Hp Hv. pose proof (index_range p Hp) as Hi.
  unfold lab, read. destruct (Z.ltb_spec (index p) 0); [lia|].
  by rewrite Hv.
Qed.

Lemma lab_write (labels : list Z) (p q : Z * Z) (l : Z) :
  length labels = Z.to_nat (w * h) -> in_frame p -> in_frame q ->
  lab (write labels (index p) l) q
  = if decide (q = p) then l else lab labels q.
Proof using Hw Hh.
  clear Hlen Hbin.
  intros Hl Hp Hq. pose proof (index_range p Hp) as Hi.
  pose proof (index_range q Hq) as Hj.
  unfold lab, read. destruct (Z.ltb_spec (index q) 0); [lia|].
  rewrite lookup_write by lia.
  destruct (decide (q = p)) as [->|Hne].
  - rewrite decide_True by lia.
    destruct (read_frame labels p Hl Hp) as (v & -> & _). done.
  - rewrite decide_False; [done|].
    intros Heq. apply Hne, index_inj; [done..|lia].
Qed.

Lemma white_binary (p : Z * Z) :
  in_frame p -> white p \/ read bin (index p) = Some 0.
Proof.
  intros Hp. destruct (read_frame bin p Hlen Hp) as (v & Hv & Hr).
  eapply Forall_lookup_1 in Hbin; [|exact Hv].
  destruct Hbin as [->| ->]; [by right | by left].
Qed.

(** *** One flood fill *)

(** The indices that carry label [l], in increasing order, and their
    columns and rows. *)
Definition members (labels : list Z) (l : Z) : list nat :=
  filter (fun i => labels !! i = Some l) (seq 0 (length labels)).

Definition col (i : nat) : Z := Z.of_nat i mod w.
Definition row (i : nat) : Z := Z.of_nat i / w.

(** The blob of the pixels that carry label [l]: their number, the
    rounded mean of their coordinates, and their inclusive bounding
    box. *)
Definition component_blob (labels : list Z) (l : Z) : Blob :=
  let ms := members labels l in
  let a := Z.of_nat (length ms) in
  {| id := l;
     area := a;
     centroid :=
       {| x := inject_Z (Js.round_div (sumZ (col <$> ms)) a);
          y := inject_Z (Js.round_div (sumZ (row <$> ms)) a) |};
     boundingBox :=
       {| bb_x := lmin (col <$> ms);
          bb_y := lmin (row <$> ms);
          bb_width := lmax (col <$> ms) - lmin (col <$> ms) + 1;
          bb_height := lmax (row <$> ms) - lmin (row <$> ms) + 1 |} |}.

Lemma elem_of_members (labels : list Z) (l : Z) (i : nat) :
  i ∈ members labels l <-> labels !! i = Some l.
Proof.
  unfold members. rewrite list_elem_of_filter, elem_of_seq. split.
  - by intros [? _].
  - intros Hi. split; [done|]. apply lookup_lt_Some in Hi. lia.
Qed.

Lemma pixel_of_index (i : nat) :
  (i < Z.to_nat (w * h))%nat ->
  in_frame (col i, row i) /\ index (col i, row i) = Z.of_nat i.
Proof using Hw Hh.
  clear Hlen Hbin.
  intros Hi. unfold in_frame, index, col, row. simpl.
  assert (0 < w) by nia.
  pose proof (Z.mod_pos_bound (Z.of_nat i) w).
  pose proof (Z.div_pos (Z.of_nat i) w).
  assert (Z.of_nat i / w < h) by (apply Z.div_lt_upper_bound; lia).
  split; [lia|]. apply index_join. lia.
Qed.

Section Fill.
(** The labels when the fill starts, its seed and its label. *)
Variables (L0 : list Z) (s : Z * Z) (l : Z).
Hypothesis HL0 : length L0 = Z.to_nat (w * h).
Hypothesis Hs : white s.
Hypothesis Hl : l <> 0.
Hypothesis Hfresh : forall i, L0 !! i <> Some l.
Hypothesis Hs0 : L0 !! Z.to_nat (index s) = Some 0.

(** The loop invariant; [visited] lists the pixels labelled so far,
    the last one first. *)
Record fill_inv (labels : list Z) (stack : list (Z * Z))
    (st : FillStats) (visited : list (Z * Z)) : Prop := {
  inv_len : length labels = Z.to_nat (w * h);
  inv_frame : forall i,
    labels !! i = L0 !! i
    \/ (L0 !! i = Some 0 /\ labels !! i = Some l
        /\ bin !! i = Some 255);
  inv_visited : forall p,
    p ∈ visited <-> in_frame p /\ lab labels p = l;
  inv_nodup : NoDup visited;
  inv_conn : forall p, p ∈ visited -> connected s p;
  inv_stack : forall q, q ∈ stack ->
    q = s \/ exists p, p ∈ visited /\ adjacent p q;
  inv_front : forall p q,
    p ∈ visited -> adjacent p q -> white q ->
    lab labels q <> 0 \/ q ∈ stack;
  inv_seed : s ∈ visited \/ s ∈ stack;
  inv_area : fs_area st = Z.of_nat (length visited);
  inv_sumX : sumX st = sumZ (visited.*1);
  inv_sumY : sumY st = sumZ (visited.*2);
  inv_minX : minX st = foldr Z.min s.1 (visited.*1);
  inv_minY : minY st = foldr Z.min s.2 (visited.*2);
  inv_maxX : maxX st = foldr Z.max s.1 (visited.*1);
  inv_maxY : maxY st = foldr Z.max s.2 (visited.*2)
}.

Lemma frame_test (x y : Z) :
  (x <? 0) || (x >=? w) || (y <? 0) || (y >=? h) = false
  <-> in_frame (x, y).
Proof.
  unfold in_frame. simpl. rewrite !Z.geb_leb.
  destruct (Z.ltb_spec x 0), (Z.leb_spec w x), (Z.ltb_spec y 0),
    (Z.leb_spec h y); simpl; split; intros; try done; lia.
Qed.

Lemma white_visited labels stack st visited p :
  fill_inv labels stack st visited -> p ∈ visited -> white p.
Proof.
  intros I Hp. apply (inv_visited _ _ _ _ I) in Hp as [Hf Hlab].
  split; [done|].
  destruct (read_frame labels p (inv_len _ _ _ _ I) Hf)
    as (v & Hv & Hr).
  pose proof (lab_lookup labels p v Hf Hv) as Hv'.
  destruct (inv_frame _ _ _ _ I (Z.to_nat (index p)))
    as [He|(_ & _ & Hb)].
  - exfalso. apply (Hfresh (Z.to_nat (index p))). congruence.
  - pose proof (index_range p Hf). unfold read.
    destruct (Z.ltb_spec (index p) 0); [lia|done].
Qed.

(** A pixel that is popped and skipped. *)
Lemma fill_inv_skip labels q stack st visited :
  fill_inv labels (q :: stack) st visited ->
  (white q -> lab labels q <> 0) ->
  fill_inv labels stack st visited.
Proof.
  intros I Hskip. destruct I. split; try done.
  - intros q' Hq'. apply inv_stack0. by right.
  - intros p q' Hp Hadj Hwq.
    destruct (inv_front0 p q' Hp Hadj Hwq) as [?|Hin]; [by left|].
    apply elem_of_cons in Hin as [->|Hin]; [left; by apply Hskip|].
    by right.
  - destruct inv_seed0 as [?|Hin]; [by left|].
    apply elem_of_cons in Hin as [<-|Hin]; [|by right].
    left. apply inv_visited0. destruct Hs as [Hf Hr]. split; [done|].
    specialize (Hskip Hs).
    destruct (read_frame labels s inv_len0 Hf) as (v & Hv & _).
    pose proof (lab_lookup labels s v Hf Hv) as Hv'.
    destruct (inv_frame0 (Z.to_nat (index s))) as [He|(_ & Hn & _)].
    + (* labelled before the fill: the seed was not *)
      exfalso. apply Hskip. rewrite Hv'. congruence.
    + rewrite Hv'. congruence.
Qed.

(** A pixel that is popped and labelled. *)
Lemma fill_inv_visit labels x y stack st visited :
  fill_inv labels ((x, y) :: stack) st visited ->
  white (x, y) -> lab labels (x, y) = 0 ->
  fill_inv (write labels (index (x, y)) l)
    ((x, y - 1) :: (x, y + 1) :: (x - 1, y) :: (x + 1, y) :: stack)
    {| fs_area := fs_area st + 1;
       sumX := sumX st + x;
       sumY := sumY st + y;
       minX := Z.min (minX st) x;
       minY := Z.min (minY st) y;
       maxX := Z.max (maxX st) x;
       maxY := Z.max (maxY st) y |}
    ((x, y) :: visited).
Proof.
  intros I Hwp Hzero.
  pose proof (fun p => white_visited _ _ _ _ p I) as Hwv.
  destruct I. destruct Hwp as [Hf Hr].
  pose proof (index_range _ Hf) as Hi.
  assert (Hlabw : forall q, in_frame q ->
            lab (write labels (index (x, y)) l) q
            = if decide (q = (x, y)) then l else lab labels q).
  { intros q Hq. by apply lab_write. }
  assert (Hnew : (x, y) ∉ visited).
  { intros [_ Hin]%inv_visited0. congruence. }
  split; cbn [fs_area sumX sumY minX minY maxX maxY].
  - by rewrite length_write.
  - intros i. rewrite lookup_write by lia.
    destruct (inv_frame0 i) as [He|(H0 & Hli & Hb)].
    + destruct (decide (index (x, y) = Z.of_nat i)) as [Hidx|_];
        [|by left].
      right. assert (i = Z.to_nat (index (x, y))) as -> by lia.
      destruct (read_frame labels (x, y) inv_len0 Hf) as (v & Hv & _).
      pose proof (lab_lookup labels (x, y) v Hf Hv) as Hv'.
      rewrite Hv. simpl. split; [congruence|]. split; [done|].
      unfold read in Hr.
      by destruct (Z.ltb_spec (index (x, y)) 0); [lia|].
    + right. rewrite Hli. by destruct (decide _).
  - intros q. rewrite elem_of_cons, inv_visited0. split.
    + intros [->|[Hq Hlq]].
      * split; [done|]. rewrite Hlabw by done. by rewrite decide_True.
      * split; [done|]. rewrite Hlabw by done. by destruct (decide _).
    + intros [Hq Hlq]. rewrite Hlabw in Hlq by done.
      destruct (decide (q = (x, y))); [by left | by right].
  - by apply NoDup_cons.
  - intros q [->|Hq]%elem_of_cons; [|by apply inv_conn0].
    destruct (inv_stack0 (x, y)) as [->|(p & Hp & Hadj)]; [by left|..].
    + apply rtc_refl.
    + eapply rtc_r; [by apply inv_conn0|].
      split; [by apply Hwv|]. split; [done|done].
  - intros q Hq.
    assert (Hhere : adjacent (x, y) q -> q = s \/
              exists p, p ∈ (x, y) :: visited /\ adjacent p q).
    { intros Hadj. right. exists (x, y). split; [by left|done]. }
    repeat (apply elem_of_cons in Hq as [->|Hq];
            [apply Hhere; unfold adjacent; simpl; tauto|]).
    destruct (inv_stack0 q) as [->|(p & Hp & Hadj)];
      [by right|by left|].
    right. exists p. split; [by right|done].
  - intros p q [->|Hp]%elem_of_cons Hadj Hwq.
    + right. unfold adjacent in Hadj. simpl in Hadj.
      destruct Hadj as [-> | [-> | [-> | ->]]].
      * do 3 right. by left.
      * do 2 right. by left.
      * right. by left.
      * by left.
    + destruct (inv_front0 p q Hp Hadj Hwq) as [Hne|Hin].
      * left. rewrite Hlabw by apply Hwq. by destruct (decide _).
      * apply elem_of_cons in Hin as [->|Hin].
        -- left. rewrite Hlabw by done. by rewrite decide_True.
        -- right. by do 4 right.
  - destruct inv_seed0 as [?|[->|?]%elem_of_cons].
    + left. by right.
    + left. by left.
    + right. by do 4 right.
  - rewrite inv_area0, length_cons. lia.
  - rewrite inv_sumX0, fmap_cons. unfold sumZ. cbn [foldr fst]. lia.
  - rewrite inv_sumY0, fmap_cons. unfold sumZ. cbn [foldr snd]. lia.
  - rewrite inv_minX0, fmap_cons. apply Z.min_comm.
  - rewrite inv_minY0, fmap_cons. apply Z.min_comm.
  - rewrite inv_maxX0, fmap_cons. apply Z.max_comm.
  - rewrite inv_maxY0, fmap_cons. apply Z.max_comm.
Qed.

(** The loop runs to the end within the bound, and the invariant
    then holds with the stack empty. *)
Lemma floodFill_loop_inv (fuel : nat) :
  forall labels stack st visited,
    fill_inv labels stack st visited ->
    (4 * zeros labels + length stack <= fuel)%nat ->
    exists labels' st' visited',
      floodFill_loop fuel bin w h l labels stack st
      = Some (labels', st')
      /\ fill_inv labels' [] st' visited'.
Proof.
  induction fuel as [|fuel IH]; intros labels stack st visited I Hfuel.
  - destruct stack; [|simpl in Hfuel; lia].
    exists labels, st, visited. done.
  - destruct stack as [|[x y] stack].
    { exists labels, st, visited. done. }
    simpl in Hfuel. simpl.
    destruct ((x <? 0) || (x >=? w) || (y <? 0) || (y >=? h))
      eqn:Hout.
    { apply (IH _ _ _ visited); [|lia].
      apply (fill_inv_skip _ _ _ _ _ I).
      intros [Hf _]. apply frame_test in Hf. congruence. }
    apply frame_test in Hout.
    destruct (read_frame labels (x, y) (inv_len _ _ _ _ I) Hout)
      as (v & Hv & Hrv).
    pose proof (lab_lookup labels (x, y) v Hout Hv) as Hlab.
    change (y * w + x) with (index (x, y)). rewrite Hrv.
    destruct (white_binary (x, y) Hout) as [Hwhite|Hblack].
    + destruct Hwhite as [Hf Hr]. rewrite Hr. simpl.
      destruct (Z.eqb_spec v 0) as [->|Hv0]; simpl.
      * destruct (IH (write labels (index (x, y)) l)
                    ((x, y - 1) :: (x, y + 1) :: (x - 1, y)
                       :: (x + 1, y) :: stack)
                    {| fs_area := fs_area st + 1;
                       sumX := sumX st + x;
                       sumY := sumY st + y;
                       minX := Z.min (minX st) x;
                       minY := Z.min (minY st) y;
                       maxX := Z.max (maxX st) x;
                       maxY := Z.max (maxY st) y |}
                    ((x, y) :: visited)) as (L' & st' & vis' & HL & HI).
        -- by apply fill_inv_visit.
        -- unfold write. pose proof (index_range _ Hout).
           destruct (Z.ltb_spec (index (x, y)) 0); [lia|].
           pose proof (zeros_insert labels _ l Hv Hl). simpl. lia.
        -- by exists L', st', vis'.
      * apply (IH _ _ _ visited); [|lia].
        apply (fill_inv_skip _ _ _ _ _ I). intros _. congruence.
    + rewrite Hblack. simpl.
      apply (IH _ _ _ visited); [|lia].
      apply (fill_inv_skip _ _ _ _ _ I).
      intros [_ Hr]. congruence.
Qed.

Lemma fill_inv_init :
  fill_inv L0 [s]
    {| fs_area := 0; sumX := 0; sumY := 0;
       minX := s.1; minY := s.2; maxX := s.1; maxY := s.2 |} [].
Proof.
  split; try done.
  - by left.
  - intros p. split; [by intros ?%elem_of_nil|]. intros [Hp Hlab].
    destruct (read_frame L0 p HL0 Hp) as (v & Hv & _).
    rewrite (lab_lookup L0 p v Hp Hv) in Hlab. subst v.
    by apply Hfresh in Hv.
  - apply NoDup_nil_2.
  - by intros p ?%elem_of_nil.
  - intros q ->%list_elem_of_singleton. by left.
  - by intros p q ?%elem_of_nil.
  - right. by left.
Qed.

(** Before the fill, a pixel with a label has that label in common
    with its foreground neighbours. *)
Hypothesis Hclosed : forall p q,
  in_frame p -> lab L0 p <> 0 -> white q -> adjacent p q ->
  lab L0 q = lab L0 p.

Lemma fill_inv_component labels st visited p :
  fill_inv labels [] st visited ->
  in_frame p -> (lab labels p = l <-> connected s p).
Proof.
  intros I Hp. split.
  - intros Hlab. apply (inv_conn _ _ _ _ I), (inv_visited _ _ _ _ I).
    done.
  - intros Hconn. clear Hp. revert p Hconn.
    apply (rtc_ind_r (fun p => lab labels p = l)).
    + destruct (inv_seed _ _ _ _ I) as [Hin|Hin];
        [|by apply elem_of_nil in Hin].
      by apply (inv_visited _ _ _ _ I) in Hin as [_ ?].
    + intros p q Hsp (Hwp & Hwq & Hadj) IH.
      assert (Hpv : p ∈ visited).
      { apply (inv_visited _ _ _ _ I). split; [apply Hwp|done]. }
      destruct (inv_front _ _ _ _ I p q Hpv Hadj Hwq) as [Hne|Hin];
        [|by apply elem_of_nil in Hin].
      destruct Hwq as [Hq Hrq].
      destruct (read_frame labels q (inv_len _ _ _ _ I) Hq)
        as (v & Hv & _).
      rewrite (lab_lookup labels q v Hq Hv) in Hne |- *.
      destruct (inv_frame _ _ _ _ I (Z.to_nat (index q)))
        as [He|(_ & Hlq & _)]; [|congruence].
      exfalso.
      assert (Hq0 : lab L0 q = v).
      { apply lab_lookup; [done|congruence]. }
      assert (Hp0 : lab L0 p = v).
      { rewrite <- Hq0.
        apply (Hclosed q p);
          [done | congruence | done | by apply adjacent_sym]. }
      destruct Hwp as [Hfp _].
      destruct (read_frame labels p (inv_len _ _ _ _ I) Hfp)
        as (u & Hu & _).
      rewrite (lab_lookup labels p u Hfp Hu) in IH. subst u.
      destruct (inv_frame _ _ _ _ I (Z.to_nat (index p)))
        as [He'|(H0' & _ & _)].
      * apply (Hfresh (Z.to_nat (index p))). congruence.
      * rewrite (lab_lookup L0 p 0 Hfp H0') in Hp0. congruence.
Qed.

Lemma visited_members labels st visited :
  fill_inv labels [] st visited ->
  (fun p => Z.to_nat (index p)) <$> visited ≡ₚ members labels l.
Proof.
  intros I. apply NoDup_Permutation.
  - apply NoDup_fmap_2_strong; [|apply (inv_nodup _ _ _ _ I)].
    intros p q [Hp _]%(inv_visited _ _ _ _ I)
               [Hq _]%(inv_visited _ _ _ _ I) Heq.
    pose proof (index_range p Hp). pose proof (index_range q Hq).
    apply index_inj; [done..|lia].
  - apply NoDup_filter, NoDup_seq.
  - intros i. rewrite elem_of_members, list_elem_of_fmap. split.
    + intros (p & -> & [Hp Hlab]%(inv_visited _ _ _ _ I)).
      destruct (read_frame labels p (inv_len _ _ _ _ I) Hp)
        as (v & Hv & _).
      rewrite (lab_lookup labels p v Hp Hv) in Hlab. congruence.
    + intros Hi. pose proof (lookup_lt_Some _ _ _ Hi) as Hlt.
      rewrite (inv_len _ _ _ _ I) in Hlt.
      destruct (pixel_of_index i Hlt) as [Hf Hidx].
      exists (col i, row i). split; [rewrite Hidx; lia|].
      apply (inv_visited _ _ _ _ I). split; [done|].
      apply lab_lookup; [done|]. rewrite Hidx, Nat2Z.id. done.
Qed.

(** The statistics of a finished fill are those of the pixels that
    carry its label. *)
Lemma fill_inv_blob labels st visited :
  fill_inv labels [] st visited ->
  blob_of_stats l st = component_blob labels l.
Proof.
  intros I. pose proof (visited_members _ _ _ I) as Hperm.
  assert (Hseed : s ∈ visited).
  { destruct (inv_seed _ _ _ _ I) as [?|Hin]; [done|].
    by apply elem_of_nil in Hin. }
  assert (Hcol : col <$> members labels l ≡ₚ visited.*1).
  { rewrite <- Hperm, <- list_fmap_compose.
    rewrite (Forall_fmap_ext_1 _ fst visited); [done|].
    apply Forall_forall.
    intros p [Hp _]%(inv_visited _ _ _ _ I). simpl. unfold col.
    pose proof (index_range p Hp). rewrite Z2Nat.id by lia.
    destruct p as [x y]. apply (index_split w x y), Hp. }
  assert (Hrow : row <$> members labels l ≡ₚ visited.*2).
  { rewrite <- Hperm, <- list_fmap_compose.
    rewrite (Forall_fmap_ext_1 _ snd visited); [done|].
    apply Forall_forall.
    intros p [Hp _]%(inv_visited _ _ _ _ I). simpl. unfold row.
    pose proof (index_range p Hp). rewrite Z2Nat.id by lia.
    destruct p as [x y]. apply (index_split w x y), Hp. }
  assert (Hlen' : length (members labels l) = length visited).
  { rewrite <- Hperm. by rewrite length_fmap. }
  assert (Hsx : s.1 ∈ visited.*1) by (by apply list_elem_of_fmap_2).
  assert (Hsy : s.2 ∈ visited.*2) by (by apply list_elem_of_fmap_2).
  unfold blob_of_stats, component_blob. cbv zeta.
  rewrite Hlen', (sumZ_perm _ _ Hcol), (sumZ_perm _ _ Hrow).
  rewrite (inv_area _ _ _ _ I), (inv_sumX _ _ _ _ I),
    (inv_sumY _ _ _ _ I).
  rewrite (inv_minX _ _ _ _ I), (inv_minY _ _ _ _ I),
    (inv_maxX _ _ _ _ I), (inv_maxY _ _ _ _ I).
  destruct (foldr_min_spec s.1 (visited.*1)) as (_ & Hle1 & Hin1).
  destruct (foldr_min_spec s.2 (visited.*2)) as (_ & Hle2 & Hin2).
  destruct (foldr_max_spec s.1 (visited.*1)) as (_ & Hge1 & Hin3).
  destruct (foldr_max_spec s.2 (visited.*2)) as (_ & Hge2 & Hin4).
  rewrite (lmin_unique (foldr Z.min s.1 (visited.*1))
             (col <$> members labels l)).
  2:{ rewrite Hcol. by destruct Hin1 as [->|]. }
  2:{ intros v Hv. rewrite Hcol in Hv. by apply Hle1. }
  rewrite (lmin_unique (foldr Z.min s.2 (visited.*2))
             (row <$> members labels l)).
  2:{ rewrite Hrow. by destruct Hin2 as [->|]. }
  2:{ intros v Hv. rewrite Hrow in Hv. by apply Hle2. }
  rewrite (lmax_unique (foldr Z.max s.1 (visited.*1))
             (col <$> members labels l)).
  2:{ rewrite Hcol. by destruct Hin3 as [->|]. }
  2:{ intros v Hv. rewrite Hcol in Hv. by apply Hge1. }
  rewrite (lmax_unique (foldr Z.max s.2 (visited.*2))
             (row <$> members labels l)).
  2:{ rewrite Hrow. by destruct Hin4 as [->|]. }
  2:{ intros v Hv. rewrite Hrow in Hv. by apply Hge2. }
  reflexivity.
Qed.

(** [floodFill] from the seed: it returns within the bound, changes
    only labels that were 0, on foreground pixels, to [l], and the
    pixels that carry [l] afterwards are those connected to the
    seed. *)
Lemma floodFill_spec (fuel : nat) :
  (4 * zeros L0 + 1 <= fuel)%nat ->
  exists labels st,
    floodFill fuel bin w h L0 s.1 s.2 l = Some (labels, st)
    /\ length labels = Z.to_nat (w * h)
    /\ (forall i, labels !! i = L0 !! i
                  \/ (L0 !! i = Some 0 /\ labels !! i = Some l
                      /\ bin !! i = Some 255))
    /\ (forall p, in_frame p -> (lab labels p = l <-> connected s p))
    /\ blob_of_stats l st = component_blob labels l.
Proof.
  intros Hfuel. unfold floodFill.
  destruct (floodFill_loop_inv fuel L0 [s] _ [] fill_inv_init)
    as (labels & st & visited & Hrun & I); [simpl; lia|].
  exists labels, st.
  rewrite <- (surjective_pairing s).
  split; [exact Hrun|]. split; [apply I|]. split; [apply I|].
  split.
  - intros p Hp. by eapply fill_inv_component.
  - by eapply fill_inv_blob.
Qed.

End Fill.

(** *** The scan *)

Lemma connected_sym (p q : Z * Z) : connected p q -> connected q p.
Proof.
  unfold connected. induction 1 as [|p q r (Hp & Hq & Hadj) _ IH];
    [apply rtc_refl|].
  eapply rtc_r; [exact IH|].
  split; [done|]. split; [done|]. by apply adjacent_sym.
Qed.

Lemma bind_singleton {A B} (f : A -> B) (l : list A) :
  l ≫= (fun a => [f a]) = f <$> l.
Proof.
  induction l as [|a l IH]; [done|].
  by rewrite bind_cons, fmap_cons, IH.
Qed.

(** The two scanning loops visit the pixels in the order of their
    indices. *)
Lemma grid_row_major :
  grid (seqZ 0 w) (seqZ 0 h)
  = (fun i : nat => (col i, row i)) <$> seq 0 (Z.to_nat (w * h)).
Proof.
  unfold grid. rewrite <- (Z2Nat.id h Hh).
  replace (w * Z.of_nat (Z.to_nat h)) with (Z.of_nat (Z.to_nat h) * w)
    by lia.
  induction (Z.to_nat h) as [|n IH]; [done|].
  rewrite seqZ_S, bind_app, IH. simpl.
  replace (Z.to_nat (Z.of_nat (S n) * w))
    with (Z.to_nat (Z.of_nat n * w) + Z.to_nat w)%nat by lia.
  rewrite seq_app, fmap_app, app_nil_r. f_equal.
  rewrite bind_singleton. unfold seqZ.
  rewrite <- list_fmap_compose, Nat.add_0_l.
  rewrite <- (Nat.add_0_r (Z.to_nat (Z.of_nat n * w))) at 1.
  rewrite <- fmap_add_seq, <- list_fmap_compose.
  apply list_fmap_ext. intros _ j Hj%list_elem_of_lookup_2.
  apply elem_of_seq in Hj. simpl. unfold col, row.
  replace (Z.of_nat (Z.to_nat (Z.of_nat n * w) + j))
    with (Z.of_nat n * w + Z.of_nat j) by lia.
  destruct (index_split w (Z.of_nat j) (Z.of_nat n)) as [-> ->]; [lia|].
  f_equal; lia.
Qed.

Section Scan.
Variables (fuel : nat) (minArea maxArea : Z).
Hypothesis Hfuel : (4 * length bin + 1 <= fuel)%nat.

(** The blobs of the labels 1, ..., [K] whose area is within the
    bounds. *)
Definition emitted (labels : list Z) (K : Z) : list Blob :=
  omap (fun l =>
          let b := component_blob labels l in
          if (area b >=? minArea) && (area b <=? maxArea)
          then Some b else None)
       (seqZ 1 K).

(** The invariant of the scan after the first [k] pixels. *)
Record scan_inv (k : nat) (S : ScanState) : Prop := {
  si_len : length (labels S) = Z.to_nat (w * h);
  si_K : 0 <= currentLabel S;
  si_range : forall i v,
    labels S !! i = Some v -> 0 <= v <= currentLabel S;
  si_white : forall i v,
    labels S !! i = Some v -> v <> 0 -> bin !! i = Some 255;
  si_done : forall i,
    (i < k)%nat -> bin !! i = Some 255 -> labels S !! i <> Some 0;
  si_comp : forall p q,
    in_frame p -> in_frame q -> lab (labels S) p <> 0 ->
    (lab (labels S) q = lab (labels S) p <-> connected p q);
  si_seed : forall l,
    1 <= l <= currentLabel S ->
    exists i, (i < k)%nat /\ labels S !! i = Some l;
  si_order : forall l l',
    1 <= l < l' -> l' <= currentLabel S ->
    exists i, labels S !! i = Some l
              /\ forall j, labels S !! j = Some l' -> (i < j)%nat;
  si_found : found S = emitted (labels S) (currentLabel S)
}.

Lemma scan_inv_init :
  scan_inv 0 {| labels := alloc (length bin); currentLabel := 0;
                found := [] |}.
Proof.
  assert (Hz : forall i v, alloc (length bin) !! i = Some v -> v = 0).
  { intros i v [-> _]%lookup_replicate. done. }
  split; simpl; try done.
  - unfold alloc. by rewrite length_replicate.
  - intros i v ->%Hz. lia.
  - intros i v ->%Hz. done.
  - intros i Hi. lia.
  - intros p q Hp Hq Hne. exfalso. apply Hne.
    destruct (read_frame (alloc (length bin)) p) as (v & Hv & _);
      [unfold alloc; by rewrite length_replicate|done|].
    rewrite (lab_lookup _ p v Hp Hv). by eapply Hz.
  - intros l Hl. lia.
  - intros l l' Hl Hl'. lia.
Qed.

Lemma omap_ext_in {A B} (f g : A -> option B) (xs : list A) :
  (forall a, a ∈ xs -> f a = g a) -> omap f xs = omap g xs.
Proof.
  induction xs as [|a xs IH]; intros Hfg; [done|].
  cbn [omap list_omap]. rewrite (Hfg a) by (by left).
  rewrite IH; [done|]. intros b Hb. apply Hfg. by right.
Qed.

Lemma members_frame (L0 labels : list Z) (l K : Z) :
  length labels = length L0 ->
  (forall i, labels !! i = L0 !! i
             \/ (L0 !! i = Some 0 /\ labels !! i = Some K)) ->
  l <> 0 -> l <> K ->
  members labels l = members L0 l.
Proof.
  intros Hl Hfr H0 HK. unfold members. rewrite Hl.
  apply list_filter_iff. intros i.
  destruct (Hfr i) as [->|[Ha Hb]]; [done|].
  rewrite Ha, Hb. split; congruence.
Qed.

(** A pixel that opens a new component. *)
Lemma scan_inv_fill (k : nat) (S : ScanState) :
  scan_inv k S ->
  (k < Z.to_nat (w * h))%nat ->
  bin !! k = Some 255 -> labels S !! k = Some 0 ->
  exists S',
    scan_pixel fuel bin w h minArea maxArea S (col k) (row k) = Some S'
    /\ scan_inv (Datatypes.S k) S'.
Proof.
  intros I Hk Hwhite Hzero.
  destruct (pixel_of_index k Hk) as [Hf Hidx].
  set (s := (col k, row k)) in *.
  set (l := currentLabel S + 1).
  pose proof (si_K _ _ I) as HK.
  assert (Hsw : white s).
  { split; [done|]. unfold read. rewrite Hidx.
    destruct (Z.ltb_spec (Z.of_nat k) 0); [lia|].
    by rewrite Nat2Z.id. }
  destruct (floodFill_spec (labels S) s l (si_len _ _ I) Hsw) with
    (fuel := fuel) as (L & st & Hrun & HL & Hfr & Hcomp & Hblob).
  - lia.
  - intros i Hi. apply (si_range _ _ I) in Hi. lia.
  - by rewrite Hidx, Nat2Z.id.
  - intros p q Hp Hlp Hq Hadj.
    apply (si_comp _ _ I p q Hp (proj1 Hq) Hlp).
    apply rtc_once. split; [|done].
    split; [done|].
    destruct (read_frame (labels S) p (si_len _ _ I) Hp)
      as (v & Hv & _).
    rewrite (lab_lookup _ p v Hp Hv) in Hlp.
    pose proof (si_white _ _ I _ _ Hv Hlp) as Hb.
    pose proof (index_range p Hp). unfold read.
    destruct (Z.ltb_spec (index p) 0); [lia|done].
  - pose proof (zeros_le (labels S)) as Hz.
    rewrite (si_len _ _ I) in Hz. lia.
  - assert (Hl0 : l <> 0) by (unfold l; lia).
    assert (Hold : forall i v, labels S !! i = Some v -> v <> 0 ->
                               L !! i = Some v).
    { intros i v Hv Hv0. destruct (Hfr i) as [->|(H0 & _)]; [done|].
      congruence. }
    assert (Hnew : forall i v, L !! i = Some v -> v <> l ->
                               labels S !! i = Some v).
    { intros i v Hv Hvl. destruct (Hfr i) as [<-|(_ & H1 & _)]; [done|].
      congruence. }
    assert (Hlabfr : forall p, in_frame p ->
              lab L p = lab (labels S) p
              \/ (lab (labels S) p = 0 /\ lab L p = l)).
    { intros p Hp.
      destruct (read_frame L p HL Hp) as (v & Hv & _).
      destruct (read_frame (labels S) p (si_len _ _ I) Hp)
        as (u & Hu & _).
      rewrite (lab_lookup _ p v Hp Hv), (lab_lookup _ p u Hp Hu).
      destruct (Hfr (Z.to_nat (index p))) as [He|(H0 & H1 & _)].
      - left. congruence.
      - right. split; congruence. }
    assert (Hseed : L !! k = Some l).
    { destruct (read_frame L s HL Hf) as (v & Hv & _).
      pose proof (lab_lookup _ s v Hf Hv) as Hlv.
      rewrite Hidx, Nat2Z.id in Hv. rewrite Hv. f_equal.
      rewrite <- Hlv. apply Hcomp; [done|]. apply rtc_refl. }
    eexists. split.
    { unfold scan_pixel.
      change (row k * w + col k) with (index s). rewrite Hidx.
      unfold read at 1 2.
      destruct (Z.ltb_spec (Z.of_nat k) 0); [lia|].
      rewrite Nat2Z.id, Hwhite, Hzero. simpl.
      fold l. change (col k) with s.1. change (row k) with s.2.
      rewrite Hrun. simpl. reflexivity. }
    split; simpl.
    + done.
    + lia.
    + intros i v Hv. destruct (Hfr i) as [He|(_ & H1 & _)].
      * rewrite He in Hv. apply (si_range _ _ I) in Hv. lia.
      * assert (v = l) by congruence. lia.
    + intros i v Hv Hv0. destruct (Hfr i) as [He|(_ & _ & Hb)]; [|done].
      rewrite He in Hv. by eapply (si_white _ _ I).
    + intros i Hi Hb HLi.
      destruct (decide (i = k)) as [->|Hne]; [congruence|].
      apply (si_done _ _ I i); [lia|done|].
      apply Hnew; [done|congruence].
    + intros p q Hp Hq Hne.
      destruct (Hlabfr p Hp) as [Hep|[Hp0 Hpl]].
      * destruct (Hlabfr q Hq) as [Heq|[Hq0 Hql]].
        -- rewrite Hep, Heq. apply (si_comp _ _ I); [done..|congruence].
        -- rewrite Hep in Hne |- *.
           rewrite <- (si_comp _ _ I p q Hp Hq Hne).
           rewrite Hql, Hq0. split; [|congruence]. intros Hl'.
           exfalso.
           destruct (read_frame (labels S) p (si_len _ _ I) Hp)
             as (u & Hu & _).
           rewrite (lab_lookup _ p u Hp Hu) in Hl'.
           apply (si_range _ _ I) in Hu. unfold l in Hl'. lia.
      * rewrite Hpl. rewrite (Hcomp q Hq).
        assert (Hsp : connected s p) by (by apply Hcomp).
        split; intros Hc.
        -- eapply rtc_trans; [apply connected_sym, Hsp|exact Hc].
        -- eapply rtc_trans; [exact Hsp|exact Hc].
    + intros l' Hl'. destruct (decide (l' = l)) as [->|Hne].
      * exists k. split; [lia|done].
      * destruct (si_seed _ _ I l') as (i & Hi & Hli);
          [unfold l in *; lia|].
        exists i. split; [lia|]. apply Hold; [done|lia].
    + intros l1 l2 Hl1 Hl2. destruct (decide (l2 = l)) as [->|Hne].
      * destruct (si_seed _ _ I l1) as (i & Hi & Hli);
          [unfold l in *; lia|].
        exists i. split; [apply Hold; [done|lia]|].
        intros j Hj. destruct (Hfr j) as [He|(H0 & _ & Hb)].
        -- rewrite He in Hj. apply (si_range _ _ I) in Hj.
           unfold l in Hj. lia.
        -- destruct (decide (j < k)%nat) as [Hlt|Hge]; [|lia].
           by destruct (si_done _ _ I j Hlt Hb).
      * destruct (si_order _ _ I l1 l2) as (i & Hli & Hlt);
          [lia|unfold l in *; lia|].
        exists i. split; [apply Hold; [done|lia]|].
        intros j Hj. apply Hlt, Hnew; [done|congruence].
    + unfold emitted.
      replace (seqZ 1 l) with (seqZ 1 (currentLabel S) ++ [l]).
      2:{ unfold l. rewrite seqZ_app by lia. f_equal.
          unfold seqZ. simpl. f_equal. lia. }
      rewrite omap_app.
      pose proof (si_found _ _ I) as Hfound. unfold emitted in Hfound.
      rewrite (omap_ext_in _
                 (fun l0 =>
                    let b := component_blob (labels S) l0 in
                    if (area b >=? minArea) && (area b <=? maxArea)
                    then Some b else None)).
      2:{ intros l0 Hin%elem_of_seqZ. unfold component_blob.
          rewrite (members_frame (labels S) L l0 l); try done.
          - by rewrite HL, (si_len _ _ I).
          - intros i. destruct (Hfr i) as [?|(? & ? & _)];
              [by left | by right].
          - lia.
          - unfold l. lia. }
      cbv zeta. rewrite <- Hfound.
      cbn [omap list_omap]. rewrite <- Hblob.
      change (area (blob_of_stats l st)) with (fs_area st).
      destruct ((fs_area st >=? minArea) && (fs_area st <=? maxArea));
        [done | by rewrite app_nil_r].
Qed.

Lemma scan_inv_step (k : nat) (S : ScanState) :
  scan_inv k S ->
  (k < Z.to_nat (w * h))%nat ->
  exists S',
    scan_pixel fuel bin w h minArea maxArea S (col k) (row k) = Some S'
    /\ scan_inv (Datatypes.S k) S'.
Proof.
  intros I Hk.
  destruct (lookup_lt_is_Some_2 bin k) as [b Hb]; [lia|].
  destruct (lookup_lt_is_Some_2 (labels S) k) as [v Hv];
    [rewrite (si_len _ _ I); lia|].
  destruct (decide (b = 255 /\ v = 0)) as [[-> ->]|Hno].
  { by apply scan_inv_fill. }
  exists S. split.
  - destruct (pixel_of_index k Hk) as [Hf Hidx].
    unfold scan_pixel.
    change (row k * w + col k) with (index (col k, row k)).
    rewrite Hidx. unfold read.
    destruct (Z.ltb_spec (Z.of_nat k) 0); [lia|].
    rewrite Nat2Z.id, Hb, Hv. simpl.
    destruct (Z.eqb_spec b 255), (Z.eqb_spec v 0); simpl; try done.
    tauto.
  - destruct I. split; try done.
    + intros i Hi Hbi Hli.
      destruct (decide (i = k)) as [->|Hne].
      * apply Hno. split; congruence.
      * apply (si_done0 i); [lia|done..].
    + intros l Hl. destruct (si_seed0 l Hl) as (i & Hi & Hli).
      exists i. split; [lia|done].
Qed.

Lemma scan_prefix (k : nat) :
  (k <= Z.to_nat (w * h))%nat ->
  exists S,
    foldl (fun s i =>
             s ← s;
             scan_pixel fuel bin w h minArea maxArea s (col i) (row i))
          (Some {| labels := alloc (length bin); currentLabel := 0;
                   found := [] |})
          (seq 0 k)
    = Some S
    /\ scan_inv k S.
Proof.
  induction k as [|k IH]; intros Hk.
  - eexists. split; [reflexivity|apply scan_inv_init].
  - destruct IH as (S & Hrun & I); [lia|].
    destruct (scan_inv_step k S I) as (S' & Hstep & I'); [lia|].
    exists S'. split; [|done].
    rewrite seq_S, foldl_snoc, Hrun. simpl. exact Hstep.
Qed.

Lemma scan_spec :
  exists S,
    scan fuel bin w h minArea maxArea = Some S
    /\ scan_inv (Z.to_nat (w * h)) S.
Proof.
  destruct (scan_prefix (Z.to_nat (w * h))) as (S & Hrun & I); [lia|].
  exists S. split; [|done]. unfold scan.
  rewrite (foldl_nested
             (fun s x y =>
                s ← s;
                scan_pixel fuel bin w h minArea maxArea s x y)).
  rewrite grid_row_major, foldl_fmap. exact Hrun.
Qed.

End Scan.

End Frame.

(** *** The bound on the iterations is immaterial *)

Lemma floodFill_loop_mono (fuel fuel' : nat) bin w h l :
  forall labels stack st r,
    (fuel <= fuel')%nat ->
    floodFill_loop fuel bin w h l labels stack st = Some r ->
    floodFill_loop fuel' bin w h l labels stack st = Some r.
Proof.
  revert fuel'. induction fuel as [|fuel IH];
    intros fuel' labels stack st r Hle Hrun.
  - destruct stack as [|[x y] stack]; [|done].
    by destruct fuel'.
  - destruct fuel' as [|fuel']; [lia|].
    destruct stack as [|[x y] stack]; [done|].
    simpl in *.
    destruct ((x <? 0) || (x >=? w) || (y <? 0) || (y >=? h));
      [apply IH; [lia|done]|].
    destruct (strict_eq 0 (read bin (y * w + x))
              || negb (strict_eq 0 (read labels (y * w + x))));
      apply IH; (lia || done).
Qed.

Lemma scan_pixel_mono (fuel fuel' : nat) bin w h minArea maxArea S x y S' :
  (fuel <= fuel')%nat ->
  scan_pixel fuel bin w h minArea maxArea S x y = Some S' ->
  scan_pixel fuel' bin w h minArea maxArea S x y = Some S'.
Proof.
  intros Hle. unfold scan_pixel.
  destruct (strict_eq 255 _ && strict_eq 0 _); [|done].
  unfold floodFill.
  destruct (floodFill_loop fuel _ _ _ _ _ _ _) as [r|] eqn:Hrun; [|done].
  by rewrite (floodFill_loop_mono fuel fuel' _ _ _ _ _ _ _ r Hle Hrun).
Qed.

Lemma scan_mono (fuel fuel' : nat) bin w h minArea maxArea S :
  (fuel <= fuel')%nat ->
  scan fuel bin w h minArea maxArea = Some S ->
  scan fuel' bin w h minArea maxArea = Some S.
Proof.
  intros Hle. unfold scan.
  rewrite !(foldl_nested
              (fun s x y =>
                 s ← s; scan_pixel _ bin w h minArea maxArea s x y)).
  generalize (grid (seqZ 0 w) (seqZ 0 h)).
  generalize {| labels := alloc (length bin); currentLabel := 0;
                found := [] |}.
  intros S0 ps. revert S0. induction ps as [|[x y] ps IH]; intros S0;
    [done|].
  simpl.
  destruct (scan_pixel fuel bin w h minArea maxArea S0 x y) as [S1|]
    eqn:Hstep.
  - rewrite (scan_pixel_mono fuel fuel' _ _ _ _ _ _ _ _ _ Hle Hstep).
    apply IH.
  - intros Hnone. exfalso. clear -Hnone.
    induction ps as [|[x' y'] ps IH]; [done|]. by apply IH.
Qed.

(** C6.  On a binary [w] x [h] frame, [findBlobs] labels the 4-connected
    components of the foreground: every foreground pixel gets a label
    among 1, ..., [K], every background pixel keeps 0, and two foreground
    pixels have the same label exactly when they are connected.  The
    labels are given in the order in which the row-major scan meets the
    components: the first pixel of a component with a smaller label
    precedes every pixel of a component with a larger one.  The result
    lists, in the order of the labels, the components whose area lies
    within [minArea, maxArea], each with its label as id, its number of
    pixels as area, the rounded mean of the coordinates of its pixels as
    centroid, and the inclusive bounding box ([width = maxX - minX + 1],
    [height = maxY - minY + 1]).  Every flood fill ends within the bound
    on its iterations. *)
Theorem findBlobs_components
    (bin : list Z) (w h minArea maxArea : Z) :
  0 <= w -> 0 <= h -> length bin = Z.to_nat (w * h) -> binary bin ->
  exists (labels : list Z) (K : Z),
    length labels = length bin
    /\ (forall i v, labels !! i = Some v ->
          0 <= v <= K /\ (v <> 0 <-> bin !! i = Some 255))
    /\ (forall p q, white bin w h p -> white bin w h q ->
          (lab w labels p = lab w labels q <-> connected bin w h p q))
    /\ (forall l, 1 <= l <= K -> exists i, labels !! i = Some l)
    /\ (forall l l', 1 <= l < l' -> l' <= K ->
          exists i, labels !! i = Some l
                    /\ forall j, labels !! j = Some l' -> (i < j)%nat)
    /\ findBlobs bin w h minArea maxArea
       = emitted w minArea maxArea labels K
    /\ (forall fuel, (4 * length bin + 1 <= fuel)%nat ->
          findBlobs_fuel fuel bin w h minArea maxArea
          = Some (findBlobs bin w h minArea maxArea)).
Proof.
  intros Hw Hh Hlen Hbin.
  destruct (scan_spec bin w h Hw Hh Hlen Hbin (4 * length bin + 1)
              minArea maxArea) as (S & Hrun & I); [lia|].
  assert (Hfind : findBlobs bin w h minArea maxArea = found S).
  { unfold findBlobs, findBlobs_fuel. by rewrite Hrun. }
  exists (labels S), (currentLabel S).
  split; [by rewrite (si_len _ _ _ _ _ _ _ I)|].
  split; [|split; [|split; [|split; [|split]]]].
  - intros i v Hv. split; [by eapply (si_range _ _ _ _ _ _ _ I)|]. split.
    + by eapply (si_white _ _ _ _ _ _ _ I).
    + intros Hb ->. eapply (si_done _ _ _ _ _ _ _ I i); try done.
      apply lookup_lt_Some in Hv.
      by rewrite (si_len _ _ _ _ _ _ _ I) in Hv.
  - intros p q Hp Hq.
    assert (Hlp : lab w (labels S) p <> 0).
    { destruct Hp as [Hf Hr].
      destruct (read_frame w h Hw Hh (labels S) p
                  (si_len _ _ _ _ _ _ _ I) Hf) as (v & Hv & _).
      rewrite (lab_lookup w h Hw Hh (labels S) p v Hf Hv). intros ->.
      pose proof (index_range w h Hw Hh p Hf).
      eapply (si_done _ _ _ _ _ _ _ I (Z.to_nat (index w p)));
        [lia| |done].
      unfold read in Hr.
      by destruct (Z.ltb_spec (index w p) 0); [lia|]. }
    rewrite <- (si_comp _ _ _ _ _ _ _ I p q (proj1 Hp) (proj1 Hq) Hlp).
    split; congruence.
  - intros l Hl.
    destruct (si_seed _ _ _ _ _ _ _ I l Hl) as (i & _ & Hi). by exists i.
  - apply (si_order _ _ _ _ _ _ _ I).
  - by rewrite Hfind, (si_found _ _ _ _ _ _ _ I).
  - intros fuel Hfuel. unfold findBlobs_fuel.
    rewrite (scan_mono (4 * length bin + 1) fuel _ _ _ _ _ S Hfuel Hrun).
    simpl. by rewrite Hfind.
Qed.

(** A 4 x 3 frame with three components: two pixels at the top left, one
    at the top right, and two pixels at the bottom.
<<
    # # . #
    . . . .
    . # # .
>>
*)
Definition sample : list Z :=
  [255; 255; 0; 255;
   0; 0; 0; 0;
   0; 255; 255; 0].

Lemma findBlobs_components_witness :
  exists (labels : list Z) (K : Z),
    length labels = 12%nat
    /\ findBlobs sample 4 3 2 2 = emitted 4 2 2 labels K.
Proof.
  destruct (findBlobs_components sample 4 3 2 2)
    as (labels & K & Hlen & _ & _ & _ & _ & Hfind & _).
  - lia.
  - lia.
  - reflexivity.
  - unfold binary, sample. repeat (constructor; [lia|]). constructor.
  - exists labels, K. split; [exact Hlen | exact Hfind].
Defined.

Example findBlobs_sample :
  findBlobs sample 4 3 2 2
  = [ {| id := 1; area := 2;
         centroid := {| x := inject_Z 1; y := inject_Z 0 |};
         boundingBox := {| bb_x := 0; bb_y := 0;
                           bb_width := 2; bb_height := 1 |} |};
      {| id := 3; area := 2;
         centroid := {| x := inject_Z 2; y := inject_Z 2 |};
         boundingBox := {| bb_x := 1; bb_y := 2;
                           bb_width := 2; bb_height := 1 |} |} ].
Proof. vm_compute. reflexivity. Qed.

End BlobFacts.

(** ** The pipeline on a small scene

    A 24 x 24 frame of grey 128 with an 8 x 8 black square at (8, 8),
    against a background of plain grey 128. *)

Module PipelineExamples.
Import ImageProcessor.

Definition side : Z := 24.

Definition background : list Z :=
  side :: side :: replicate (Z.to_nat (side * side)) 128.

Definition frame : list Z :=
  side :: side ::
  ((fun i : nat =>
      let x := Z.of_nat i mod side in
      let y := Z.of_nat i / side in
      if (8 <=? x) && (x <? 16) && (8 <=? y) && (y <? 16) then 0 else 128)
     <$> seq 0 (Z.to_nat (side * side))).

Definition whole_frame : list Point :=
  [ {| x := 0; y := 0 |}; {| x := 24; y := 0 |};
    {| x := 24; y := 24 |}; {| x := 0; y := 24 |} ]%Q.

Definition corner : list Point :=
  [ {| x := 0; y := 0 |}; {| x := 6; y := 0 |};
    {| x := 6; y := 6 |}; {| x := 0; y := 6 |} ]%Q.

Definition options : AnalyzeOptions :=
  {| threshold := None; minBlobArea := Some 10; maxBlobArea := Some 1000;
     morphIterations := None |}.

Definition detected (polygon : list Point) : option (list Blob) :=
  match analyzeFrame RawCodec.toGrayscale RawCodec.toPng
          frame (Some background) polygon options with
  | Js.Ok r => Some (blobs r)
  | Js.Throw _ => None
  end.

(** With the zone covering the frame, the square is the one blob: the two
    erosions and two dilations give it back whole. *)
Example square_detected :
  detected whole_frame
  = Some [ {| id := 1; area := 64;
              centroid := {| x := inject_Z 12; y := inject_Z 12 |};
              boundingBox := {| bb_x := 8; bb_y := 8;
                                bb_width := 8; bb_height := 8 |} |} ].
Proof. vm_compute. reflexivity. Qed.

(** With the zone in a corner, away from the square, nothing is
    detected. *)
Example square_masked : detected corner = Some [].
Proof. vm_compute. reflexivity. Qed.

End PipelineExamples.

(** * Further properties *)

(** ** Differencing and masking *)

Module MaskFacts.
Import ImageProcessor LoopFacts.

Lemma computeDifference_lookup current background t (i : nat) :
  computeDifference current background t !! i
  = (fun c => match background !! i with
              | Some b => if Z.abs (c - b) >? t then 255 else 0
              | None => 0
              end) <$> current !! i.
Proof. unfold computeDifference. by rewrite list_lookup_imap. Qed.

Lemma binary_computeDifference current background t :
  binary (computeDifference current background t).
Proof.
  apply Forall_forall. intros v Hv.
  apply list_elem_of_lookup in Hv as [i Hi].
  rewrite computeDifference_lookup in Hi.
  destruct (current !! i); simpl in Hi; [|done]. injection Hi as <-.
  destruct (background !! i); [|by left].
  destruct (_ >? _); [by right | by left].
Qed.

Lemma computeDifference_same current t :
  0 <= t -> computeDifference current current t = alloc (length current).
Proof.
  intros Ht. apply list_eq. intros i. rewrite computeDifference_lookup.
  unfold alloc. destruct (current !! i) as [c|] eqn:Hc; simpl.
  - rewrite lookup_replicate_2 by (by eapply lookup_lt_Some).
    rewrite Z.sub_diag. change (Z.abs 0) with 0.
    by destruct (Z.gtb_spec 0 t); [lia|].
  - symmetry. apply lookup_replicate_None. by apply lookup_ge_None.
Qed.

(** X1.  What [computeDifference] returns.  The output has the length of
    the current plane and holds only 0 and 255; a pixel is 255 exactly when
    the background has a pixel there that differs by more than the
    threshold, so the pixels past the end of a shorter background are 0;
    two equally long planes give the same output in either order; and a
    plane differenced against itself is all zero for every threshold
    [>= 0]. *)
Theorem computeDifference_output (current background : list Z) (t : Z) :
  length (computeDifference current background t) = length current
  /\ binary (computeDifference current background t)
  /\ (forall i c,
        current !! i = Some c ->
        (computeDifference current background t !! i = Some 255
         <-> exists b, background !! i = Some b /\ t < Z.abs (c - b)))
  /\ (length current = length background ->
      computeDifference current background t
      = computeDifference background current t)
  /\ (0 <= t ->
      computeDifference current current t = alloc (length current)).
Proof.
  split; [|split; [|split; [|split]]].
  - apply length_imap.
  - apply binary_computeDifference.
  - intros i c Hc. rewrite computeDifference_lookup, Hc. simpl.
    destruct (background !! i) as [b|]; [|split; [done|by intros (?&?&?)]].
    destruct (Z.gtb_spec (Z.abs (c - b)) t); split.
    + intros _. exists b. split; [done|lia].
    + done.
    + done.
    + intros (b' & [= <-] & ?). lia.
  - intros Hlen. apply list_eq. intros i.
    rewrite !computeDifference_lookup.
    destruct (current !! i) as [c|] eqn:Hc,
             (background !! i) as [b|] eqn:Hb; simpl; try done.
    + replace (b - c) with (- (c - b)) by lia. by rewrite Z.abs_opp.
    + apply lookup_lt_Some in Hc. apply lookup_ge_None in Hb. lia.
    + apply lookup_lt_Some in Hb. apply lookup_ge_None in Hc. lia.
  - apply computeDifference_same.
Qed.

Lemma applyMask_lookup data mask (i : nat) :
  applyMask data mask !! i
  = (fun d => if strict_eq 255 (mask !! i) then d else 0) <$> data !! i.
Proof. unfold applyMask. by rewrite list_lookup_imap. Qed.

Lemma applyMask_zero (n : nat) mask : applyMask (alloc n) mask = alloc n.
Proof.
  apply list_eq. intros i. rewrite applyMask_lookup. unfold alloc.
  destruct (decide (i < n)%nat).
  - rewrite lookup_replicate_2 by done. simpl. by destruct (strict_eq _ _).
  - assert (replicate n 0 !! i = None) as ->; [|done].
    apply lookup_replicate_None. lia.
Qed.

Lemma binary_applyMask data mask :
  binary data -> binary (applyMask data mask).
Proof.
  intros Hbin. apply Forall_forall. intros v Hv.
  apply list_elem_of_lookup in Hv as [i Hi].
  rewrite applyMask_lookup in Hi.
  destruct (data !! i) as [d|] eqn:Hd; simpl in Hi; [|done].
  injection Hi as <-. destruct (strict_eq _ _); [|by left].
  eapply Forall_lookup_1 in Hbin; [|done]. done.
Qed.

(** X2.  What [applyMask] returns.  The output has the length of the data;
    a pixel keeps its value where the mask holds 255 and becomes 0
    everywhere else, including past the end of a shorter mask and where
    the mask holds a value other than 255; masking twice with the same
    mask is the same as masking once; and two masks applied in either
    order give the same image. *)
Theorem applyMask_output (data mask mask' : list Z) :
  length (applyMask data mask) = length data
  /\ (forall i d,
        data !! i = Some d ->
        applyMask data mask !! i
        = Some (if decide (mask !! i = Some 255) then d else 0))
  /\ applyMask (applyMask data mask) mask = applyMask data mask
  /\ applyMask (applyMask data mask) mask'
     = applyMask (applyMask data mask') mask.
Proof.
  split; [|split; [|split]].
  - apply length_imap.
  - intros i d Hd. rewrite applyMask_lookup, Hd. simpl. f_equal.
    case_decide as Hm.
    + by rewrite Hm.
    + destruct (mask !! i) as [m|]; [|done]. simpl.
      destruct (Z.eqb_spec m 255); [congruence|done].
  - apply list_eq. intros i. rewrite !applyMask_lookup.
    destruct (data !! i); simpl; [|done].
    by destruct (strict_eq 255 (mask !! i)).
  - apply list_eq. intros i. rewrite !applyMask_lookup.
    destruct (data !! i); simpl; [|done].
    by destruct (strict_eq 255 (mask !! i)), (strict_eq 255 (mask' !! i)).
Qed.

End MaskFacts.

(** ** Zone polygons *)

Module PolygonFacts.
Import ImageProcessor LoopFacts.

(** A loop of conditional stores of one value: afterwards an index
    holds that value if the loop reached it with the condition true,
    and what it held before otherwise. *)
Lemma foldl_cond_write_lookup {K} (idx : K -> Z) (test : K -> bool)
    (g : Z -> bool) (v : Z) (ks : list K) (buf : list Z) (j : nat) :
  (forall k, k ∈ ks -> 0 <= idx k /\ test k = g (idx k)) ->
  foldl (fun b k => if test k then write b (idx k) v else b) buf ks !! j
  = if bool_decide (Z.of_nat j ∈ idx <$> ks) && g (Z.of_nat j)
    then (fun _ => v) <$> buf !! j
    else buf !! j.
Proof.
  induction ks as [|k ks IH] using rev_ind; intros Hks; [done|].
  rewrite foldl_snoc, fmap_app. simpl.
  destruct (Hks k) as [Hk Hv]; [apply elem_of_app; right; by left|].
  assert (foldl (fun b k => if test k then write b (idx k) v else b)
                buf ks !! j
          = if bool_decide (Z.of_nat j ∈ idx <$> ks) && g (Z.of_nat j)
            then (fun _ => v) <$> buf !! j else buf !! j) as IH'.
  { apply IH. intros k' Hk'. apply Hks, elem_of_app. by left. }
  clear IH.
  destruct (decide (idx k = Z.of_nat j)) as [He|Hne].
  - rewrite (bool_decide_eq_true_2 (_ ∈ _ ++ _)).
    2:{ apply elem_of_app. right. rewrite <- He. by left. }
    rewrite Hv, He. simpl. destruct (g (Z.of_nat j)).
    + rewrite lookup_write by lia. rewrite decide_True by done.
      rewrite IH'. rewrite andb_true_r.
      case_bool_decide; [|done]. by destruct (buf !! j).
    + rewrite IH'. by rewrite andb_false_r.
  - rewrite (bool_decide_ext (Z.of_nat j ∈ (idx <$> ks) ++ [idx k])
                             (Z.of_nat j ∈ idx <$> ks)).
    2:{ rewrite elem_of_app, list_elem_of_singleton.
        split; [intros [?|?]; [done|congruence] | by left]. }
    destruct (test k); [|done].
    rewrite lookup_write by done. by rewrite decide_False.
Qed.

(** X3.  [createPolygonMask] rasterises the point-in-polygon test: the
    mask has one byte per pixel of the frame, and the byte of the pixel
    at column [x] of row [y] is 255 when [isPointInPolygon] accepts the
    point [(x, y)] and 0 otherwise. *)
Theorem createPolygonMask_pixels (polygon : list Point) (w h : Z) :
  0 <= w -> 0 <= h ->
  length (createPolygonMask polygon w h) = Z.to_nat (w * h)
  /\ forall x y,
       0 <= x < w -> 0 <= y < h ->
       read (createPolygonMask polygon w h) (y * w + x)
       = Some (if isPointInPolygon
                    {| x := inject_Z x; y := inject_Z y |} polygon
               then 255 else 0).
Proof.
  intros Hw Hh. unfold createPolygonMask.
  rewrite (foldl_nested
             (fun mask x y =>
                if isPointInPolygon
                     {| x := inject_Z x; y := inject_Z y |} polygon
                then write mask (y * w + x) 255 else mask)).
  split.
  - generalize (grid (seqZ 0 w) (seqZ 0 h)).
    intros ks. induction ks as [|k ks IH] using rev_ind.
    + apply length_replicate.
    + rewrite foldl_snoc. destruct (isPointInPolygon _ _); [|done].
      by rewrite length_write.
  - intros x y Hx Hy. unfold read.
    destruct (Z.ltb_spec (y * w + x) 0); [nia|].
    rewrite (foldl_cond_write_lookup
               (fun p : Z * Z => p.2 * w + p.1)
               (fun p : Z * Z =>
                  isPointInPolygon
                    {| x := inject_Z p.1; y := inject_Z p.2 |} polygon)
               (fun i =>
                  isPointInPolygon
                    {| x := inject_Z (i mod w); y := inject_Z (i / w) |}
                    polygon)).
    2:{ intros [x' y'] [Hx' Hy']%elem_of_grid.
        apply elem_of_seqZ in Hx'. apply elem_of_seqZ in Hy'. simpl.
        destruct (index_split w x' y') as [-> ->]; [lia|].
        split; [nia|done]. }
    rewrite Z2Nat.id by done.
    rewrite bool_decide_eq_true_2.
    2:{ apply elem_of_grid_index; [lia..|].
        destruct (index_split w x y) as [-> ->]; lia. }
    destruct (index_split w x y) as [-> ->]; [lia|].
    unfold alloc. rewrite lookup_replicate_2 by nia. simpl.
    by destruct (isPointInPolygon _ _).
Qed.

Lemma createPolygonMask_pixels_witness :
  (0 <= 4 /\ 0 <= 3)
  /\ length (createPolygonMask [] 4 3) = 12%nat.
Proof.
  split; [lia|].
  apply (createPolygonMask_pixels [] 4 3); lia.
Defined.

(** *** The crossing test *)

(** No edge is crossed when both of its ends lie on the same side of
    the horizontal line through the point. *)
Lemma crosses_same_side (p pi pj : Point) :
  Qgt_bool (y pi) (y p) = Qgt_bool (y pj) (y p) ->
  crosses p pi pj = false.
Proof.
  intros He. unfold crosses. cbv zeta. rewrite He.
  by destruct (Qgt_bool (y pj) (y p)).
Qed.

Lemma ray_loop_same_side (p : Point) (b : bool) (rest : list Point)
    (pj : Point) (inside : bool) :
  Qgt_bool (y pj) (y p) = b ->
  Forall (fun v => Qgt_bool (y v) (y p) = b) rest ->
  ray_loop p pj rest inside = inside.
Proof.
  intros Hpj Hrest. revert pj Hpj inside.
  induction Hrest as [|v rest Hv _ IH]; intros pj Hpj inside; [done|].
  simpl. rewrite crosses_same_side by congruence. by apply IH.
Qed.

(** X4.  A point is outside every polygon that lies entirely on one side
    of the horizontal line through it: strictly below it in [y], or at or
    above it.  In particular a point at the height of the lowest vertices
    (largest [y]) is outside, and the empty polygon contains no point. *)
Theorem isPointInPolygon_outside_band (p : Point) (polygon : list Point) :
  (Forall (fun v => (y v <= y p)%Q) polygon
   \/ Forall (fun v => (y p < y v)%Q) polygon) ->
  isPointInPolygon p polygon = false.
Proof.
  intros Hside. unfold isPointInPolygon.
  destruct (last polygon) as [pn|] eqn:Hlast; [|done].
  assert (pn ∈ polygon) as Hpn.
  { apply last_Some in Hlast as [l' ->]. apply elem_of_app. right.
    by left. }
  destruct Hside as [Hs|Hs].
  - apply (ray_loop_same_side p false).
    + rewrite Forall_forall in Hs. unfold Qgt_bool.
      apply negb_false_iff, Qle_bool_iff. by apply Hs.
    + eapply Forall_impl; [done|]. intros v Hv. unfold Qgt_bool.
      by apply negb_false_iff, Qle_bool_iff.
  - assert (forall v, (y p < y v)%Q -> Qgt_bool (y v) (y p) = true) as Hgt.
    { intros v Hv. unfold Qgt_bool. apply negb_true_iff.
      apply not_true_is_false. intros Hle%Qle_bool_iff.
      by apply Qlt_not_le in Hv. }
    apply (ray_loop_same_side p true).
    + rewrite Forall_forall in Hs. by apply Hgt, Hs.
    + eapply Forall_impl; [done|]. done.
Qed.

Lemma isPointInPolygon_outside_band_witness :
  isPointInPolygon {| x := 1; y := 5 |}
    [ {| x := 0; y := 0 |}; {| x := 4; y := 0 |}; {| x := 2; y := 5 |} ]
  = false.
Proof.
  apply isPointInPolygon_outside_band. left.
  repeat (constructor; [by vm_compute|]). constructor.
Defined.

(** *** Axis-aligned rectangles *)

Definition rectangle (x0 y0 x1 y1 : Q) : list Point :=
  [ {| x := x0; y := y0 |}; {| x := x1; y := y0 |};
    {| x := x1; y := y1 |}; {| x := x0; y := y1 |} ].

Lemma Qlt_bool_comp (a b b' : Q) :
  (b == b')%Q -> Qlt_bool a b = Qlt_bool a b'.
Proof.
  intros He. unfold Qlt_bool. f_equal. by apply Qleb_comp.
Qed.

Lemma vertical_edge (a c d xv : Q) :
  Qlt_bool a (Qplus (Qdiv (Qmult (Qminus xv xv) c) d) xv) = Qlt_bool a xv.
Proof.
  apply Qlt_bool_comp. unfold Qdiv. ring.
Qed.

Lemma Qle_bool_total_false (a b : Q) :
  Qle_bool a b = false -> Qle_bool b a = true.
Proof.
  intros Hab. apply Qle_bool_iff.
  destruct (Qlt_le_dec b a) as [Hlt|Hle]; [by apply Qlt_le_weak|].
  apply Qle_bool_iff in Hle. congruence.
Qed.

Lemma Qle_bool_trans (a b c : Q) :
  Qle_bool a b = true -> Qle_bool b c = true -> Qle_bool a c = true.
Proof.
  rewrite !Qle_bool_iff. apply Qle_trans.
Qed.

(** X5.  The convention on the boundary of a zone.  For an axis-aligned
    rectangle given by its corners in the order (x0, y0), (x1, y0),
    (x1, y1), (x0, y1) with [x0 <= x1] and [y0 <= y1], a point is inside
    exactly when [x0 <= x < x1] and [y0 <= y < y1]: the left and top edges
    belong to the zone, the right and bottom edges do not. *)
Theorem isPointInPolygon_rectangle (x0 y0 x1 y1 : Q) (p : Point) :
  (x0 <= x1)%Q -> (y0 <= y1)%Q ->
  isPointInPolygon p (rectangle x0 y0 x1 y1)
  = Qle_bool x0 (x p) && Qlt_bool (x p) x1
    && (Qle_bool y0 (y p) && Qlt_bool (y p) y1).
Proof.
  intros Hx%Qle_bool_iff Hy%Qle_bool_iff.
  unfold isPointInPolygon, rectangle. cbn [last ray_loop].
  unfold crosses. cbn [x y]. cbv zeta.
  rewrite !vertical_edge.
  unfold Qgt_bool, Qlt_bool.
  destruct (Qle_bool y0 (y p)) eqn:H0, (Qle_bool y1 (y p)) eqn:H1,
           (Qle_bool x0 (x p)) eqn:H2, (Qle_bool x1 (x p)) eqn:H3;
    cbn; try reflexivity;
    first [ pose proof (Qle_bool_trans _ _ _ Hx H3); congruence
          | pose proof (Qle_bool_trans _ _ _ Hy H1); congruence ].
Qed.

Lemma isPointInPolygon_rectangle_witness :
  ((2 <= 6)%Q /\ (1 <= 4)%Q)
  /\ isPointInPolygon {| x := 2; y := 1 |} (rectangle 2 1 6 4) = true
  /\ isPointInPolygon {| x := 6; y := 1 |} (rectangle 2 1 6 4) = false
  /\ isPointInPolygon {| x := 2; y := 4 |} (rectangle 2 1 6 4) = false.
Proof.
  split; [split; by vm_compute|].
  split; [|split].
  - by rewrite (isPointInPolygon_rectangle 2 1 6 4) by (by vm_compute).
  - by rewrite (isPointInPolygon_rectangle 2 1 6 4) by (by vm_compute).
  - by rewrite (isPointInPolygon_rectangle 2 1 6 4) by (by vm_compute).
Defined.

End PolygonFacts.

(** ** The opening only removes pixels *)

Module OpeningFacts.
Import ImageProcessor LoopFacts MorphologyFacts.

(** [sub a b]: every white pixel of [a] is a non-zero pixel of [b]. *)
Definition sub (a b : list Z) : Prop :=
  forall i : nat, a !! i = Some 255 -> exists v, b !! i = Some v /\ v <> 0.

Lemma pass_white test w h img (i : nat) :
  pass test w h img !! i = Some 255
  <-> (i < length img)%nat
      /\ on_border w h (Z.of_nat i mod w) (Z.of_nat i / w) = false
      /\ test img w (Z.of_nat i mod w) (Z.of_nat i / w) = true.
Proof.
  rewrite pass_imap, list_lookup_imap. split.
  - destruct (img !! i) as [v|] eqn:Hv; simpl; [|done].
    apply lookup_lt_Some in Hv.
    destruct (on_border _ _ _ _); [done|].
    destruct (test _ _ _ _); done.
  - intros (Hlt & Hb & Ht).
    destruct (lookup_lt_is_Some_2 img i Hlt) as [v ->]. simpl.
    by rewrite Hb, Ht.
Qed.

Lemma length_iter_pass test w h (n : nat) img :
  length (Nat.iter n (pass test w h) img) = length img.
Proof.
  induction n as [|n IH]; [done|]. simpl. by rewrite length_pass.
Qed.

Lemma offsets_bound (d : Z * Z) :
  d ∈ offsets -> -1 <= d.1 <= 1 /\ -1 <= d.2 <= 1.
Proof.
  unfold offsets. intros Hd.
  repeat (apply elem_of_cons in Hd as [->|Hd]; [simpl; lia|]).
  by apply elem_of_nil in Hd.
Qed.

Lemma offsets_opp (d : Z * Z) : d ∈ offsets -> (- d.1, - d.2) ∈ offsets.
Proof.
  unfold offsets. intros Hd.
  repeat (apply elem_of_cons in Hd as [->|Hd];
          [vm_compute; set_solver|]).
  by apply elem_of_nil in Hd.
Qed.

(** A pixel that survives an erosion followed by a dilation was not
    black. *)
Lemma dilate_erode_sub w h img :
  sub (pass anyWhite w h (pass allWhite w h img)) img.
Proof.
  intros i (Hlt & Hb & Hany)%pass_white.
  rewrite length_pass in Hlt.
  destruct (lookup_lt_is_Some_2 img i Hlt) as [v Hv].
  exists v. split; [done|]. intros ->.
  unfold anyWhite in Hany. apply existsb_exists in Hany as (d & Hd & Hr).
  apply list_elem_of_In in Hd.
  pose proof (offsets_bound d Hd) as [Hd1 Hd2].
  unfold on_border in Hb.
  destruct (Z.ltb_spec (Z.of_nat i mod w) 1); [done|].
  destruct (Z.leb_spec (w - 1) (Z.of_nat i mod w)); [done|].
  destruct (Z.ltb_spec (Z.of_nat i / w) 1); [done|].
  destruct (Z.leb_spec (h - 1) (Z.of_nat i / w)); [done|].
  set (x := Z.of_nat i mod w) in *. set (y := Z.of_nat i / w) in *.
  unfold read in Hr.
  destruct (Z.ltb_spec ((y + d.2) * w + (x + d.1)) 0); [done|].
  destruct (pass allWhite w h img !! _) as [e|] eqn:He; [|done].
  simpl in Hr. apply Z.eqb_eq in Hr as ->.
  apply pass_white in He as (_ & _ & Hall).
  rewrite Z2Nat.id in Hall by done.
  destruct (index_split w (x + d.1) (y + d.2)) as [Hm Hq]; [lia|].
  rewrite Hm, Hq in Hall.
  unfold allWhite in Hall. rewrite forallb_forall in Hall.
  specialize (Hall (- d.1, - d.2)).
  rewrite <- list_elem_of_In in Hall.
  specialize (Hall (offsets_opp d Hd)). simpl in Hall.
  replace ((y + d.2 + - d.2) * w + (x + d.1 + - d.1)) with (Z.of_nat i)
    in Hall.
  2:{ unfold x, y. pose proof (index_join w (Z.of_nat i)). lia. }
  unfold read in Hall. destruct (Z.ltb_spec (Z.of_nat i) 0); [lia|].
  rewrite Nat2Z.id, Hv in Hall. done.
Qed.

(** Dilation is monotone. *)
Lemma dilate_mono w h a b :
  length a = length b ->
  (forall i : nat, a !! i = Some 255 -> b !! i = Some 255) ->
  forall i : nat,
    pass anyWhite w h a !! i = Some 255 ->
    pass anyWhite w h b !! i = Some 255.
Proof.
  intros Hlen Hab i (Hlt & Hb & Hany)%pass_white.
  apply pass_white. split; [lia|]. split; [done|].
  unfold anyWhite in *. apply existsb_exists in Hany as (d & Hd & Hr).
  apply existsb_exists. exists d. split; [done|].
  unfold read in *. destruct (_ <? 0); [done|].
  destruct (a !! _) as [v|] eqn:Hv; [|done]. simpl in Hr.
  apply Z.eqb_eq in Hr as ->. by rewrite (Hab _ Hv).
Qed.

Lemma nonzero_white img (i : nat) v :
  binary img -> img !! i = Some v -> v <> 0 -> img !! i = Some 255.
Proof.
  intros Hbin Hv Hne. eapply Forall_lookup_1 in Hbin; [|exact Hv].
  destruct Hbin as [->| ->]; done.
Qed.

Lemma opening_sub w h (n : nat) img :
  sub (Nat.iter n (pass anyWhite w h) (Nat.iter n (pass allWhite w h) img))
      img.
Proof.
  revert img. induction n as [|n IH]; intros img.
  - intros i Hi. exists 255. done.
  - rewrite (Nat.iter_succ_r n (pass allWhite w h)), Nat.iter_succ.
    intros i Hi.
    apply (dilate_erode_sub w h img).
    revert i Hi. apply dilate_mono.
    + by rewrite !length_iter_pass.
    + intros i Hi. destruct (IH _ i Hi) as (v & Hv & Hne).
      eapply nonzero_white; [apply binary_pass|done..].
Qed.

(** X6.  [morphologyClean] only removes pixels.  For every buffer, frame
    size and iteration count the output has the length of the input, and
    a pixel that is 255 in the output was non-zero in the input (so, on a
    binary image, was 255); with at least one iteration the output holds
    only 0 and 255 and is 0 on the 1-pixel border of the frame. *)
Theorem morphologyClean_shrinks (data : list Z) (w h : Z) (n : nat) :
  length (morphologyClean data w h n) = length data
  /\ (forall i : nat,
        morphologyClean data w h n !! i = Some 255 ->
        exists v, data !! i = Some v /\ v <> 0)
  /\ (n <> 0%nat ->
      binary (morphologyClean data w h n)
      /\ zero_border w h (morphologyClean data w h n)).
Proof.
  unfold morphologyClean. cbv zeta.
  rewrite erode_pass_pass, dilate_pass_pass.
  split; [|split].
  - by rewrite !length_iter_pass.
  - apply opening_sub.
  - intros Hn. destruct n as [|n]; [done|]. cbn [Nat.iter].
    split; [apply binary_pass | apply zero_border_pass].
Qed.

(** A black image stays black. *)
Lemma pass_zero test w h (k : nat) :
  (forall i : nat,
     (i < k)%nat ->
     on_border w h (Z.of_nat i mod w) (Z.of_nat i / w) = false ->
     test (alloc k) w (Z.of_nat i mod w) (Z.of_nat i / w) = false) ->
  pass test w h (alloc k) = alloc k.
Proof.
  intros Htest. apply list_eq. intros i.
  rewrite pass_imap, list_lookup_imap. unfold alloc in *.
  destruct (replicate k 0 !! i) as [v|] eqn:Hv; simpl; [|done].
  apply lookup_replicate in Hv as [-> Hlt].
  destruct (on_border _ _ _ _) eqn:Hb; [done|].
  by rewrite Htest.
Qed.

Lemma erode_zero w h (k : nat) : pass allWhite w h (alloc k) = alloc k.
Proof.
  apply pass_zero. intros i Hlt Hb. unfold allWhite.
  apply not_true_is_false. rewrite forallb_forall. intros Hall.
  specialize (Hall (0, 0)). simpl in Hall.
  unfold on_border in Hb.
  destruct (Z.ltb_spec (Z.of_nat i mod w) 1); [done|].
  destruct (Z.leb_spec (w - 1) (Z.of_nat i mod w)); [done|].
  replace ((Z.of_nat i / w + 0) * w + (Z.of_nat i mod w + 0))
    with (Z.of_nat i) in Hall.
  2:{ pose proof (index_join w (Z.of_nat i)). lia. }
  unfold read, alloc in Hall.
  destruct (Z.ltb_spec (Z.of_nat i) 0); [lia|].
  rewrite Nat2Z.id, lookup_replicate_2 in Hall by done.
  simpl in Hall. discriminate Hall.
  unfold offsets. vm_compute. auto 10.
Qed.

Lemma dilate_zero w h (k : nat) : pass anyWhite w h (alloc k) = alloc k.
Proof.
  apply pass_zero. intros i Hlt Hb. unfold anyWhite.
  apply not_true_is_false. intros (d & _ & Hr)%existsb_exists.
  unfold read in Hr. destruct (_ <? 0); [done|].
  destruct (alloc k !! _) as [v|] eqn:Hv; [|done]. simpl in Hr.
  apply Z.eqb_eq in Hr as ->.
  by apply lookup_replicate in Hv as [? _].
Qed.

Lemma morphologyClean_zero (k : nat) (w h : Z) (n : nat) :
  morphologyClean (alloc k) w h n = alloc k.
Proof.
  unfold morphologyClean. cbv zeta.
  rewrite erode_pass_pass, dilate_pass_pass.
  assert (Nat.iter n (pass allWhite w h) (alloc k) = alloc k) as ->.
  { induction n as [|n IH]; [done|]. simpl. rewrite IH. apply erode_zero. }
  induction n as [|n IH]; [done|]. simpl. rewrite IH. apply dilate_zero.
Qed.

End OpeningFacts.

(** ** What every reported blob satisfies *)

Module BlobInvariants.
Import ImageProcessor LoopFacts BlobFacts.

Lemma round_div_between (a b s n : Z) :
  0 < n -> n * a <= s <= n * b -> a <= Js.round_div s n <= b.
Proof.
  intros Hn Hs. unfold Js.round_div. split.
  - apply Z.div_le_lower_bound; nia.
  - assert ((2 * s + n) / (2 * n) < b + 1); [|lia].
    apply Z.div_lt_upper_bound; nia.
Qed.

Lemma sumZ_between (l : list Z) (a b : Z) :
  (forall v, v ∈ l -> a <= v <= b) ->
  Z.of_nat (length l) * a <= sumZ l <= Z.of_nat (length l) * b.
Proof.
  induction l as [|v l IH]; intros Hl; [simpl; lia|].
  unfold sumZ in *. cbn [foldr length].
  specialize (Hl v (list_elem_of_here _ _)) as Hv.
  destruct IH as [IH1 IH2]; [intros; apply Hl; by right|]. nia.
Qed.

Lemma lmin_lmax_between (l : list Z) (lo hi : Z) :
  l <> [] -> (forall v, v ∈ l -> lo <= v < hi) ->
  lo <= lmin l /\ lmax l < hi /\ forall v, v ∈ l -> lmin l <= v <= lmax l.
Proof.
  intros Hne Hl. unfold lmin, lmax.
  destruct (foldr_min_spec (hd 0 l) l) as (_ & Hmin & Hmin_in).
  destruct (foldr_max_spec (hd 0 l) l) as (_ & Hmax & Hmax_in).
  assert (hd 0 l ∈ l) as Hhd by (destruct l; [done | by left]).
  assert (foldr Z.min (hd 0 l) l ∈ l) as Hmin'
    by (by destruct Hmin_in as [->|]).
  assert (foldr Z.max (hd 0 l) l ∈ l) as Hmax'
    by (by destruct Hmax_in as [->|]).
  apply Hl in Hmin'. apply Hl in Hmax'.
  split; [lia|]. split; [lia|]. intros v Hv.
  specialize (Hmin v Hv). specialize (Hmax v Hv). lia.
Qed.

Lemma length_grid (xs ys : list Z) :
  length (grid xs ys) = (length xs * length ys)%nat.
Proof.
  unfold grid. induction ys as [|y ys IH]; [simpl; lia|].
  rewrite bind_cons, length_app, IH. cbn [length].
  assert (length (xs ≫= (fun x => [(x, y)])) = length xs) as ->; [|lia].
  clear. induction xs as [|x xs IH]; [done|].
  rewrite bind_cons, length_app, IH. done.
Qed.

Lemma omap_sorted {A B} (R : relation A) (key : B -> A)
    (f : A -> option B) (l : list A) :
  (forall a b, f a = Some b -> key b = a) ->
  StronglySorted R l -> StronglySorted R (key <$> omap f l).
Proof.
  intros Hkey Hl. induction Hl as [|a l Hl IH Ha]; [constructor|].
  cbn [omap list_omap]. destruct (f a) as [b|] eqn:Hb; [|done].
  rewrite fmap_cons, (Hkey a b Hb). constructor; [done|].
  apply Forall_forall. intros a' Ha'.
  apply list_elem_of_fmap in Ha' as (b' & -> & Hb').
  apply list_elem_of_omap in Hb' as (a'' & Hin & Hf).
  rewrite (Hkey _ _ Hf). rewrite Forall_forall in Ha. by apply Ha.
Qed.

Lemma seqZ_sorted (m : Z) (n : nat) :
  StronglySorted Z.lt (seqZ m (Z.of_nat n)).
Proof.
  revert m. induction n as [|n IH]; intros m.
  - constructor.
  - rewrite Nat2Z.inj_succ, seqZ_cons by lia.
    replace (Z.pred (Z.succ (Z.of_nat n))) with (Z.of_nat n) by lia.
    constructor; [apply IH|].
    apply Forall_forall. intros v Hv%elem_of_seqZ. lia.
Qed.

Lemma members_lookup (labels : list Z) (l : Z) (i : nat) :
  i ∈ members labels l <-> labels !! i = Some l.
Proof.
  unfold members. rewrite list_elem_of_filter, elem_of_seq. split.
  - by intros [? _].
  - intros Hi. split; [done|]. apply lookup_lt_Some in Hi. lia.
Qed.

(** The pixels of one label, seen in the frame. *)
Lemma members_area (w h : Z) (labels : list Z) (l : Z) :
  0 <= w -> 0 <= h -> length labels = Z.to_nat (w * h) ->
  let ms := members labels l in
  let minx := lmin (col w <$> ms) in
  let maxx := lmax (col w <$> ms) in
  let miny := lmin (row w <$> ms) in
  let maxy := lmax (row w <$> ms) in
  ms <> [] ->
  (0 <= minx /\ minx <= maxx /\ maxx < w)
  /\ (0 <= miny /\ miny <= maxy /\ maxy < h)
  /\ Z.of_nat (length ms) <= (maxx - minx + 1) * (maxy - miny + 1)
  /\ minx <= Js.round_div (sumZ (col w <$> ms)) (Z.of_nat (length ms))
     <= maxx
  /\ miny <= Js.round_div (sumZ (row w <$> ms)) (Z.of_nat (length ms))
     <= maxy.
Proof.
  intros Hw Hh Hlen ms minx maxx miny maxy Hne.
  assert (forall i, i ∈ ms -> (i < Z.to_nat (w * h))%nat) as Hms.
  { intros i Hi%members_lookup. apply lookup_lt_Some in Hi. lia. }
  assert (col w <$> ms <> []) as Hcne by (by destruct ms).
  assert (row w <$> ms <> []) as Hrne by (by destruct ms).
  destruct (lmin_lmax_between (col w <$> ms) 0 w Hcne) as (Hx0 & Hx1 & Hx).
  { intros v (i & -> & Hi)%list_elem_of_fmap.
    destruct (pixel_of_index w h Hw Hh i (Hms i Hi)) as [[? ?] _]. done. }
  destruct (lmin_lmax_between (row w <$> ms) 0 h Hrne) as (Hy0 & Hy1 & Hy).
  { intros v (i & -> & Hi)%list_elem_of_fmap.
    destruct (pixel_of_index w h Hw Hh i (Hms i Hi)) as [[? ?] _]. done. }
  fold minx maxx in Hx0, Hx1, Hx. fold miny maxy in Hy0, Hy1, Hy.
  assert (exists i, i ∈ ms) as [i0 Hi0].
  { destruct ms as [|i ?]; [done|]. exists i. by left. }
  assert (minx <= maxx) as Hxx.
  { specialize (Hx (col w i0)). rewrite list_elem_of_fmap in Hx.
    destruct Hx; [by exists i0|lia]. }
  assert (miny <= maxy) as Hyy.
  { specialize (Hy (row w i0)). rewrite list_elem_of_fmap in Hy.
    destruct Hy; [by exists i0|lia]. }
  assert (0 < Z.of_nat (length ms)) as Hpos by (destruct ms; [done|simpl; lia]).
  split; [lia|]. split; [lia|]. split; [|split].
  - assert ((fun i => (col w i, row w i)) <$> ms
            ⊆+ grid (seqZ minx (maxx - minx + 1))
                    (seqZ miny (maxy - miny + 1))) as Hsub.
    { apply NoDup_submseteq.
      - apply NoDup_fmap_2_strong.
        + intros i j Hi Hj [= Hc Hr].
          destruct (pixel_of_index w h Hw Hh i (Hms i Hi)) as [_ Hidx].
          destruct (pixel_of_index w h Hw Hh j (Hms j Hj)) as [_ Hjdx].
          unfold index in *. simpl in *. rewrite Hc, Hr in Hidx. lia.
        + unfold ms, members. apply NoDup_filter, NoDup_seq.
      - intros [x y] (i & [= -> ->] & Hi)%list_elem_of_fmap.
        apply elem_of_grid. rewrite !elem_of_seqZ.
        specialize (Hx (col w i)). specialize (Hy (row w i)).
        rewrite list_elem_of_fmap in Hx, Hy.
        destruct Hx; [by exists i|]. destruct Hy; [by exists i|]. lia. }
    apply submseteq_length in Hsub.
    rewrite length_fmap, length_grid, !length_seqZ in Hsub. nia.
  - apply round_div_between; [done|].
    rewrite <- (length_fmap (col w)). apply sumZ_between. done.
  - apply round_div_between; [done|].
    rewrite <- (length_fmap (row w)). apply sumZ_between. done.
Qed.

(** The invariants of the blobs, gathered for the callers of
    [findBlobs]. *)
Lemma findBlobs_inside (bin : list Z) (w h minArea maxArea : Z) :
  0 <= w -> 0 <= h -> length bin = Z.to_nat (w * h) -> binary bin ->
  StronglySorted Z.lt (id <$> findBlobs bin w h minArea maxArea)
  /\ forall b,
       b ∈ findBlobs bin w h minArea maxArea ->
       let box := boundingBox b in
       1 <= id b
       /\ 1 <= area b /\ minArea <= area b <= maxArea
       /\ (0 <= bb_x box /\ 1 <= bb_width box
           /\ bb_x box + bb_width box <= w)
       /\ (0 <= bb_y box /\ 1 <= bb_height box
           /\ bb_y box + bb_height box <= h)
       /\ area b <= bb_width box * bb_height box
       /\ exists cx cy,
            centroid b = {| x := inject_Z cx; y := inject_Z cy |}
            /\ bb_x box <= cx < bb_x box + bb_width box
            /\ bb_y box <= cy < bb_y box + bb_height box.
Proof.
  intros Hw Hh Hlen Hbin.
  destruct (scan_spec bin w h Hw Hh Hlen Hbin (4 * length bin + 1)
              minArea maxArea) as (S & Hrun & I); [lia|].
  assert (Hfind : findBlobs bin w h minArea maxArea
                  = emitted w minArea maxArea (labels S) (currentLabel S)).
  { unfold findBlobs, findBlobs_fuel. rewrite Hrun. simpl.
    apply (si_found _ _ _ _ _ _ _ I). }
  rewrite Hfind. unfold emitted. split.
  - apply omap_sorted.
    + intros l b. cbv zeta. destruct (_ && _); [|done]. by intros [= <-].
    + pose proof (si_K _ _ _ _ _ _ _ I) as HK.
      rewrite <- (Z2Nat.id (currentLabel S)) by done. apply seqZ_sorted.
  - intros b (l & Hl & Hb)%list_elem_of_omap. apply elem_of_seqZ in Hl.
    cbv zeta in Hb.
    destruct (Z.geb_spec (area (component_blob w (labels S) l)) minArea);
      [|done].
    destruct (Z.leb_spec (area (component_blob w (labels S) l)) maxArea);
      [|done].
    simpl in Hb. injection Hb as <-.
    destruct (si_seed _ _ _ _ _ _ _ I l) as (i & _ & Hi); [lia|].
    assert (members (labels S) l <> []) as Hne.
    { apply members_lookup in Hi. intros Hnil. rewrite Hnil in Hi.
      by apply elem_of_nil in Hi. }
    destruct (members_area w h (labels S) l Hw Hh
                (si_len _ _ _ _ _ _ _ I) Hne)
      as (Hx & Hy & Harea & Hcx & Hcy).
    assert (1 <= Z.of_nat (length (members (labels S) l))).
    { destruct (members (labels S) l); [done|simpl; lia]. }
    cbn [component_blob id area centroid boundingBox
         bb_x bb_y bb_width bb_height] in *.
    split; [lia|]. split; [lia|]. split; [lia|].
    split; [lia|]. split; [lia|]. split; [lia|].
    eexists _, _. split; [reflexivity|]. lia.
Qed.


(** X7.  What every blob returned by [findBlobs] satisfies, on a binary
    [w] x [h] frame.  The blobs come in strictly increasing order of id,
    ids start at 1, and for every blob: the area is at least 1 and within
    [minArea, maxArea]; the bounding box is not empty and lies inside the
    frame; the area is at most the width times the height of the box; and
    the centroid has integer coordinates that lie inside the box. *)
Theorem findBlobs_blobs (bin : list Z) (w h minArea maxArea : Z) :
  0 <= w -> 0 <= h -> length bin = Z.to_nat (w * h) -> binary bin ->
  StronglySorted Z.lt (id <$> findBlobs bin w h minArea maxArea)
  /\ forall b,
       b ∈ findBlobs bin w h minArea maxArea ->
       let box := boundingBox b in
       1 <= id b
       /\ 1 <= area b /\ minArea <= area b <= maxArea
       /\ (0 <= bb_x box /\ 1 <= bb_width box
           /\ bb_x box + bb_width box <= w)
       /\ (0 <= bb_y box /\ 1 <= bb_height box
           /\ bb_y box + bb_height box <= h)
       /\ area b <= bb_width box * bb_height box
       /\ exists cx cy,
            centroid b = {| x := inject_Z cx; y := inject_Z cy |}
            /\ bb_x box <= cx < bb_x box + bb_width box
            /\ bb_y box <= cy < bb_y box + bb_height box.
Proof. apply findBlobs_inside. Qed.

Lemma findBlobs_blobs_witness :
  StronglySorted Z.lt (id <$> findBlobs sample 4 3 2 2).
Proof.
  apply (findBlobs_blobs sample 4 3 2 2).
  - lia.
  - lia.
  - reflexivity.
  - unfold binary, sample. repeat (constructor; [lia|]). constructor.
Defined.

(** *** Frames without foreground *)

Lemma scan_no_white (fuel : nat) (bin : list Z) (w h minArea maxArea : Z)
    (s : ScanState) :
  255 ∉ bin ->
  foldl (fun s y =>
           foldl (fun s x =>
                    s ← s;
                    scan_pixel fuel bin w h minArea maxArea s x y)
                 s (seqZ 0 w))
        (Some s) (seqZ 0 h)
  = Some s.
Proof.
  intros Hno.
  rewrite (foldl_nested
             (fun s x y =>
                s ← s; scan_pixel fuel bin w h minArea maxArea s x y)).
  induction (grid (seqZ 0 w) (seqZ 0 h)) as [|p ps IH] using rev_ind;
    [done|].
  rewrite foldl_snoc, IH. simpl. unfold scan_pixel.
  assert (strict_eq 255 (read bin (p.2 * w + p.1)) = false) as ->; [|done].
  unfold read. destruct (_ <? 0); [done|].
  destruct (bin !! _) as [v|] eqn:Hv; [|done]. simpl.
  apply Z.eqb_neq. intros ->. apply Hno. by eapply list_elem_of_lookup_2.
Qed.

(** X8.  A frame with no pixel equal to 255 has no blob, whatever its
    other values, its length and the frame size given. *)
Theorem findBlobs_no_foreground (bin : list Z) (w h minArea maxArea : Z) :
  255 ∉ bin -> findBlobs bin w h minArea maxArea = [].
Proof.
  intros Hno. unfold findBlobs, findBlobs_fuel, scan.
  by rewrite scan_no_white.
Qed.

Lemma findBlobs_no_foreground_witness :
  findBlobs [0; 128; 254; 0] 2 2 1 10 = [].
Proof.
  apply findBlobs_no_foreground. intros Hin.
  repeat (apply elem_of_cons in Hin as [Hin|Hin]; [discriminate Hin|]).
  by apply elem_of_nil in Hin.
Defined.

Lemma findBlobs_alloc (k : nat) (w h minArea maxArea : Z) :
  findBlobs (alloc k) w h minArea maxArea = [].
Proof.
  unfold findBlobs, findBlobs_fuel, scan. rewrite scan_no_white; [done|].
  intros [? _]%elem_of_replicate. done.
Qed.

End BlobInvariants.

(** ** The analysis of one frame *)

Module AnalyzeFacts.
Import ImageProcessor LoopFacts MaskFacts OpeningFacts BlobInvariants.

Lemma foldl_add_replicate (n : nat) (v a : Z) :
  foldl Z.add a (replicate n v) = a + Z.of_nat n * v.
Proof.
  revert a. induction n as [|n IH]; intros a; [simpl; lia|].
  cbn [replicate foldl]. rewrite IH. lia.
Qed.

Lemma mean_threshold_uniform (n : nat) (v t : Z) :
  0 <= t -> mean_threshold (replicate n v) t = alloc n.
Proof.
  intros Ht. unfold mean_threshold. cbv zeta.
  rewrite foldl_add_replicate, length_replicate.
  unfold alloc. apply list_eq. intros i. rewrite list_lookup_fmap.
  destruct (decide (i < n)%nat).
  - rewrite !lookup_replicate_2 by done. simpl.
    replace (v * Z.of_nat n - (0 + Z.of_nat n * v)) with 0 by lia.
    change (Z.abs 0) with 0.
    by destruct (Z.gtb_spec 0 (t * Z.of_nat n)); [nia|].
  - assert (forall x : Z, replicate n x !! i = None) as Hnone.
    { intros x. apply lookup_replicate_None. lia. }
    by rewrite !Hnone.
Qed.

Lemma binary_mean_threshold current t : binary (mean_threshold current t).
Proof.
  unfold mean_threshold. cbv zeta. apply Forall_fmap, Forall_forall.
  intros p _. simpl. destruct (_ >? _); [by right | by left].
Qed.

Lemma binary_morphologyClean data w h n :
  binary data -> binary (morphologyClean data w h n).
Proof.
  intros Hbin. destruct n as [|n]; [done|].
  unfold morphologyClean. cbv zeta. cbn [Nat.iter].
  rewrite MorphologyFacts.dilate_pass_pass. apply MorphologyFacts.binary_pass.
Qed.

Lemma length_morphologyClean data w h n :
  length (morphologyClean data w h n) = length data.
Proof.
  unfold morphologyClean. cbv zeta.
  rewrite MorphologyFacts.erode_pass_pass, MorphologyFacts.dilate_pass_pass.
  by rewrite !length_iter_pass.
Qed.

Section Codec.
Variable toGrayscale : list Z -> Js.Result Gray.
Variable toPng : Gray -> list Z.

(** The result of an analysis that finds nothing in a decoded frame. *)
Definition nothing (g : Gray) : AnalysisResult :=
  {| blobs := [];
     count := 0;
     mask := toPng {| data := alloc (length (data g));
                      width := width g; height := height g |} |}.

(** Analysed against a background that decodes to the same picture,
    a frame shows nothing. *)
Lemma analyzeFrame_unchanged
    (frame background : list Z) (g : Gray) (polygon : list Point)
    (options : AnalyzeOptions) :
  toGrayscale frame = Js.Ok g ->
  toGrayscale background = Js.Ok g ->
  0 <= default 30 (threshold options) ->
  analyzeFrame toGrayscale toPng frame (Some background) polygon options
  = Js.Ok (nothing g).
Proof.
  intros Hg Hb Ht. unfold analyzeFrame, nothing. cbv zeta.
  rewrite Hg. simpl. rewrite Hb. simpl. rewrite !Z.eqb_refl. simpl.
  rewrite computeDifference_same by done.
  rewrite morphologyClean_zero, applyMask_zero, findBlobs_alloc. done.
Qed.

(** X9.  No change, no vehicle.  When the threshold is not negative (the
    default is 30): a frame analysed against a background that decodes to
    the same picture gives no blob, count 0 and a black mask, for every
    zone polygon, area bounds and iteration count; and so does, without a
    background, a frame whose pixels all have the same value. *)
Theorem analyzeFrame_no_change
    (frame background : list Z) (g : Gray) (polygon : list Point)
    (options : AnalyzeOptions) :
  toGrayscale frame = Js.Ok g ->
  0 <= default 30 (threshold options) ->
  (toGrayscale background = Js.Ok g ->
   analyzeFrame toGrayscale toPng frame (Some background) polygon options
   = Js.Ok (nothing g))
  /\ ((exists v, data g = replicate (length (data g)) v) ->
      analyzeFrame toGrayscale toPng frame None polygon options
      = Js.Ok (nothing g)).
Proof.
  intros Hg Ht. split.
  - intros Hb. by apply analyzeFrame_unchanged.
  - unfold analyzeFrame, nothing. cbv zeta. rewrite Hg. simpl.
    intros [v Hv]. rewrite Hv at 1 2 3.
    rewrite mean_threshold_uniform by done.
    rewrite morphologyClean_zero, applyMask_zero, findBlobs_alloc. done.
Qed.

(** X10.  [analyzeFrame] fails in three cases only: the frame does not
    decode, the background does not decode, or the two differ in width
    or height (the message is then "Frame dimensions do not match
    background"); the decoder's error is passed on unchanged.  In every
    other case it succeeds, [count] is the number of blobs, and, when the
    plane of the frame has [width * height] pixels, the blobs have
    strictly increasing ids and each has its area within the bounds in
    force (500 and 50000 unless given) and its bounding box inside the
    frame. *)
Theorem analyzeFrame_result
    (frame : list Z) (background : option (list Z))
    (polygon : list Point) (options : AnalyzeOptions) :
  let result :=
    analyzeFrame toGrayscale toPng frame background polygon options in
  (forall msg, toGrayscale frame = Js.Throw msg -> result = Js.Throw msg)
  /\ (forall g b msg,
        toGrayscale frame = Js.Ok g -> background = Some b ->
        toGrayscale b = Js.Throw msg -> result = Js.Throw msg)
  /\ (forall g b bg,
        toGrayscale frame = Js.Ok g -> background = Some b ->
        toGrayscale b = Js.Ok bg ->
        width g <> width bg \/ height g <> height bg ->
        result = Js.Throw "Frame dimensions do not match background")
  /\ (forall g,
        toGrayscale frame = Js.Ok g ->
        (background = None
         \/ exists b bg,
              background = Some b /\ toGrayscale b = Js.Ok bg
              /\ width g = width bg /\ height g = height bg) ->
        exists r,
          result = Js.Ok r
          /\ count r = Z.of_nat (length (blobs r))
          /\ (0 <= width g -> 0 <= height g ->
              length (data g) = Z.to_nat (width g * height g) ->
              StronglySorted Z.lt (id <$> blobs r)
              /\ forall b, b ∈ blobs r ->
                   default 500 (minBlobArea options) <= area b
                     <= default 50000 (maxBlobArea options)
                   /\ 0 <= bb_x (boundingBox b)
                   /\ bb_x (boundingBox b) + bb_width (boundingBox b)
                      <= width g
                   /\ 0 <= bb_y (boundingBox b)
                   /\ bb_y (boundingBox b) + bb_height (boundingBox b)
                      <= height g)).
Proof.
  unfold analyzeFrame. cbv zeta.
  split; [|split; [|split]].
  - by intros msg ->.
  - intros g b msg -> -> Hb. simpl. by rewrite Hb.
  - intros g b bg -> -> Hb Hdim. simpl. rewrite Hb. simpl.
    destruct (Z.eqb_spec (width g) (width bg)),
             (Z.eqb_spec (height g) (height bg)); simpl; try done.
    destruct Hdim; done.
  - intros g -> Hbg. simpl.
    assert (exists diff,
              match background with
              | Some b =>
                  bg ← toGrayscale b;
                  if negb (width g =? width bg)
                     || negb (height g =? height bg)
                  then Js.Throw "Frame dimensions do not match background"
                  else Js.Ok (computeDifference
                                (data g) (data bg)
                                (default 30 (threshold options)))
              | None =>
                  Js.Ok (mean_threshold
                           (data g) (default 30 (threshold options)))
              end = Js.Ok diff
              /\ binary diff /\ length diff = length (data g))
      as (diff & -> & Hbin & Hlen).
    { destruct Hbg as [->|(b & bg & -> & Hb & Hw & Hh)].
      - eexists. split; [done|].
        split; [apply binary_mean_threshold|].
        unfold mean_threshold. cbv zeta. apply length_fmap.
      - rewrite Hb. simpl. rewrite Hw, Hh, !Z.eqb_refl. simpl.
        eexists. split; [done|].
        split; [apply binary_computeDifference | apply length_imap]. }
    simpl. eexists. split; [done|]. simpl. split; [done|].
    intros Hw Hh Hl.
    destruct (findBlobs_inside
                (applyMask
                   (morphologyClean
                      diff (width g) (height g)
                      (default 2%nat (morphIterations options)))
                   (createPolygonMask polygon (width g) (height g)))
                (width g) (height g)
                (default 500 (minBlobArea options))
                (default 50000 (maxBlobArea options)) Hw Hh)
      as [Hsorted Hblobs].
    + unfold applyMask. rewrite length_imap, length_morphologyClean. lia.
    + by apply binary_applyMask, binary_morphologyClean.
    + split; [done|]. intros b Hb.
      destruct (Hblobs b Hb) as (_ & _ & ? & (? & ? & ?) & (? & ? & ?) & _).
      lia.
Qed.

End Codec.

Lemma analyzeFrame_no_change_witness :
  analyzeFrame RawCodec.toGrayscale RawCodec.toPng
    [2; 2; 90; 91; 92; 93] (Some [2; 2; 90; 91; 92; 93])
    RawCodec.square
    {| threshold := None; minBlobArea := None; maxBlobArea := None;
       morphIterations := None |}
  = Js.Ok {| blobs := []; count := 0; mask := [2; 2; 0; 0; 0; 0] |}.
Proof.
  destruct (analyzeFrame_no_change
              RawCodec.toGrayscale RawCodec.toPng
              [2; 2; 90; 91; 92; 93] [2; 2; 90; 91; 92; 93]
              {| data := [90; 91; 92; 93]; width := 2; height := 2 |}
              RawCodec.square
              {| threshold := None; minBlobArea := None;
                 maxBlobArea := None; morphIterations := None |})
    as [Hsame _].
  - reflexivity.
  - simpl. lia.
  - apply Hsame. reflexivity.
Defined.

End AnalyzeFacts.

(** ** How the background follows the scene *)

Module BackgroundDrift.
Import ImageProcessor BackgroundFacts.

Lemma running_average_byte (alpha : float) (bg cur : option Z) :
  0 <= running_average alpha bg cur < 256.
Proof.
  unfold running_average, to_uint8. destruct (math_round _); [|lia].
  apply Z.mod_pos_bound. lia.
Qed.

(** With the default weight, a pixel with no counterpart in the
    background ([undefined], hence NaN) is stored as 0. *)
Lemma running_average_missing (c : Z) :
  0 <= c < 256 -> running_average default_alpha None (Some c) = 0.
Proof.
  intros Hc. apply Z.eqb_eq.
  apply (byte_cases
           (fun c => running_average default_alpha None (Some c) =? 0));
    [|exact Hc].
  vm_compute. reflexivity.
Qed.

Lemma round_tenth (b c : Z) :
  let v := Js.round_div (9 * b + c) 10 in
  Z.min b c <= v <= Z.max b c /\ (v = b <-> -5 <= c - b <= 4).
Proof.
  unfold Js.round_div. cbv zeta.
  pose proof (Z.div_mod (2 * (9 * b + c) + 10) (2 * 10)).
  pose proof (Z.mod_pos_bound (2 * (9 * b + c) + 10) (2 * 10)).
  lia.
Qed.

Section Codec.
Variable toGrayscale : list Z -> Js.Result Gray.
Variable toPng : Gray -> list Z.

(** X11.  The background follows the scene slowly, and not at all below
    five grey levels.  With the default weight 0.1, every pixel of the
    updated background lies between its old value and the value in the
    current frame, and it keeps its old value exactly when the current
    value is at most 5 below or at most 4 above it: an update with a
    frame that differs by fewer than five grey levels leaves the
    background as it is. *)
Theorem updateBackground_dead_band
    (currentFrame existing : list Z) (cur bg : Gray) :
  toGrayscale currentFrame = Js.Ok cur ->
  toGrayscale existing = Js.Ok bg ->
  bytes (data cur) -> bytes (data bg) ->
  exists updated,
    updateBackground toGrayscale toPng currentFrame (Some existing)
                     default_alpha
    = Js.Ok (toPng {| data := updated; width := width cur;
                      height := height cur |})
    /\ forall i b c,
         data bg !! i = Some b -> data cur !! i = Some c ->
         exists v,
           updated !! i = Some v
           /\ Z.min b c <= v <= Z.max b c
           /\ (v = b <-> -5 <= c - b <= 4).
Proof.
  intros Hcur Hbg Bcur Bbg. unfold updateBackground.
  rewrite Hcur. simpl. rewrite Hbg. simpl.
  eexists. split; [reflexivity|].
  intros i b c Hb Hc. rewrite list_lookup_imap, Hc, Hb. simpl.
  eexists. split; [reflexivity|].
  rewrite running_average_exact.
  - apply round_tenth.
  - eapply Forall_lookup_1 in Bbg; [|exact Hb]. done.
  - eapply Forall_lookup_1 in Bcur; [|exact Hc]. done.
Qed.

(** X12.  [updateBackground] does not compare dimensions.  For every
    weight and every pair of decodable pictures it succeeds, and the new
    background has the width, the height and the number of pixels of the
    current frame, each pixel a byte; with the default weight, the pixels
    that have no counterpart in a shorter background become 0. *)
Theorem updateBackground_unchecked
    (currentFrame existing : list Z) (cur bg : Gray) (alpha : float) :
  toGrayscale currentFrame = Js.Ok cur ->
  toGrayscale existing = Js.Ok bg ->
  exists updated,
    updateBackground toGrayscale toPng currentFrame (Some existing) alpha
    = Js.Ok (toPng {| data := updated; width := width cur;
                      height := height cur |})
    /\ length updated = length (data cur)
    /\ bytes updated
    /\ (alpha = default_alpha -> bytes (data cur) ->
        forall i : nat,
          (length (data bg) <= i < length (data cur))%nat ->
          updated !! i = Some 0).
Proof.
  intros Hcur Hbg. unfold updateBackground.
  rewrite Hcur. simpl. rewrite Hbg. simpl.
  eexists. split; [reflexivity|]. split; [apply length_imap|]. split.
  - apply Forall_forall. intros v Hv.
    apply list_elem_of_lookup in Hv as [i Hi].
    rewrite list_lookup_imap in Hi.
    destruct (data cur !! i); simpl in Hi; [|done]. injection Hi as <-.
    apply running_average_byte.
  - intros -> Bcur i [Hge Hlt]. rewrite list_lookup_imap.
    destruct (lookup_lt_is_Some_2 (data cur) i Hlt) as [c Hc].
    rewrite Hc, (lookup_ge_None_2 (data bg) i Hge). simpl. f_equal.
    apply running_average_missing.
    eapply Forall_lookup_1 in Bcur; [|exact Hc]. done.
Qed.

End Codec.

Lemma updateBackground_dead_band_witness :
  exists updated,
    updateBackground RawCodec.toGrayscale RawCodec.toPng
      [2; 1; 104; 90] (Some [2; 1; 100; 100]) default_alpha
    = Js.Ok (RawCodec.toPng {| data := updated; width := 2; height := 1 |})
    /\ forall i b c,
         [100; 100] !! i = Some b -> [104; 90] !! i = Some c ->
         exists v,
           updated !! i = Some v
           /\ Z.min b c <= v <= Z.max b c
           /\ (v = b <-> -5 <= c - b <= 4).
Proof.
  apply (updateBackground_dead_band
           RawCodec.toGrayscale RawCodec.toPng
           [2; 1; 104; 90] [2; 1; 100; 100]
           {| data := [104; 90]; width := 2; height := 1 |}
           {| data := [100; 100]; width := 2; height := 1 |}).
  - reflexivity.
  - reflexivity.
  - repeat constructor; lia.
  - repeat constructor; lia.
Defined.

Lemma updateBackground_unchecked_witness :
  exists updated,
    updateBackground RawCodec.toGrayscale RawCodec.toPng
      [2; 1; 104; 90] (Some [1; 1; 100]) default_alpha
    = Js.Ok (RawCodec.toPng {| data := updated; width := 2; height := 1 |})
    /\ length updated = 2%nat
    /\ bytes updated
    /\ (default_alpha = default_alpha -> bytes [104; 90] ->
        forall i : nat, (1 <= i < 2)%nat -> updated !! i = Some 0).
Proof.
  apply (updateBackground_unchecked
           RawCodec.toGrayscale RawCodec.toPng
           [2; 1; 104; 90] [1; 1; 100]
           {| data := [104; 90]; width := 2; height := 1 |}
           {| data := [100]; width := 1; height := 1 |}).
  - reflexivity.
  - reflexivity.
Defined.

End BackgroundDrift.

(** ** The zone store *)

Module ZoneStoreFacts.
Import Database Queries.

Lemma filter_all {A} (P : A -> Prop) `{!forall a, Decision (P a)}
    (l : list A) :
  Forall P l -> filter P l = l.
Proof.
  induction 1 as [|a l Ha _ IH]; [done|].
  rewrite filter_cons, decide_True by done. by rewrite IH.
Qed.

(** X13.  Creating and deleting a zone.  [createZone] with an id that is
    in use throws the primary-key error (and so changes nothing); with a
    fresh id it succeeds, the zone read back by [getZone] is the one
    returned, it carries the id and the creation time in both timestamps,
    and no other zone and no log row is touched.  Deleting the zone just
    created gives back the database as it was before the creation, when
    no log row carried that id. *)
Theorem createZone_deleteZone
    (now : Z) (d : Db) (id : string) (input : ZoneInput) :
  (is_Some (getZone d id) ->
   createZone now d id input
   = Js.Throw "UNIQUE constraint failed: zones.id")
  /\ (getZone d id = None ->
      exists d' z,
        createZone now d id input = Js.Ok (d', z)
        /\ getZone d' id = Some z
        /\ z_id z = id /\ created_at z = now /\ updated_at z = now
        /\ (forall id', id' <> id -> getZone d' id' = getZone d id')
        /\ occupancy_log d' = occupancy_log d
        /\ parking_events d' = parking_events d
        /\ activeZoneSessions d' = activeZoneSessions d
        /\ (Forall (fun r => occ_zone_id r <> id) (occupancy_log d) ->
            Forall (fun e => zone_id e <> id) (parking_events d) ->
            deleteZone d' id = (d, true))).
Proof.
  unfold createZone, getZone. split.
  - intros [z ->]. done.
  - intros Hnone. rewrite Hnone. cbv zeta. cbn [zones].
    rewrite lookup_insert_eq. eexists _, _. split; [reflexivity|].
    cbn [zones occupancy_log parking_events activeZoneSessions
         z_id created_at updated_at].
    rewrite lookup_insert_eq.
    split; [done|]. split; [done|]. split; [done|]. split; [done|].
    split; [by intros id' Hne; rewrite lookup_insert_ne|].
    split; [done|]. split; [done|]. split; [done|].
    intros Hocc Hev. unfold deleteZone, delete_zone_row, delete_event_rows,
      delete_occupancy_rows. cbn.
    rewrite lookup_insert_eq, delete_insert_id by done.
    rewrite (filter_all _ _ Hocc), (filter_all _ _ Hev).
    by destruct d.
Qed.

(** The value of a field after a patch. *)
Definition patched {A} (old : A) (new : option A) : A := default old new.

Definition empty_patch : ZonePatch :=
  {| p_name := None; p_camera_id := None; p_polygon := None;
     p_min_blob_area := None; p_max_blob_area := None;
     p_alarm_threshold := None |}.

Definition given {A} (v : option A) : bool :=
  match v with Some _ => true | None => false end.

(** The patch gives at least one field. *)
Definition gives_field (input : ZonePatch) : bool :=
  given (p_name input) || given (p_camera_id input)
  || given (p_polygon input) || given (p_min_blob_area input)
  || given (p_max_blob_area input) || given (p_alarm_threshold input).

(** X14.  [updateZone].  On an id that is not in use it returns null and
    changes nothing.  On an existing zone it returns the zone as stored
    afterwards: every field given in the patch has the given value,
    stored as it is (a zero is stored, no default takes its place), every
    other field is as before, the id and [created_at] never change, and
    [updated_at] becomes the time of the call exactly when the patch
    gives at least one field; an empty patch changes nothing.  No other
    zone and no log row is touched. *)
Theorem updateZone_patch
    (now : Z) (d : Db) (id : string) (input : ZonePatch) :
  (getZone d id = None -> updateZone now d id input = (d, None))
  /\ forall z,
       getZone d id = Some z ->
       exists d' z',
         updateZone now d id input = (d', Some z')
         /\ getZone d' id = Some z'
         /\ z_id z' = z_id z /\ created_at z' = created_at z
         /\ z_name z' = patched (z_name z) (p_name input)
         /\ z_camera_id z'
            = patched (z_camera_id z) (Some <$> p_camera_id input)
         /\ z_polygon z' = patched (z_polygon z) (p_polygon input)
         /\ min_blob_area z'
            = patched (min_blob_area z) (p_min_blob_area input)
         /\ max_blob_area z'
            = patched (max_blob_area z) (p_max_blob_area input)
         /\ alarm_threshold z'
            = patched (alarm_threshold z) (p_alarm_threshold input)
         /\ updated_at z'
            = (if gives_field input then now else updated_at z)
         /\ (gives_field input = false -> d' = d)
         /\ (forall id', id' <> id -> getZone d' id' = getZone d id')
         /\ occupancy_log d' = occupancy_log d
         /\ parking_events d' = parking_events d
         /\ activeZoneSessions d' = activeZoneSessions d.
Proof.
  unfold updateZone. split; [by intros ->|].
  intros z Hz. rewrite Hz. cbv zeta. unfold getZone in Hz.
  destruct input as [[n|] [c|] [p|] [mi|] [ma|] [al|]];
    unfold updates_of, push, update_zone_row, with_zones, getZone,
      patched, empty_patch;
    cbn [app length Nat.ltb Nat.leb zones p_name p_camera_id p_polygon
         p_min_blob_area p_max_blob_area p_alarm_threshold];
    rewrite ?lookup_alter_eq, Hz;
    (eexists _, _; split; [reflexivity|]);
    cbn [zones occupancy_log parking_events activeZoneSessions
         fmap option_fmap option_map foldl assign default
         z_id z_name z_camera_id z_polygon min_blob_area max_blob_area
         alarm_threshold created_at updated_at];
    try rewrite lookup_alter_eq, Hz;
    (repeat (split; [done|]));
    first [ done
          | split; [intros id' Hne; by rewrite lookup_alter_ne|done] ].
Qed.

(** X15.  Deleting is idempotent and local.  After [deleteZone] the id is
    not in use and no log row carries it; the zones and the rows of every
    other id are kept, in their order; the counters of the two logs are
    as before, so the ids of deleted rows are not given out again; and a
    second [deleteZone] of the same id returns false and changes
    nothing. *)
Theorem deleteZone_idempotent (d : Db) (id : string) :
  let d' := (deleteZone d id).1 in
  getZone d' id = None
  /\ (forall id', id' <> id -> getZone d' id' = getZone d id')
  /\ occupancy_log d'
     = filter (fun r => occ_zone_id r <> id) (occupancy_log d)
  /\ parking_events d'
     = filter (fun e => zone_id e <> id) (parking_events d)
  /\ occupancy_log_seq d' = occupancy_log_seq d
  /\ parking_events_seq d' = parking_events_seq d
  /\ deleteZone d' id = (d', false).
Proof.
  cbv zeta. unfold deleteZone, delete_zone_row, delete_event_rows,
    delete_occupancy_rows, getZone. cbn.
  rewrite lookup_delete_eq.
  split; [done|]. split; [by intros id' Hne; rewrite lookup_delete_ne|].
  split; [done|]. split; [done|]. split; [done|]. split; [done|].
  rewrite delete_delete_eq. f_equal. f_equal.
  - apply filter_all, Forall_forall.
    by intros r [Hr _]%list_elem_of_filter.
  - apply filter_all, Forall_forall.
    by intros e [He _]%list_elem_of_filter.
Qed.

End ZoneStoreFacts.

(** ** The logs *)

Module LogFacts.
Import Database Queries.

(** *** Every state that the operations of the store can reach *)

(** One call of an operation of database.ts that writes.  A call of
    [logOccupancy] that throws changes nothing; a call of
    [logParkingEvent] that throws has changed the sessions. *)
Inductive writes : Db -> Db -> Prop :=
| writes_createZone now d id input d' z :
    createZone now d id input = Js.Ok (d', z) -> writes d d'
| writes_updateZone now d id input :
    writes d (updateZone now d id input).1
| writes_deleteZone d id :
    writes d (deleteZone d id).1
| writes_logOccupancy stamp d zoneId cnt d' :
    ForeignKeys.logOccupancy stamp d zoneId cnt = Js.Ok d' -> writes d d'
| writes_logParkingEvent now stamp d zoneId zoneName cameraId before after :
    writes d (ForeignKeys.logParkingEvent now stamp d zoneId zoneName
                                          cameraId before after).1.

Definition reachable (d : Db) : Prop := rtc writes empty_db d.

(** What the columns of a stored event say about each other. *)
Definition well_formed (e : ParkingEvent) : Prop :=
  count_before e <> count_after e
  /\ match event_type e with
     | entry =>
         count_before e = 0 /\ 0 < count_after e
         /\ is_Some (entry_time e)
         /\ exit_time e = None /\ duration_seconds e = None
     | exit =>
         0 < count_before e /\ count_after e = 0
         /\ exists x,
              exit_time e = Some x
              /\ match entry_time e with
                 | Some t =>
                     duration_seconds e = Some (Js.round_div (x - t) 1000)
                 | None => duration_seconds e = None
                 end
     | occupancy_change =>
         ~ (count_before e = 0 /\ 0 < count_after e)
         /\ ~ (0 < count_before e /\ count_after e = 0)
         /\ entry_time e = None /\ exit_time e = None
         /\ duration_seconds e = None
     end.

Record log_inv (d : Db) : Prop := {
  li_events : Forall well_formed (parking_events d);
  li_event_zones :
    Forall (fun e => is_Some (zones d !! zone_id e)) (parking_events d);
  li_event_ids :
    StronglySorted Z.lt (event_id <$> parking_events d);
  li_event_seq :
    Forall (fun e => 1 <= event_id e <= parking_events_seq d)
           (parking_events d);
  li_occ_zones :
    Forall (fun r => is_Some (zones d !! occ_zone_id r)) (occupancy_log d);
  li_occ_ids :
    StronglySorted Z.lt (occ_id <$> occupancy_log d);
  li_occ_seq :
    Forall (fun r => 1 <= occ_id r <= occupancy_log_seq d)
           (occupancy_log d);
  li_seq : 0 <= parking_events_seq d /\ 0 <= occupancy_log_seq d
}.

Lemma Forall_filter_keep {A} (Q P : A -> Prop)
    `{!forall a, Decision (P a)} (l : list A) :
  Forall Q l -> Forall Q (filter P l).
Proof.
  rewrite !Forall_forall. intros HQ a [_ Ha]%list_elem_of_filter.
  by apply HQ.
Qed.

Lemma sorted_snoc (l : list Z) (v : Z) :
  StronglySorted Z.lt l -> Forall (fun u => u < v) l ->
  StronglySorted Z.lt (l ++ [v]).
Proof.
  induction 1 as [|u l Hl IH Hu]; intros Hv.
  - repeat constructor.
  - apply Forall_cons in Hv as [Huv Hv]. simpl. constructor; [by apply IH|].
    apply Forall_app. split; [done|]. by repeat constructor.
Qed.

Lemma sorted_filter {A} (key : A -> Z) (P : A -> Prop)
    `{!forall a, Decision (P a)} (l : list A) :
  StronglySorted Z.lt (key <$> l) ->
  StronglySorted Z.lt (key <$> filter P l).
Proof.
  induction l as [|a l IH]; [done|]. rewrite fmap_cons.
  intros Hs. apply StronglySorted_inv in Hs as [Hl Ha].
  rewrite filter_cons. destruct (decide (P a)); [|by apply IH].
  rewrite fmap_cons. constructor; [by apply IH|].
  rewrite Forall_forall in Ha. apply Forall_forall.
  intros v (b & -> & Hb)%list_elem_of_fmap. apply Ha.
  apply list_elem_of_fmap. exists b. split; [done|].
  by apply list_elem_of_filter in Hb as [_ ?].
Qed.

Lemma classify_well_formed now sessions zoneId before after
    t dur et xt sessions' rid zoneName cameraId stamp :
  classify now sessions zoneId before after
  = Some (t, dur, et, xt, sessions') ->
  well_formed
    {| event_id := rid; zone_id := zoneId; zone_name := zoneName;
       camera_id := cameraId; event_type := t;
       count_before := before; count_after := after;
       duration_seconds := dur; entry_time := et; exit_time := xt;
       timestamp := stamp |}.
Proof.
  unfold classify, well_formed. cbn.
  destruct (Z.eqb_spec before 0), (Z.gtb_spec after 0); cbn.
  - intros [= <- <- <- <- _]. split; [lia|]. by repeat split.
  - destruct (Z.gtb_spec before 0), (Z.eqb_spec after 0); cbn; try lia.
    + destruct (Z.eqb_spec before after); cbn; [done|].
      intros [= <- <- <- <- _]. split; [done|]. repeat split; lia.
    + destruct (Z.eqb_spec before after); cbn; [done|].
      intros [= <- <- <- <- _]. split; [done|]. repeat split; lia.
  - destruct (Z.gtb_spec before 0), (Z.eqb_spec after 0); cbn; try lia.
    + destruct (Z.eqb_spec before after); cbn; [done|].
      intros [= <- <- <- <- _]. split; [done|]. repeat split; lia.
    + destruct (Z.eqb_spec before after); cbn; [done|].
      intros [= <- <- <- <- _]. split; [done|]. repeat split; lia.
  - destruct (Z.gtb_spec before 0), (Z.eqb_spec after 0); cbn.
    + destruct (sessions !! zoneId) as [s|];
        intros [= <- <- <- <- _]; (split; [lia|]);
        (split; [lia|]); (split; [done|]); by eexists.
    + destruct (Z.eqb_spec before after); cbn; [done|].
      intros [= <- <- <- <- _]. split; [done|]. repeat split; lia.
    + destruct (Z.eqb_spec before after); cbn; [done|].
      intros [= <- <- <- <- _]. split; [done|]. repeat split; lia.
    + destruct (Z.eqb_spec before after); cbn; [done|].
      intros [= <- <- <- <- _]. split; [done|]. repeat split; lia.
Qed.

Lemma log_inv_empty : log_inv empty_db.
Proof. split; simpl; try constructor; lia. Qed.

Lemma is_Some_alter {A} (f : A -> A) (m : gmap string A) (i j : string) :
  is_Some (m !! j) -> is_Some (alter f i m !! j).
Proof.
  intros [a Ha]. destruct (decide (i = j)) as [->|Hne].
  - rewrite lookup_alter_eq, Ha. by eexists.
  - rewrite lookup_alter_ne by done. by eexists.
Qed.

Lemma is_Some_insert {A} (a : A) (m : gmap string A) (i j : string) :
  is_Some (m !! j) -> is_Some (<[i := a]> m !! j).
Proof.
  intros Hj. destruct (decide (i = j)) as [->|Hne].
  - rewrite lookup_insert_eq. by eexists.
  - by rewrite lookup_insert_ne.
Qed.

Lemma log_inv_writes (d d' : Db) : log_inv d -> writes d d' -> log_inv d'.
Proof.
  intros [Hev Hez Hids Hseq Hoz Hoids Hoseq [Hs Hos]] Hw. destruct Hw.
  - unfold createZone in H. destruct (zones d !! id); [done|].
    cbv zeta in H. unfold getZone in H. cbn [zones] in H.
    rewrite lookup_insert_eq in H. injection H as <- _.
    split; cbn; try done.
    + eapply Forall_impl; [exact Hez|]. intros e. apply is_Some_insert.
    + eapply Forall_impl; [exact Hoz|]. intros e. apply is_Some_insert.
  - unfold updateZone. destruct (getZone d id); [|by split]. cbv zeta.
    destruct (0 <? _)%nat; [|by split].
    unfold update_zone_row, with_zones. split; cbn; try done.
    + eapply Forall_impl; [exact Hez|]. intros e. apply is_Some_alter.
    + eapply Forall_impl; [exact Hoz|]. intros e. apply is_Some_alter.
  - unfold deleteZone, delete_zone_row, delete_event_rows,
      delete_occupancy_rows. split; cbn.
    + by apply Forall_filter_keep.
    + apply Forall_forall. intros e [Hne He]%list_elem_of_filter.
      rewrite Forall_forall in Hez. rewrite lookup_delete_ne by done.
      by apply Hez.
    + by apply sorted_filter.
    + by apply Forall_filter_keep.
    + apply Forall_forall. intros r [Hne Hr]%list_elem_of_filter.
      rewrite Forall_forall in Hoz. rewrite lookup_delete_ne by done.
      by apply Hoz.
    + by apply sorted_filter.
    + by apply Forall_filter_keep.
    + done.
  - unfold ForeignKeys.logOccupancy, ForeignKeys.references_zone in H.
    case_bool_decide as Hz; [|done]. injection H as <-.
    unfold logOccupancy. split; cbn; try done.
    + apply Forall_app. split; [done|]. by apply Forall_singleton.
    + rewrite fmap_app. apply sorted_snoc; [done|].
      apply Forall_fmap. eapply Forall_impl; [exact Hoseq|].
      intros r Hr. unfold compose. simpl in *. lia.
    + apply Forall_app. split.
      * eapply Forall_impl; [exact Hoseq|].
        intros r Hr. unfold compose. simpl in *. lia.
      * apply Forall_singleton. simpl. lia.
    + lia.
  - unfold ForeignKeys.logParkingEvent, ForeignKeys.references_zone.
    destruct (classify now (activeZoneSessions d) zoneId before after)
      as [[[[[t dur] et] xt] sessions']|] eqn:Hc; [|by split].
    cbv zeta. cbn [zones with_sessions].
    case_bool_decide as Hz; [|by split].
    unfold insert_parking_event, with_sessions. split; cbn; try done.
    + apply Forall_app. split; [done|]. apply Forall_singleton.
      by eapply classify_well_formed.
    + apply Forall_app. split; [done|]. by apply Forall_singleton.
    + rewrite fmap_app. apply sorted_snoc; [done|].
      apply Forall_fmap. eapply Forall_impl; [exact Hseq|].
      intros e He. unfold compose. simpl in *. lia.
    + apply Forall_app. split.
      * eapply Forall_impl; [exact Hseq|].
        intros e He. unfold compose. simpl in *. lia.
      * apply Forall_singleton. simpl. lia.
    + lia.
Qed.

Lemma reachable_log_inv (d : Db) : reachable d -> log_inv d.
Proof.
  unfold reachable. revert d.
  apply (rtc_ind_r (fun d => log_inv d) empty_db); [apply log_inv_empty|].
  intros d1 d2 _ Hw I. by eapply log_inv_writes.
Qed.

(** X16.  The invariants of the two logs, in every state that calls of
    [createZone], [updateZone], [deleteZone], [logOccupancy] and
    [logParkingEvent] can reach from the empty database, in any order and
    with any arguments, the INSERTs being refused for a zone without a
    row.  Every stored row of either log belongs to a zone that has its
    row in [zones].  Every stored event has [count_before] different from
    [count_after]; an entry goes from 0 to a positive count and has an
    [entry_time] and no [exit_time]; an exit goes from a positive count
    to 0, has an [exit_time], and has a duration exactly when it has an
    [entry_time], the duration being the rounded number of seconds
    between the two; an occupancy change carries neither times nor
    duration.  In both logs the ids increase strictly in the order of
    insertion and never exceed the counter of the table, so an id is
    never given out twice, also after rows were deleted. *)
Theorem reachable_logs (d : Db) :
  reachable d ->
  Forall well_formed (parking_events d)
  /\ Forall (fun e => is_Some (zones d !! zone_id e)) (parking_events d)
  /\ Forall (fun r => is_Some (zones d !! occ_zone_id r)) (occupancy_log d)
  /\ StronglySorted Z.lt (event_id <$> parking_events d)
  /\ Forall (fun e => 1 <= event_id e <= parking_events_seq d)
            (parking_events d)
  /\ StronglySorted Z.lt (occ_id <$> occupancy_log d)
  /\ Forall (fun r => 1 <= occ_id r <= occupancy_log_seq d)
            (occupancy_log d).
Proof.
  intros [Hev Hez Hids Hseq Hoz Hoids Hoseq _]%reachable_log_inv. done.
Qed.

(** A zone is created, and an entry and an occupancy row are logged for
    it. *)
Definition one_entry : Db :=
  match createZone 0 empty_db "z1" DeleteZoneFacts.bay with
  | Js.Ok (d, _) =>
      let d := (ForeignKeys.logParkingEvent 1000 1000 d
                  "z1" "Bay A" "front" 0 2).1 in
      match ForeignKeys.logOccupancy 1000 d "z1" 2 with
      | Js.Ok d => d
      | Js.Throw _ => d
      end
  | Js.Throw _ => empty_db
  end.

Lemma reachable_logs_witness :
  reachable one_entry
  /\ length (parking_events one_entry) = 1%nat
  /\ length (occupancy_log one_entry) = 1%nat
  /\ Forall well_formed (parking_events one_entry).
Proof.
  assert (reachable one_entry) as Hr.
  { unfold reachable, one_entry.
    destruct (createZone 0 empty_db "z1" DeleteZoneFacts.bay)
      as [[d z]|msg] eqn:Hc; [|constructor].
    eapply rtc_l; [by eapply writes_createZone|].
    eapply rtc_l; [apply (writes_logParkingEvent 1000 1000 d
                            "z1" "Bay A" "front" 0 2)|].
    destruct (ForeignKeys.logOccupancy 1000 _ "z1" 2) as [d'|msg] eqn:Ho;
      [|constructor].
    eapply rtc_l; [by eapply writes_logOccupancy|]. constructor. }
  split; [exact Hr|]. split; [reflexivity|]. split; [reflexivity|].
  apply (reachable_logs one_entry Hr).
Defined.

End LogFacts.

(** ** What an exit's duration measures *)

Module DurationFacts.
Import Database.

(** The arguments of one call of [logParkingEvent], with the instant that
    the call reads and the CURRENT_TIMESTAMP of its INSERT. *)
Record LogCall := {
  lc_now : Z;
  lc_stamp : Z;
  lc_zoneId : string;
  lc_zoneName : string;
  lc_cameraId : string;
  lc_countBefore : Z;
  lc_countAfter : Z
}.

(** The state after the call, whether it returned or threw. *)
Definition log_call (d : Db) (c : LogCall) : Db :=
  (ForeignKeys.logParkingEvent (lc_now c) (lc_stamp c) d (lc_zoneId c)
     (lc_zoneName c) (lc_cameraId c) (lc_countBefore c) (lc_countAfter c)).1.

(** The [entry_time] of the latest entry of the zone [z] in [l] that no
    later exit of the zone has closed. *)
Definition open_since (z : string) (l : list ParkingEvent) : option Z :=
  foldl (fun o e =>
           if decide (zone_id e = z) then
             match event_type e with
             | entry => entry_time e
             | exit => None
             | occupancy_change => o
             end
           else o)
        None l.

Lemma open_since_snoc z l e :
  open_since z (l ++ [e])
  = if decide (zone_id e = z) then
      match event_type e with
      | entry => entry_time e
      | exit => None
      | occupancy_change => open_since z l
      end
    else open_since z l.
Proof. unfold open_since. by rewrite foldl_snoc. Qed.

(** An exit is measured against the events before it. *)
Definition measured (before : list ParkingEvent) (e : ParkingEvent)
  : Prop :=
  event_type e = exit ->
  exists x,
    exit_time e = Some x
    /\ entry_time e = open_since (zone_id e) before
    /\ duration_seconds e
       = (fun t => Js.round_div (x - t) 1000)
           <$> open_since (zone_id e) before.

Record duration_inv (d0 d : Db) (new : list ParkingEvent) : Prop := {
  dv_events : parking_events d = parking_events d0 ++ new;
  dv_zones : zones d = zones d0;
  dv_rows : Forall (fun e => is_Some (zones d0 !! zone_id e)) new;
  dv_open :
    forall z, is_Some (zones d0 !! z) ->
              entryTime <$> activeZoneSessions d !! z = open_since z new;
  dv_measured :
    forall i e, new !! i = Some e -> measured (take i new) e
}.

Lemma measured_snoc (new : list ParkingEvent) (e' : ParkingEvent) :
  (forall i e, new !! i = Some e -> measured (take i new) e) ->
  measured new e' ->
  forall i e, (new ++ [e']) !! i = Some e ->
              measured (take i (new ++ [e'])) e.
Proof.
  intros Hold Hnew i e Hi.
  destruct (decide (i < length new)%nat) as [Hlt|Hge].
  - rewrite lookup_app_l in Hi by done.
    rewrite take_app_le by lia. by apply Hold.
  - assert (i = length new) as ->.
    { apply lookup_lt_Some in Hi. rewrite length_app in Hi. simpl in Hi.
      lia. }
    rewrite list_lookup_middle in Hi by done. injection Hi as <-.
    by rewrite take_app_length.
Qed.

(** A call for a zone without a row touches the session of that zone
    only, and logs nothing. *)
Lemma duration_inv_refused (d0 d : Db) new (c : LogCall) :
  zones d0 !! lc_zoneId c = None ->
  duration_inv d0 d new -> duration_inv d0 (log_call d c) new.
Proof.
  intros Hz [Hev Hzs Hrows Hopen Hmeas].
  unfold log_call, ForeignKeys.logParkingEvent,
    ForeignKeys.references_zone.
  destruct (classify _ _ _ _ _) as [[[[[t dur] et] xt] sessions']|] eqn:Hc;
    [|by split].
  cbv zeta. cbn [zones with_sessions].
  rewrite bool_decide_eq_false_2 by (rewrite Hzs, Hz; by intros [? ?]).
  cbn [fst]. split; cbn; try done.
  intros z Hrow. rewrite <- Hopen by done.
  assert (lc_zoneId c <> z) as Hne.
  { intros Heq. rewrite <- Heq, Hz in Hrow. by destruct Hrow. }
  unfold classify in Hc.
  destruct (_ && _) in Hc.
  { injection Hc as <- <- <- <- <-. by rewrite lookup_insert_ne. }
  destruct (_ && _) in Hc.
  { destruct (activeZoneSessions d !! lc_zoneId c);
      injection Hc as <- <- <- <- <-; [|done].
    by rewrite lookup_delete_ne. }
  destruct (negb _) in Hc; [|done]. by injection Hc as <- <- <- <- <-.
Qed.

Lemma duration_inv_logged (d0 d : Db) new (c : LogCall) :
  is_Some (zones d0 !! lc_zoneId c) ->
  duration_inv d0 d new -> exists new', duration_inv d0 (log_call d c) new'.
Proof.
  intros Hz [Hev Hzs Hrows Hopen Hmeas].
  unfold log_call, ForeignKeys.logParkingEvent,
    ForeignKeys.references_zone, classify.
  destruct ((lc_countBefore c =? 0) && (lc_countAfter c >? 0)).
  { (* entry *)
    cbv zeta. cbn [zones with_sessions].
    rewrite bool_decide_eq_true_2 by (by rewrite Hzs).
    eexists (new ++ [_]). split; cbn.
    - by rewrite Hev, app_assoc.
    - done.
    - apply Forall_app. split; [done|]. by apply Forall_singleton.
    - intros z Hrow. rewrite open_since_snoc. cbn.
      destruct (decide (lc_zoneId c = z)) as [<-|Hne].
      + by rewrite lookup_insert_eq.
      + rewrite lookup_insert_ne by done. by apply Hopen.
    - apply measured_snoc; [done|]. by intros ?. }
  destruct ((lc_countBefore c >? 0) && (lc_countAfter c =? 0)).
  { (* exit *)
    pose proof (Hopen (lc_zoneId c) Hz) as Ho.
    destruct (activeZoneSessions d !! lc_zoneId c) as [session|] eqn:Hs;
      cbn in Ho; cbv zeta; cbn [zones with_sessions];
      rewrite bool_decide_eq_true_2 by (by rewrite Hzs).
    - eexists (new ++ [_]). split; cbn.
      + by rewrite Hev, app_assoc.
      + done.
      + apply Forall_app. split; [done|]. by apply Forall_singleton.
      + intros z Hrow. rewrite open_since_snoc. cbn.
        destruct (decide (lc_zoneId c = z)) as [<-|Hne].
        * by rewrite lookup_delete_eq.
        * rewrite lookup_delete_ne by done. by apply Hopen.
      + apply measured_snoc; [done|]. intros _. cbn.
        eexists. split; [done|]. by rewrite <- Ho.
    - eexists (new ++ [_]). split; cbn.
      + by rewrite Hev, app_assoc.
      + done.
      + apply Forall_app. split; [done|]. by apply Forall_singleton.
      + intros z Hrow. rewrite open_since_snoc. cbn.
        destruct (decide (lc_zoneId c = z)) as [<-|Hne]; [|by apply Hopen].
        by rewrite Hs.
      + apply measured_snoc; [done|]. intros _. cbn.
        eexists. split; [done|]. by rewrite <- Ho. }
  destruct (negb (lc_countBefore c =? lc_countAfter c)).
  - (* occupancy change *)
    cbv zeta. cbn [zones with_sessions].
    rewrite bool_decide_eq_true_2 by (by rewrite Hzs).
    eexists (new ++ [_]). split; cbn.
    + by rewrite Hev, app_assoc.
    + done.
    + apply Forall_app. split; [done|]. by apply Forall_singleton.
    + intros z Hrow. rewrite open_since_snoc. cbn.
      destruct (decide (lc_zoneId c = z)); by apply Hopen.
    + apply measured_snoc; [done|]. by intros ?.
  - by exists new.
Qed.

(** X30.  What the duration of an exit measures.  Start a process (no
    session yet) on any database and call [logParkingEvent] any number of
    times, for any zone ids and with any counts.  Events are logged only
    for zones that have their row; a call for another id logs nothing.
    For every exit logged: if, among the events logged before it, the
    zone has an entry that no later exit of the zone has closed,
    [entry_time] is the [entry_time] of the latest such entry and the
    duration is the rounded number of seconds from that time to the
    [exit_time], whatever was logged for other zones and whatever
    occupancy changes were logged for this zone in between; otherwise the
    exit has no [entry_time] and no duration.  A zone that has its row
    has a session afterwards exactly when it has such an open entry, and
    the session holds its time. *)
Theorem exits_measured (d0 : Db) (cs : list LogCall) :
  activeZoneSessions d0 = ∅ ->
  let d := foldl log_call d0 cs in
  exists new,
    parking_events d = parking_events d0 ++ new
    /\ Forall (fun e => is_Some (zones d0 !! zone_id e)) new
    /\ (forall z,
          is_Some (zones d0 !! z) ->
          entryTime <$> activeZoneSessions d !! z = open_since z new)
    /\ (forall i e,
          new !! i = Some e -> event_type e = exit ->
          exists x,
            exit_time e = Some x
            /\ entry_time e = open_since (zone_id e) (take i new)
            /\ duration_seconds e
               = (fun t => Js.round_div (x - t) 1000)
                   <$> open_since (zone_id e) (take i new)).
Proof.
  intros Hs. cbv zeta.
  assert (exists new, duration_inv d0 (foldl log_call d0 cs) new)
    as [new [Hev Hzs Hrows Hopen Hmeas]].
  { induction cs as [|c cs IH] using rev_ind.
    - exists []. split; cbn.
      + by rewrite app_nil_r.
      + done.
      + done.
      + intros z _. by rewrite Hs, lookup_empty.
      + intros i e Hi. by rewrite lookup_nil in Hi.
    - destruct IH as [new I]. rewrite foldl_snoc.
      destruct (zones d0 !! lc_zoneId c) as [zone|] eqn:Hz.
      + eapply duration_inv_logged; [|done]. rewrite Hz. by eexists.
      + exists new. by apply duration_inv_refused. }
  exists new. split; [done|]. split; [done|]. split; [done|].
  intros i e Hi He. by apply (Hmeas i e Hi).
Qed.

(** Bays A and B have their rows. *)
Definition two_zones : Db :=
  match createZone 0 empty_db "a" DeleteZoneFacts.bay with
  | Js.Ok (d, _) =>
      match createZone 0 d "b" DeleteZoneFacts.bay with
      | Js.Ok (d, _) => d
      | Js.Throw _ => d
      end
  | Js.Throw _ => empty_db
  end.

(** Vehicles enter bay A at second 1 and bay B at second 3; the count of
    bay A changes at second 5; a vehicle is reported for a bay C that has
    no row at second 7; bay A is empty at second 16. *)
Definition two_bays : list LogCall :=
  [ {| lc_now := 1000; lc_stamp := 1000; lc_zoneId := "a";
       lc_zoneName := "Bay A"; lc_cameraId := "front";
       lc_countBefore := 0; lc_countAfter := 2 |};
    {| lc_now := 3000; lc_stamp := 3000; lc_zoneId := "b";
       lc_zoneName := "Bay B"; lc_cameraId := "front";
       lc_countBefore := 0; lc_countAfter := 1 |};
    {| lc_now := 5000; lc_stamp := 5000; lc_zoneId := "a";
       lc_zoneName := "Bay A"; lc_cameraId := "front";
       lc_countBefore := 2; lc_countAfter := 1 |};
    {| lc_now := 7000; lc_stamp := 7000; lc_zoneId := "c";
       lc_zoneName := "Bay C"; lc_cameraId := "front";
       lc_countBefore := 0; lc_countAfter := 1 |};
    {| lc_now := 16500; lc_stamp := 17000; lc_zoneId := "a";
       lc_zoneName := "Bay A"; lc_cameraId := "front";
       lc_countBefore := 1; lc_countAfter := 0 |} ].

Lemma exits_measured_witness :
  exists new,
    parking_events (foldl log_call two_zones two_bays) = new
    /\ length new = 4%nat
    /\ entryTime <$> activeZoneSessions (foldl log_call two_zones two_bays)
                     !! "b"
       = open_since "b" new.
Proof.
  destruct (exits_measured two_zones two_bays) as (new & Hev & _ & Hopen & _).
  - reflexivity.
  - exists new. split; [exact Hev|]. split.
    + change (parking_events two_zones ++ new) with new in Hev.
      rewrite <- Hev. reflexivity.
    + apply Hopen. by eexists.
Defined.

Example two_bays_durations :
  duration_seconds <$> parking_events (foldl log_call two_zones two_bays)
  = [None; None; None; Some 16].
Proof. reflexivity. Qed.

End DurationFacts.

(** ** Sessions in a run of the scheduler *)

Module SessionFacts.
Import Server.

(** The scheduler's writer called once for each result, in order, each
    with the time of the call. *)
Definition updates (s : State) (rs : list (Z * RoundRobin.AnalysisResult))
  : State :=
  foldl (fun s r => onUpdate r.1 s r.2) s rs.

(** The events of type [t] logged for the zone [z]. *)
Definition logged (t : Database.EventType) (z : string)
    (l : list Database.ParkingEvent) : Z :=
  Z.of_nat
    (length (filter (fun e => Database.zone_id e = z
                              /\ Database.event_type e = t) l)).

(** The zones whose published count is positive. *)
Definition occupied (s : State) : gmap string Occupancy :=
  filter (fun kv => 0 < count kv.2) (currentOccupancy s).

Record session_inv (s0 s : State) (new : list Database.ParkingEvent)
  : Prop := {
  sv_events :
    Database.parking_events (db s)
    = Database.parking_events (db s0) ++ new;
  sv_counts :
    forall z o, currentOccupancy s !! z = Some o -> 0 <= count o;
  sv_sessions :
    forall z, is_Some (Database.activeZoneSessions (db s) !! z)
              <-> 0 < prev_count s z;
  sv_balance :
    forall z, logged Database.entry z new - logged Database.exit z new
              = if decide (0 < prev_count s z) then 1 else 0;
  sv_exits :
    Forall (fun e => Database.event_type e = Database.exit ->
                     is_Some (Database.duration_seconds e)) new
}.

Lemma logged_snoc t z l e :
  logged t z (l ++ [e])
  = logged t z l
    + if decide (Database.zone_id e = z /\ Database.event_type e = t)
      then 1 else 0.
Proof.
  unfold logged. rewrite filter_app, length_app, filter_cons, filter_nil.
  destruct (decide _); simpl; lia.
Qed.

Lemma prev_count_insert (s : State) occ (z zr : string) o db' sent' :
  occ = <[zr := o]> (currentOccupancy s) ->
  prev_count {| currentOccupancy := occ; db := db'; sent := sent' |} z
  = if decide (z = zr) then count o else prev_count s z.
Proof.
  intros ->. unfold prev_count. simpl. destruct (decide (z = zr)) as [->|Hne].
  - by rewrite lookup_insert_eq.
  - by rewrite lookup_insert_ne.
Qed.

Lemma session_inv_step (s0 s : State) new (now : Z)
    (r : RoundRobin.AnalysisResult) :
  session_inv s0 s new -> 0 <= RoundRobin.count r ->
  exists new', session_inv s0 (onUpdate now s r) new'.
Proof.
  intros [Hev Hcounts Hsess Hbal Hexits] Hc.
  set (zr := RoundRobin.zone_id r). set (c := RoundRobin.count r).
  assert (0 <= prev_count s zr) as Hprev.
  { unfold prev_count. destruct (currentOccupancy s !! zr) as [o|] eqn:Ho;
      [by eapply Hcounts|lia]. }
  assert (forall z o,
            <[zr := {| count := c; blobs := RoundRobin.blobs r;
                       timestamp := RoundRobin.timestamp r |}]>
              (currentOccupancy s) !! z = Some o -> 0 <= count o)
    as Hcounts'.
  { intros z o. destruct (decide (z = zr)) as [->|Hne].
    - rewrite lookup_insert_eq. by intros [= <-].
    - rewrite lookup_insert_ne by done. apply Hcounts. }
  unfold onUpdate. fold zr c. cbv zeta.
  destruct (Z.eqb_spec (prev_count s zr) c) as [Heq|Hne]; cbn [negb].
  { (* the count did not change *)
    exists new. split; cbn [db currentOccupancy].
    - exact Hev.
    - exact Hcounts'.
    - intros z. rewrite (prev_count_insert s _ z zr _ _ _ eq_refl).
      destruct (decide (z = zr)) as [->|]; [|done].
      cbn [count]. rewrite <- Heq. apply Hsess.
    - intros z. rewrite (prev_count_insert s _ z zr _ _ _ eq_refl).
      destruct (decide (z = zr)) as [->|]; [|done].
      cbn [count]. rewrite <- Heq. apply Hbal.
    - exact Hexits. }
  unfold Database.logParkingEvent, Database.classify.
  destruct (Z.eqb_spec (prev_count s zr) 0) as [H0|H0].
  - (* entry *)
    destruct (Z.gtb_spec c 0) as [Hpos|Hnpos]; [|lia]. cbn.
    eexists (new ++ [_]).
    split; cbn [db currentOccupancy Database.parking_events].
    + by rewrite Hev, app_assoc.
    + exact Hcounts'.
    + intros z. rewrite (prev_count_insert s _ z zr _ _ _ eq_refl).
      cbn. destruct (decide (z = zr)) as [->|Hz].
      * rewrite lookup_insert_eq. cbn. split; [lia|by eexists].
      * rewrite lookup_insert_ne by done. apply Hsess.
    + intros z. rewrite (prev_count_insert s _ z zr _ _ _ eq_refl).
      rewrite !logged_snoc. cbn. specialize (Hbal z).
      destruct (decide (z = zr)) as [->|Hz].
      * rewrite decide_True by done. rewrite decide_False by (by intros [_ ?]).
        destruct (decide (0 < prev_count s zr)); [lia|].
        destruct (decide (0 < c)); lia.
      * rewrite !decide_False by (intros [? _]; congruence). lia.
    + apply Forall_app. split; [done|]. by apply Forall_singleton.
  - destruct (Z.gtb_spec (prev_count s zr) 0) as [Hp|Hp]; [|lia].
    destruct (Z.eqb_spec c 0) as [Hc0|Hc0]; cbn.
    + (* exit *)
      destruct (proj2 (Hsess zr) Hp) as [session Hsession].
      rewrite Hsession. cbn.
      eexists (new ++ [_]).
      split; cbn [db currentOccupancy Database.parking_events].
      * by rewrite Hev, app_assoc.
      * exact Hcounts'.
      * intros z. rewrite (prev_count_insert s _ z zr _ _ _ eq_refl).
        cbn. destruct (decide (z = zr)) as [->|Hz].
        -- rewrite lookup_delete_eq. split; [by intros [? ?]|lia].
        -- rewrite lookup_delete_ne by done. apply Hsess.
      * intros z. rewrite (prev_count_insert s _ z zr _ _ _ eq_refl).
        rewrite !logged_snoc. cbn. specialize (Hbal z).
        destruct (decide (z = zr)) as [->|Hz].
        -- rewrite decide_False by (by intros [_ ?]).
           rewrite decide_True by done.
           destruct (decide (0 < prev_count s zr)); [|lia].
           destruct (decide (0 < c)); lia.
        -- rewrite !decide_False by (intros [? _]; congruence). lia.
      * apply Forall_app. split; [done|]. apply Forall_singleton.
        intros _. by eexists.
    + (* the count changed between two positive values *)
      destruct (Z.eqb_spec (prev_count s zr) c) as [?|_]; [done|]. cbn.
      eexists (new ++ [_]).
      split; cbn [db currentOccupancy Database.parking_events].
      * by rewrite Hev, app_assoc.
      * exact Hcounts'.
      * intros z. rewrite (prev_count_insert s _ z zr _ _ _ eq_refl).
        cbn. destruct (decide (z = zr)) as [->|Hz]; [|apply Hsess].
        split; [lia|]. intros _. by apply Hsess.
      * intros z. rewrite (prev_count_insert s _ z zr _ _ _ eq_refl).
        rewrite !logged_snoc. cbn. specialize (Hbal z).
        destruct (decide (z = zr)) as [->|Hz].
        -- rewrite !decide_False by (by intros [_ ?]).
           destruct (decide (0 < prev_count s zr)); [|lia].
           destruct (decide (0 < c)); lia.
        -- rewrite !decide_False by (intros [? _]; congruence). lia.
      * apply Forall_app. split; [done|]. by apply Forall_singleton.
Qed.

Lemma session_inv_updates (s0 : State)
    (rs : list (Z * RoundRobin.AnalysisResult)) :
  currentOccupancy s0 = ∅ ->
  Database.activeZoneSessions (db s0) = ∅ ->
  Forall (fun r => 0 <= RoundRobin.count r.2) rs ->
  exists new, session_inv s0 (updates s0 rs) new.
Proof.
  intros Hocc Hsess. induction rs as [|r rs IH] using rev_ind; intros Hrs.
  - exists []. split; simpl.
    + by rewrite app_nil_r.
    + intros z o. by rewrite Hocc, lookup_empty.
    + intros z. unfold prev_count. rewrite Hsess, Hocc, !lookup_empty.
      split; [intros Hs; by apply is_Some_None in Hs | lia].
    + intros z. unfold prev_count. rewrite Hocc, lookup_empty. done.
    + constructor.
  - apply Forall_app in Hrs as [Hrs Hr]. rewrite Forall_singleton in Hr.
    destruct (IH Hrs) as [new I].
    unfold updates. rewrite foldl_snoc.
    apply (session_inv_step s0 _ new); [exact I | exact Hr].
Qed.

(** X17.  Sessions in a run of the scheduler.  Start with no published
    count and no session (the state of a fresh process; the event table
    may hold rows of earlier runs) and let the scheduler's writer publish
    any number of results with counts [>= 0], for any zones in any order.
    Then a zone has a session exactly when its published count is
    positive; the events logged during the run have, for every zone, one
    more entry than exits when the zone is occupied and as many
    otherwise, so entries and exits of a zone alternate; every exit logged
    during the run has a duration; and [currentOccupied] of the statistics
    is the number of zones whose published count is positive. *)
Theorem scheduler_sessions (s0 : State)
    (rs : list (Z * RoundRobin.AnalysisResult)) :
  currentOccupancy s0 = ∅ ->
  Database.activeZoneSessions (db s0) = ∅ ->
  Forall (fun r => 0 <= RoundRobin.count r.2) rs ->
  let s := updates s0 rs in
  exists new,
    Database.parking_events (db s)
    = Database.parking_events (db s0) ++ new
    /\ (forall z, is_Some (Database.activeZoneSessions (db s) !! z)
                  <-> 0 < prev_count s z)
    /\ (forall z, logged Database.entry z new - logged Database.exit z new
                  = if decide (0 < prev_count s z) then 1 else 0)
    /\ Forall (fun e => Database.event_type e = Database.exit ->
                        is_Some (Database.duration_seconds e)) new
    /\ Database.currentOccupied (Database.getParkingStats (db s) None)
       = Z.of_nat (size (occupied s)).
Proof.
  intros Hocc Hsess Hrs. cbv zeta.
  destruct (session_inv_updates s0 rs Hocc Hsess Hrs)
    as [new [Hev Hcounts Hsessions Hbal Hexits]].
  exists new. split; [done|]. split; [done|]. split; [done|].
  split; [done|].
  unfold Database.getParkingStats. cbn [Database.currentOccupied].
  f_equal. rewrite <- !size_dom. f_equal. apply set_eq. intros z.
  rewrite !elem_of_dom, Hsessions. unfold occupied, prev_count.
  split.
  - destruct (currentOccupancy (updates s0 rs) !! z) as [o|] eqn:Ho; [|lia].
    intros Hpos. exists o. by apply map_lookup_filter_Some.
  - intros [o [Ho Hpos]%map_lookup_filter_Some]. by rewrite Ho.
Qed.

(** Two zones served in turn: z1 fills, z2 fills, z1 empties. *)
Definition result (zone : string) (cnt : Z) : RoundRobin.AnalysisResult :=
  {| RoundRobin.camera_id := "front"; RoundRobin.zone_id := zone;
     RoundRobin.zone_name := zone; RoundRobin.count := cnt;
     RoundRobin.blobs := []; RoundRobin.alarm := 1 <=? cnt;
     RoundRobin.timestamp := 0 |}.

Definition shift : list (Z * RoundRobin.AnalysisResult) :=
  [ (1000, result "z1" 2); (6000, result "z2" 1); (11000, result "z1" 0) ].

Lemma scheduler_sessions_witness :
  Database.currentOccupied
    (Database.getParkingStats (db (updates ServerFacts.s0 shift)) None)
  = Z.of_nat (size (occupied (updates ServerFacts.s0 shift))).
Proof.
  destruct (scheduler_sessions ServerFacts.s0 shift)
    as (new & _ & _ & _ & _ & Hocc).
  - reflexivity.
  - reflexivity.
  - repeat (constructor; [simpl; lia|]). constructor.
  - exact Hocc.
Defined.

End SessionFacts.

(** ** The statistics *)

Module StatsFacts.
Import Database.

Definition sum (l : list Z) : Z := foldr Z.add 0 l.

Lemma sum_cons (a : Z) (l : list Z) : sum (a :: l) = a + sum l.
Proof. reflexivity. Qed.

Lemma sum_perm (l k : list Z) : l ≡ₚ k -> sum l = sum k.
Proof. induction 1; simpl; lia. Qed.

Lemma insert_by_entries_perm (z : ZoneStats) (l : list ZoneStats) :
  insert_by_entries z l ≡ₚ z :: l.
Proof.
  induction l as [|y l IH]; [done|]. simpl.
  destruct (zs_entries y <? zs_entries z); [done|].
  rewrite IH. apply Permutation_swap.
Qed.

Lemma sort_by_entries_perm (l : list ZoneStats) : sort_by_entries l ≡ₚ l.
Proof.
  induction l as [|z l IH]; [done|]. simpl.
  by rewrite insert_by_entries_perm, IH.
Qed.

(** [a] is listed before [b]: it has at least as many entries. *)
Definition before (a b : ZoneStats) : Prop := zs_entries b <= zs_entries a.

Lemma insert_by_entries_sorted (z : ZoneStats) (l : list ZoneStats) :
  StronglySorted before l -> StronglySorted before (insert_by_entries z l).
Proof.
  induction 1 as [|y l Hl IH Hy]; simpl.
  - repeat constructor.
  - destruct (Z.ltb_spec (zs_entries y) (zs_entries z)).
    + constructor; [by constructor|]. constructor; [unfold before; lia|].
      eapply Forall_impl; [exact Hy|]. unfold before. intros; lia.
    + constructor; [done|].
      rewrite insert_by_entries_perm. constructor; [unfold before; lia|done].
Qed.

Lemma sort_by_entries_sorted (l : list ZoneStats) :
  StronglySorted before (sort_by_entries l).
Proof.
  induction l as [|z l IH]; [constructor|]. simpl.
  by apply insert_by_entries_sorted.
Qed.

(** Counting by group and adding up is counting. *)
Lemma count_by_key {K} `{EqDecision K} (key : ParkingEvent -> K)
    (t : EventType) (ks : list K) (rows : list ParkingEvent) :
  NoDup ks -> (forall e, e ∈ rows -> key e ∈ ks) ->
  sum ((fun k => count_type t (filter (fun e => key e = k) rows)) <$> ks)
  = count_type t rows.
Proof.
  intros Hks. induction rows as [|e rows IH]; intros Hin.
  - clear. induction ks as [|k ks IHk]; [done|].
    rewrite fmap_cons, sum_cons, IHk. done.
  - assert (key e ∈ ks) as He by (apply Hin; by left).
    assert (forall k,
              count_type t (filter (fun e' => key e' = k) (e :: rows))
              = (if decide (key e = k /\ event_type e = t) then 1 else 0)
                + count_type t (filter (fun e' => key e' = k) rows))
      as Hstep.
    { intros k. unfold count_type. rewrite filter_cons.
      destruct (decide (key e = k)) as [Hk|Hk].
      - rewrite filter_cons. destruct (decide (event_type e = t)).
        + rewrite decide_True by done. simpl. lia.
        + rewrite decide_False by (by intros [_ ?]). simpl. lia.
      - rewrite decide_False by (by intros [? _]). simpl. lia. }
    assert (count_type t (e :: rows)
            = (if decide (event_type e = t) then 1 else 0)
              + count_type t rows) as ->.
    { unfold count_type. rewrite filter_cons.
      destruct (decide (event_type e = t)); simpl; lia. }
    rewrite <- IH by (intros; apply Hin; by right). clear IH Hin.
    induction ks as [|k ks IHk]; [by apply elem_of_nil in He|].
    apply NoDup_cons in Hks as [Hk Hks]. rewrite !fmap_cons, !sum_cons.
    rewrite Hstep.
    destruct (decide (key e = k)) as [Hek|Hek].
    + assert (sum ((fun k0 =>
                      count_type t
                        (filter (fun e' => key e' = k0) (e :: rows)))
                   <$> ks)
              = sum ((fun k0 =>
                        count_type t
                          (filter (fun e' => key e' = k0) rows)) <$> ks))
        as ->.
      { f_equal. apply list_fmap_ext. intros _ k' Hk'%list_elem_of_lookup_2.
        rewrite Hstep. rewrite decide_False; [lia|].
        intros [Hek' _]. apply Hk. congruence. }
      destruct (decide (event_type e = t)).
      * rewrite decide_True by done. lia.
      * rewrite decide_False by (by intros [_ ?]). lia.
    + rewrite decide_False by (by intros [? _]).
      apply elem_of_cons in He as [?|He]; [done|].
      rewrite (IHk Hks He). lia.
Qed.

(** X18.  The breakdown of the statistics adds up.  For every database and
    every [since]: the zones of [byZone] are pairwise different in
    (zone_id, zone_name) and are listed with non-increasing numbers of
    entries; the entries of the zones add up to [totalEntries] and the
    exits to [totalExits]; and every listed zone has at least one event
    in the period. *)
Theorem getParkingStats_breakdown (d : Db) (since : option Z) :
  let st := getParkingStats d since in
  NoDup ((fun z => (zs_zone_id z, zs_zone_name z)) <$> byZone st)
  /\ StronglySorted before (byZone st)
  /\ sum (zs_entries <$> byZone st) = totalEntries st
  /\ sum (zs_exits <$> byZone st) = totalExits st
  /\ Forall (fun z =>
               exists e, e ∈ since_filter since (parking_events d)
                         /\ zone_id e = zs_zone_id z
                         /\ zone_name e = zs_zone_name z)
            (byZone st).
Proof.
  cbv zeta. unfold getParkingStats. cbn [byZone totalEntries totalExits].
  set (rows := since_filter since (parking_events d)).
  pose proof (sort_by_entries_perm (group_stats rows)) as Hperm.
  assert (NoDup (remove_dups
                   (map (fun e => (zone_id e, zone_name e)) rows)))
    as Hnd by apply NoDup_remove_dups.
  assert (forall e, e ∈ rows ->
            (zone_id e, zone_name e)
            ∈ remove_dups (map (fun e => (zone_id e, zone_name e)) rows))
    as Hcover.
  { intros e He. apply elem_of_remove_dups, list_elem_of_fmap. by exists e. }
  split; [|split; [|split; [|split]]].
  - rewrite Hperm. unfold group_stats. cbv zeta.
    rewrite <- list_fmap_compose.
    assert (forall ks : list (string * string),
              (fun z => (zs_zone_id z, zs_zone_name z))
              ∘ (fun k =>
                   {| zs_zone_id := k.1; zs_zone_name := k.2;
                      zs_entries :=
                        count_type entry
                          (filter (fun e => (zone_id e, zone_name e) = k)
                                  rows);
                      zs_exits :=
                        count_type exit
                          (filter (fun e => (zone_id e, zone_name e) = k)
                                  rows);
                      zs_avgDuration :=
                        avg_duration
                          (filter (fun e => (zone_id e, zone_name e) = k)
                                  rows) |})
              <$> ks = ks) as ->; [|done].
    intros ks. induction ks as [|[a b] ks IH]; [done|].
    by rewrite fmap_cons, IH.
  - apply sort_by_entries_sorted.
  - rewrite (sum_perm _ (zs_entries <$> group_stats rows))
      by (by rewrite Hperm).
    unfold group_stats. cbv zeta. rewrite <- list_fmap_compose.
    rewrite <- (count_by_key (fun e => (zone_id e, zone_name e)) entry
                  _ rows Hnd Hcover).
    done.
  - rewrite (sum_perm _ (zs_exits <$> group_stats rows))
      by (by rewrite Hperm).
    unfold group_stats. cbv zeta. rewrite <- list_fmap_compose.
    rewrite <- (count_by_key (fun e => (zone_id e, zone_name e)) exit
                  _ rows Hnd Hcover).
    done.
  - rewrite Hperm. unfold group_stats. cbv zeta.
    apply Forall_fmap, Forall_forall. intros [a b] Hk.
    apply elem_of_remove_dups, list_elem_of_fmap in Hk as (e & [= -> ->] & He).
    by exists e.
Qed.

End StatsFacts.

(** ** Paged queries *)

Module PageFacts.
Import Database Queries.

(** [a] may be listed before [b]: it is at least as recent. *)
Definition newest_first {A} (key : A -> Z) (a b : A) : Prop :=
  key b <= key a.

Lemma insert_desc_perm {A} (key : A -> Z) (a : A) (l : list A) :
  insert_desc key a l ≡ₚ a :: l.
Proof.
  induction l as [|y l IH]; [done|]. simpl.
  destruct (key y <? key a); [done|].
  rewrite IH. apply Permutation_swap.
Qed.

Lemma order_by_desc_perm {A} (key : A -> Z) (l : list A) :
  order_by_desc key l ≡ₚ l.
Proof.
  induction l as [|a l IH]; [done|]. simpl.
  by rewrite insert_desc_perm, IH.
Qed.

Lemma insert_desc_sorted {A} (key : A -> Z) (a : A) (l : list A) :
  StronglySorted (newest_first key) l ->
  StronglySorted (newest_first key) (insert_desc key a l).
Proof.
  induction 1 as [|y l Hl IH Hy]; simpl.
  - repeat constructor.
  - destruct (Z.ltb_spec (key y) (key a)).
    + constructor; [by constructor|].
      constructor; [unfold newest_first; lia|].
      eapply Forall_impl; [exact Hy|]. unfold newest_first. intros; lia.
    + constructor; [done|]. rewrite insert_desc_perm.
      constructor; [unfold newest_first; lia|done].
Qed.

Lemma order_by_desc_sorted {A} (key : A -> Z) (l : list A) :
  StronglySorted (newest_first key) (order_by_desc key l).
Proof.
  induction l as [|a l IH]; [constructor|]. simpl.
  by apply insert_desc_sorted.
Qed.

Lemma in_take {A} (n : nat) (l : list A) (a : A) : a ∈ take n l -> a ∈ l.
Proof. intros Ha. eapply elem_of_sublist; [done|apply sublist_take]. Qed.

Lemma in_drop {A} (n : nat) (l : list A) (a : A) : a ∈ drop n l -> a ∈ l.
Proof. intros Ha. eapply elem_of_sublist; [done|apply sublist_drop]. Qed.

Lemma sorted_take {A} (R : relation A) (n : nat) (l : list A) :
  StronglySorted R l -> StronglySorted R (take n l).
Proof.
  intros Hl. revert n. induction Hl as [|a l Hl IH Ha]; intros n.
  - rewrite take_nil. constructor.
  - destruct n as [|n]; [constructor|]. simpl. constructor; [apply IH|].
    rewrite Forall_forall in Ha. apply Forall_forall.
    intros b Hb. apply Ha. by eapply in_take.
Qed.

Lemma sorted_drop {A} (R : relation A) (n : nat) (l : list A) :
  StronglySorted R l -> StronglySorted R (drop n l).
Proof.
  intros Hl. revert n. induction Hl as [|a l Hl IH Ha]; intros n.
  - rewrite drop_nil. constructor.
  - destruct n as [|n]; simpl; [by constructor | apply IH].
Qed.

Lemma sorted_split {A} (R : relation A) (n : nat) (l : list A) (a b : A) :
  StronglySorted R l -> a ∈ take n l -> b ∈ drop n l -> R a b.
Proof.
  intros Hl. revert n. induction Hl as [|c l Hl IH Hc]; intros n Ha Hb.
  - rewrite take_nil in Ha. by apply elem_of_nil in Ha.
  - destruct n as [|n]; [by apply elem_of_nil in Ha|]. simpl in *.
    apply elem_of_cons in Ha as [->|Ha]; [|by eapply IH].
    rewrite Forall_forall in Hc. apply Hc. by eapply in_drop.
Qed.

Lemma limit_offset_sorted {A} (R : relation A) (limit offset : Z)
    (l : list A) :
  StronglySorted R l -> StronglySorted R (limit_offset limit offset l).
Proof.
  intros Hl. unfold limit_offset. cbv zeta.
  destruct (limit <? 0); [|apply sorted_take]; by apply sorted_drop.
Qed.

Lemma limit_offset_elem {A} (limit offset : Z) (l : list A) (a : A) :
  a ∈ limit_offset limit offset l -> a ∈ l.
Proof.
  unfold limit_offset. cbv zeta. destruct (limit <? 0).
  - apply in_drop.
  - intros Ha%in_take. by eapply in_drop.
Qed.

(** The query [q] asked for another page. *)
Definition page (q : EventQuery) (limit offset : Z) : EventQuery :=
  {| q_limit := Some limit; q_offset := Some offset;
     q_zoneId := q_zoneId q; q_cameraId := q_cameraId q;
     q_eventType := q_eventType q; q_since := q_since q;
     q_until := q_until q |}.

(** X19.  [getParkingEvents] pages through the matching events, newest
    first.  For a query [q], let the matching events be the stored events
    that satisfy every filter of [q] that is given and not empty.  Then
    for every limit and offset: [total] is the number of matching events,
    whatever the page asked for; every event returned is a matching event;
    the events are returned in non-increasing order of timestamp; with
    a limit [>= 0] at most [limit] events are returned; a page at offset
    [o >= 0] with limit [l >= 0] followed by the page at offset [o + l]
    with limit [l' >= 0] is the page at offset [o] with limit [l + l'];
    and with offset 0 and a limit of at least [total] the page holds every
    matching event. *)
Theorem getParkingEvents_pages (d : Db) (q : EventQuery) :
  let matching := filter (fun e => matches q e = true) (parking_events d) in
  let events_of limit offset :=
    events (getParkingEvents d (page q limit offset)) in
  (forall limit offset,
     total (getParkingEvents d (page q limit offset))
     = Z.of_nat (length matching))
  /\ total (getParkingEvents d q) = Z.of_nat (length matching)
  /\ (forall limit offset e,
        e ∈ events_of limit offset -> e ∈ matching)
  /\ (forall limit offset,
        StronglySorted (newest_first timestamp) (events_of limit offset))
  /\ (forall limit offset,
        0 <= limit ->
        Z.of_nat (length (events_of limit offset)) <= limit)
  /\ (forall o l l',
        0 <= o -> 0 <= l -> 0 <= l' ->
        events_of l o ++ events_of l' (o + l) = events_of (l + l') o)
  /\ (forall limit,
        Z.of_nat (length matching) <= limit ->
        events_of limit 0 ≡ₚ matching).
Proof.
  cbv zeta. unfold getParkingEvents. cbn [events total].
  assert (forall limit offset e,
            matches (page q limit offset) e = matches q e) as Hm by done.
  assert (forall limit offset,
            filter (fun e => matches (page q limit offset) e = true)
                   (parking_events d)
            = filter (fun e => matches q e = true) (parking_events d))
    as Hf by done.
  set (matching := filter (fun e => matches q e = true) (parking_events d)).
  split; [done|]. split; [done|].
  cbn [page q_limit q_offset from_option]. unfold id.
  split; [|split; [|split; [|split]]].
  - intros limit offset e He%limit_offset_elem.
    by rewrite order_by_desc_perm in He.
  - intros limit offset. apply limit_offset_sorted, order_by_desc_sorted.
  - intros limit offset Hl. unfold limit_offset. cbv zeta.
    destruct (Z.ltb_spec limit 0); [lia|].
    rewrite length_take. lia.
  - intros o l l' Ho Hl Hl'. unfold limit_offset. cbv zeta. rewrite !Hf.
    destruct (Z.ltb_spec l 0); [lia|].
    destruct (Z.ltb_spec l' 0); [lia|].
    destruct (Z.ltb_spec (l + l') 0); [lia|].
    rewrite !Z2Nat.inj_add by lia. rewrite <- drop_drop.
    apply take_take_drop.
  - intros limit Hl. unfold limit_offset. cbv zeta. rewrite Hf.
    fold matching.
    destruct (Z.ltb_spec limit 0); [lia|].
    change (Z.to_nat 0) with 0%nat. rewrite drop_0.
    rewrite take_ge; [apply order_by_desc_perm|].
    rewrite (Permutation_length (order_by_desc_perm _ _)). lia.
Qed.

(** X20.  [getRecentOccupancy] returns the most recent rows of the zone.
    Every row returned is a row of the log for that zone; the rows are in
    non-increasing order of timestamp; with a limit [>= 0] (100 when none
    is given) at most [limit] rows are returned; no row of the zone that
    is left out is more recent than a row that is returned; and when the
    zone has at most [limit] rows, all of them are returned. *)
Theorem getRecentOccupancy_recent
    (d : Db) (zoneId : string) (limit : option Z) :
  let rows := getRecentOccupancy d zoneId limit in
  let of_zone :=
    filter (fun r => occ_zone_id r = zoneId) (occupancy_log d) in
  (forall r, r ∈ rows -> r ∈ of_zone)
  /\ StronglySorted (newest_first occ_timestamp) rows
  /\ (0 <= default 100 limit ->
      Z.of_nat (length rows) <= default 100 limit
      /\ (forall r r',
            r ∈ rows -> r' ∈ of_zone -> r' ∉ rows ->
            occ_timestamp r' <= occ_timestamp r)
      /\ (Z.of_nat (length of_zone) <= default 100 limit ->
          rows ≡ₚ of_zone)).
Proof.
  cbv zeta. unfold getRecentOccupancy. cbv zeta.
  set (of_zone := filter (fun r => occ_zone_id r = zoneId) (occupancy_log d)).
  pose proof (order_by_desc_perm occ_timestamp of_zone) as Hperm.
  pose proof (order_by_desc_sorted occ_timestamp of_zone) as Hsorted.
  split; [|split].
  - intros r Hr%limit_offset_elem. by rewrite Hperm in Hr.
  - by apply limit_offset_sorted.
  - intros Hl. unfold limit_offset. cbv zeta.
    destruct (Z.ltb_spec (default 100 limit) 0); [lia|].
    change (Z.to_nat 0) with 0%nat. rewrite drop_0.
    split; [rewrite length_take; lia|]. split.
    + intros r r' Hr Hr' Hout.
      apply (sorted_split _ (Z.to_nat (default 100 limit)) _ r r' Hsorted Hr).
      rewrite <- Hperm in Hr'.
      rewrite <- (take_drop (Z.to_nat (default 100 limit))
                    (order_by_desc occ_timestamp of_zone)) in Hr'.
      apply elem_of_app in Hr' as [?|?]; done.
    + intros Hall. rewrite take_ge; [done|].
      rewrite (Permutation_length Hperm). lia.
Qed.

End PageFacts.

(** ** The scheduler under reconfiguration *)

Module ReconfigureFacts.
Import RoundRobin Reconfigure.

(** What holds of the scheduler between calls. *)
Record sound (s : State) : Prop := {
  sd_cursor :
    enabled (config s) = true -> cameras (config s) <> [] ->
    (currentIndex s < length (cameras (config s)))%nat;
  sd_timer :
    intervalHandle s
    = if enabled (config s) then Some (intervalMs (config s)) else None
}.

Lemma sound_initial : sound initial.
Proof. split; [done|reflexivity]. Qed.

Lemma sound_processNext (s : State) : sound s -> sound (processNext s).1.
Proof.
  intros [Hc Ht].
  destruct (enabled (config s)) eqn:Hen.
  - destruct (decide (cameras (config s) = [])) as [Hcs|Hcs].
    + unfold processNext. rewrite Hen, Hcs. cbn.
      split; [by rewrite Hcs | by rewrite Hen].
    + rewrite (RoundRobinFacts.processNext_running s Hen Hcs).
      split; cbn [fst config currentIndex intervalHandle];
        [|by rewrite Hen].
      intros _ _. apply Nat.mod_upper_bound. by destruct (cameras (config s)).
  - unfold processNext. rewrite Hen. cbn.
    split; [by rewrite Hen | by rewrite Hen].
Qed.

Lemma sound_start cams i (s : State) : sound (start cams i s).1.
Proof.
  unfold start. destruct cams as [|c cs].
  - unfold processNext. cbn. split; done.
  - rewrite RoundRobinFacts.processNext_running by done.
    split; cbn [fst config currentIndex intervalHandle enabled cameras
                intervalMs]; [|done].
    intros _ _. apply Nat.mod_upper_bound. done.
Qed.

Lemma sound_stop (s : State) : sound (stop s).
Proof. split; done. Qed.

Lemma sound_updateConfig p (s : State) :
  sound s -> sound (updateConfig p s).1.
Proof.
  intros [Hc Ht]. unfold updateConfig. cbv zeta. cbn [enabled config].
  destruct (enabled (config s)) eqn:Hen.
  - apply sound_start.
  - split; cbn; rewrite ?Hen; [done|]. exact Ht.
Qed.

Lemma sound_call c (s : State) : sound s -> sound (call c s).1.
Proof.
  intros Hs. destruct c; simpl.
  - apply sound_start.
  - apply sound_stop.
  - by apply sound_updateConfig.
  - by apply sound_processNext.
Qed.

Lemma sound_calls cs : sound (calls cs initial).1.
Proof.
  unfold calls. induction cs as [|c cs IH] using rev_ind.
  - apply sound_initial.
  - rewrite foldl_snoc.
    destruct (foldl _ _ cs) as [s ts]. simpl in *.
    pose proof (sound_call c s IH) as Hc.
    by destruct (call c s).
Qed.

(** X21.  The scheduler stays consistent under every sequence of calls.
    After any sequence of [start], [stop], [updateConfig] and timer
    firings from the initial state: the timer is installed exactly when
    the scheduler is enabled, and then with the configured interval; and
    [getStatus().currentCamera] is null exactly when the scheduler is
    stopped or has no camera, and is otherwise one of the configured
    cameras (never undefined). *)
Theorem scheduler_sound (cs : list Call) :
  let s := (calls cs initial).1 in
  intervalHandle s
  = (if enabled (config s) then Some (intervalMs (config s)) else None)
  /\ (currentCamera s = None
      <-> enabled (config s) = false \/ cameras (config s) = [])
  /\ (forall c, currentCamera s = Some c -> c ∈ cameras (config s)).
Proof.
  cbv zeta. destruct (sound_calls cs) as [Hc Ht].
  set (s := (calls cs initial).1) in *.
  split; [done|]. unfold currentCamera.
  destruct (enabled (config s)) eqn:Hen; simpl.
  - destruct (cameras (config s)) as [|c0 cams] eqn:Hcams; simpl.
    + split; [split; [by right|done]|]. done.
    + specialize (Hc eq_refl ltac:(done)).
      destruct (lookup_lt_is_Some_2 (c0 :: cams) (currentIndex s) Hc)
        as [c Hcur].
      rewrite Hcur. split.
      * split; [done|]. by intros [?|?].
      * intros c' [= <-]. by eapply list_elem_of_lookup_2.
  - split; [split; [by left|done]|]. done.
Qed.

End ReconfigureFacts.

(** ** Reconfiguration while ticks are in flight *)

Module RestartFacts.
Import Reconfigure RoundRobinAsync.

(** X22.  [updateConfig].  It never changes [enabled], so it neither
    starts a stopped scheduler nor stops a running one, and
    [newConfig.enabled] has no effect.  A camera list that is given
    replaces the old one, also when it is empty; an interval of 0 and an
    empty URL are ignored.  On a stopped scheduler nothing else happens:
    no tick begins and the cursor, the timer and the ticks in flight stay
    as they are.  A running scheduler is restarted: the timer is
    installed with the resulting interval, the cursor is reset to 0, and
    a tick begins at once on the first camera of the resulting list (none
    if the list is empty).  When [updateConfig] returns, that tick is
    still in flight, beside those that were in flight before, and the
    cursor is still 0; it moves on when one of them settles, to 1 modulo
    the number of cameras, or to NaN if the list is empty. *)
Theorem updateConfig_restart (newConfig : ConfigPatch) (s : State) :
  let r := updateConfig newConfig s in
  let cams :=
    default (RoundRobin.cameras (config s)) (new_cameras newConfig) in
  let interval :=
    match new_intervalMs newConfig with
    | Some i => if i =? 0 then RoundRobin.intervalMs (config s) else i
    | None => RoundRobin.intervalMs (config s)
    end in
  RoundRobin.enabled (config r.1) = RoundRobin.enabled (config s)
  /\ RoundRobin.cameras (config r.1) = cams
  /\ RoundRobin.intervalMs (config r.1) = interval
  /\ (new_go2rtcUrl newConfig = None \/ new_go2rtcUrl newConfig = Some "" ->
      RoundRobin.go2rtcUrl (config r.1) = RoundRobin.go2rtcUrl (config s))
  /\ (RoundRobin.enabled (config s) = false ->
      r.2 = RoundRobin.NoOp /\ currentIndex r.1 = currentIndex s
      /\ intervalHandle r.1 = intervalHandle s
      /\ in_flight r.1 = in_flight s)
  /\ (RoundRobin.enabled (config s) = true ->
      r.2 = (if decide (cams = []) then RoundRobin.NoOp
             else RoundRobin.Analyzed (head cams))
      /\ intervalHandle r.1 = Some interval
      /\ currentIndex r.1 = Index 0
      /\ in_flight r.1
         = (if decide (cams = []) then in_flight s else S (in_flight s))
      /\ (in_flight r.1 <> 0%nat ->
          currentIndex (resume r.1)
          = if decide (cams = []) then NaN
            else Index (1 mod length cams))).
Proof.
  cbv zeta. unfold updateConfig. cbv zeta.
  cbn [RoundRobin.enabled config].
  destruct (RoundRobin.enabled (config s)) eqn:Hen.
  - destruct (default (RoundRobin.cameras (config s))
                      (new_cameras newConfig)) as [|c cams] eqn:Hcams.
    + unfold start, stop, processNext, Js.or_default. cbn.
      split; [done|]. split; [done|]. split; [done|].
      split; [by intros [->| ->]|]. split; [done|]. intros _.
      split; [done|]. split; [done|]. split; [done|]. split; [done|].
      unfold resume. cbn. destruct (in_flight s); [done|]. done.
    + unfold start, stop, processNext, Js.or_default.
      cbn [fst snd config currentIndex intervalHandle in_flight
           RoundRobin.enabled RoundRobin.cameras RoundRobin.intervalMs
           RoundRobin.go2rtcUrl negb orb length Nat.eqb].
      split; [done|]. split; [done|]. split; [done|].
      split; [by intros [->| ->]|]. split; [done|]. intros _.
      rewrite !decide_False by done.
      split; [done|]. split; [done|]. split; [done|]. split; [done|].
      intros _. reflexivity.
  - cbn. split; [done|]. split; [done|]. split; [done|].
    split; [by intros [->| ->]|]. split; [done|]. done.
Qed.

End RestartFacts.

(** ** A tick of the scheduler *)

Module AnalyzerFacts.
Import Database Queries Analyzer.

Section Analyze.
Variable toGrayscale : list Z -> Js.Result ImageProcessor.Gray.
Variable toPng : ImageProcessor.Gray -> list Z.
Variable clock : string -> Z.
Variable meanwhile : nat -> Server.State -> Server.State.

(** [event_clock zoneId] is the instant that the event logger reads when
    it is called for the zone. *)
Variable event_clock : string -> Z.

(** The callback that [/round-robin/start] installs. *)
Definition installed
  : option (Server.State -> RoundRobin.AnalysisResult -> Server.State) :=
  Some (fun s result =>
          Server.onUpdate (event_clock (RoundRobin.zone_id result)) s result).

(** What the loop does with one result: the row of the occupancy log,
    then the callback. *)
Definition publish (s : Server.State) (r : RoundRobin.AnalysisResult)
  : Server.State :=
  Server.onUpdate (event_clock (RoundRobin.zone_id r))
    (with_db (logOccupancy (clock (RoundRobin.zone_id r)) (Server.db s)
                           (RoundRobin.zone_id r) (RoundRobin.count r)) s)
    r.

(** The result reported for a zone. *)
Definition reports (cameraId : string) (zone : Zone)
    (r : RoundRobin.AnalysisResult) : Prop :=
  RoundRobin.camera_id r = cameraId
  /\ RoundRobin.zone_id r = z_id zone
  /\ RoundRobin.zone_name r = z_name zone
  /\ RoundRobin.count r = Z.of_nat (length (RoundRobin.blobs r))
  /\ RoundRobin.alarm r = (RoundRobin.count r >=? alarm_threshold zone)
  /\ RoundRobin.timestamp r = clock (z_id zone).

Lemma analyzeFrame_count frame bg polygon options a :
  ImageProcessor.analyzeFrame toGrayscale toPng frame bg polygon options
  = Js.Ok a ->
  ImageProcessor.count a = Z.of_nat (length (ImageProcessor.blobs a)).
Proof.
  unfold ImageProcessor.analyzeFrame. cbv zeta.
  destruct (toGrayscale frame) as [g|]; [|done]. simpl.
  destruct bg as [b|]; simpl.
  - destruct (toGrayscale b) as [gb|]; [|done]. simpl.
    destruct (negb _ || negb _); [done|]. simpl. by intros [= <-].
  - by intros [= <-].
Qed.

(** One iteration that completes: the zone had its row, and the state
    is the one published. *)
Lemma analyze_zone_ok frame bg cameraId s zone s' r :
  analyze_zone toGrayscale toPng clock installed frame bg cameraId s zone
  = Js.Ok (s', r) ->
  reports cameraId zone r
  /\ is_Some (zones (Server.db s) !! z_id zone)
  /\ s' = publish s r.
Proof.
  unfold analyze_zone.
  destruct (ImageProcessor.analyzeFrame _ _ _ _ _ _) as [a|msg] eqn:Ha;
    [|done].
  cbn [mbind Result_bind Js.bind].
  unfold ForeignKeys.logOccupancy, ForeignKeys.references_zone.
  case_bool_decide as Hz; [|done].
  cbn [mbind Result_bind Js.bind installed].
  intros [= <- <-]. split; [|done].
  repeat split. by eapply analyzeFrame_count.
Qed.

Lemma zone_loop_prefix frame bg cameraId (zones : list Zone) :
  forall k s results,
    exists rs,
      (zone_loop toGrayscale toPng clock installed meanwhile frame bg
                 cameraId k s results zones).2
      = results ++ rs
      /\ Forall2 (reports cameraId) (take (length rs) zones) rs
      /\ ((forall k s, meanwhile k s = s) ->
          (zone_loop toGrayscale toPng clock installed meanwhile frame bg
                     cameraId k s results zones).1
          = foldl publish s rs).
Proof.
  induction zones as [|zone zones IH]; intros k s results.
  - exists []. by rewrite app_nil_r.
  - cbn [zone_loop].
    destruct (analyze_zone _ _ _ _ _ _ _ (meanwhile k s) zone)
      as [[s' r]|msg] eqn:Hz.
    + apply analyze_zone_ok in Hz as (Hr & _ & ->).
      destruct (IH (S k) (publish (meanwhile k s) r) (results ++ [r]))
        as (rs & Hrs & Hrep & Hquiet).
      exists (r :: rs). split; [by rewrite Hrs, <- app_assoc|].
      split; [by constructor|].
      intros Hq. rewrite (Hquiet Hq). cbn. by rewrite Hq.
    + exists []. rewrite app_nil_r. split; [done|]. split; [constructor|].
      intros Hq. cbn. by rewrite Hq.
Qed.

Lemma publish_others (s : Server.State) (r : RoundRobin.AnalysisResult)
    (z : string) :
  z <> RoundRobin.zone_id r ->
  Server.currentOccupancy (publish s r) !! z
  = Server.currentOccupancy s !! z
  /\ activeZoneSessions (Server.db (publish s r)) !! z
     = activeZoneSessions (Server.db s) !! z.
Proof.
  intros Hz. unfold publish, Server.onUpdate. cbv zeta.
  destruct (negb _).
  - unfold logParkingEvent, classify.
    destruct (_ && _); [|destruct (_ && _);
      [destruct (_ !! RoundRobin.zone_id r)|destruct (negb _)]];
      cbn; rewrite ?lookup_insert_ne, ?lookup_delete_ne by done; done.
  - cbn. by rewrite lookup_insert_ne.
Qed.

Lemma foldl_publish_others (rs : list RoundRobin.AnalysisResult)
    (s : Server.State) (z : string) :
  z ∉ RoundRobin.zone_id <$> rs ->
  Server.currentOccupancy (foldl publish s rs) !! z
  = Server.currentOccupancy s !! z
  /\ activeZoneSessions (Server.db (foldl publish s rs)) !! z
     = activeZoneSessions (Server.db s) !! z.
Proof.
  induction rs as [|r rs IH] using rev_ind; intros Hz; [done|].
  rewrite fmap_app in Hz. rewrite foldl_snoc.
  destruct (publish_others (foldl publish s rs) r z) as [-> ->].
  - intros ->. apply Hz, elem_of_app. right. by left.
  - apply IH. intros Hin. apply Hz, elem_of_app. by left.
Qed.


End Analyze.

(** Two zones of camera "front", read in the order b, a; zone a is
    deleted by a DELETE request served while the tick waits for its
    analysis.  Zone b is published, and the row of zone a is refused: the
    tick returns one result for two zones. *)
Definition two_zone_state : Server.State :=
  {| Server.currentOccupancy := ∅;
     Server.db := DurationFacts.two_zones;
     Server.sent := [] |}.

Definition delete_during_second (k : nat) (s : Server.State)
  : Server.State :=
  if (k =? 2)%nat
  then with_db (deleteZone (Server.db s) "a").1 s
  else s.

Example analyzeCamera_partial :
  let r :=
    analyzeCamera RawCodec.toGrayscale RawCodec.toPng (fun _ => 1000)
      (installed (fun _ => 1000)) delete_during_second
      (Js.Ok RawCodec.dot) ∅ two_zone_state "front" in
  length (filter (fun z => z_camera_id z = Some "front")
                 (getAllZones (Server.db two_zone_state))) = 2%nat
  /\ RoundRobin.zone_id <$> r.2 = ["b"]
  /\ occ_zone_id <$> occupancy_log (Server.db r.1) = ["b"].
Proof. vm_compute. done. Qed.

End AnalyzerFacts.

(** ** The external detector when it answers *)

Module HailoFacts.
Import DetectionModes.

(** [options.confidenceThreshold || 0.5] *)
Definition threshold_in_force (options : Options) : Q :=
  match confidenceThreshold options with
  | Some t => if Qeq_bool t 0 then (1 # 2)%Q else t
  | None => (1 # 2)%Q
  end.

(** The class filter: in force when a non-empty list is given. *)
Definition class_allowed (options : Options) (d : Detection) : Prop :=
  match classes options with
  | Some (c :: cs) => class d ∈ c :: cs
  | Some [] | None => True
  end.

Definition mode_of (modelType : ModelType) : DetectionMode :=
  match modelType with yolov5 => hailo_yolo | ssd => hailo_ssd end.

Lemma sublist_List_filter {A} (f : A -> bool) (l : list A) :
  sublist (List.filter f l) l.
Proof.
  induction l as [|a l IH]; [constructor|]. simpl.
  destruct (f a); by constructor.
Qed.

Lemma elem_of_List_filter {A} (f : A -> bool) (l : list A) (a : A) :
  a ∈ List.filter f l <-> a ∈ l /\ f a = true.
Proof. rewrite !list_elem_of_In. apply filter_In. Qed.

Section Detect.
Variable toGrayscale : list Z -> Js.Result ImageProcessor.Gray.
Variable toPng : ImageProcessor.Gray -> list Z.

(** X24.  The external detector's answer is filtered, not trusted.  When
    the service answers with a payload that carries no error and can be
    normalised (the list read is an array without [null]), [detectHailo]
    succeeds without decoding the frame, reports the mode of the model
    asked for and the inference time of the payload (the measured one
    when none or 0 is given), and returns some of the normalized
    detections, in the order of the payload.  Every detection returned
    has a confidence of at least the threshold in force (0.5 when none or
    0 is given) and a class in the list of classes when a non-empty list
    is given; [count] is their number.  With an empty polygon nothing is
    returned, and an empty [detections] array in the payload hides
    [objects].  (Which detections pass the centre test is not stated
    here.) *)
Theorem detectHailo_filters
    (frameBuffer : list Z) (polygon : list ImageProcessor.Point)
    (modelType : ModelType) (options : Options) (p : Payload)
    (elapsed elapsedBlob : Z) :
  DetectionModesFacts.failed (Json p) = false ->
  exists r elements,
    detectHailo toGrayscale toPng frameBuffer polygon modelType options
                (Json p) elapsed elapsedBlob
    = Js.Ok r
    /\ rawDetections p = Array (Some <$> elements)
    /\ mode r = mode_of modelType
    /\ count r = Z.of_nat (length (detections r))
    /\ inferenceTimeMs r = Js.or_default (inferenceMs p) elapsed
    /\ sublist (detections r) (normalize <$> elements)
    /\ (forall d,
          d ∈ detections r ->
          (threshold_in_force options <= confidence d)%Q
          /\ class_allowed options d)
    /\ (polygon = [] -> detections r = [])
    /\ (p_detections p = Some (Array []) -> detections r = []).
Proof.
  intros Hf. simpl in Hf. apply orb_false_iff in Hf as [Herr Hmal].
  unfold detectHailo, hailo_try. cbn. rewrite Herr. cbn.
  destruct (rawDetections p) as [|elems] eqn:Hraw; [done|].
  pose proof (DetectionModesFacts.map_normalize_outcome elems) as Hout.
  cbn [normalize_all].
  destruct (map_normalize elems) as [ds|msg];
    [|by rewrite Hout in Hmal].
  destruct Hout as (_ & Helems & ->). cbn.
  eexists _, (omap id elems). split; [reflexivity|].
  cbn [mode count detections inferenceTimeMs].
  split; [by rewrite Helems|]. split; [by destruct modelType|].
  split; [done|]. split; [done|].
  fold (threshold_in_force options).
  split; [|split; [|split]].
  - etrans; [apply sublist_List_filter|].
    destruct (classes options) as [[|c cs]|];
      (etrans; [|apply sublist_List_filter]);
      first [done | apply sublist_List_filter].
  - intros d. rewrite elem_of_List_filter, Qle_bool_iff.
    unfold class_allowed.
    destruct (classes options) as [[|c cs]|];
      rewrite ?elem_of_List_filter, ?bool_decide_eq_true; tauto.
  - intros ->.
    assert (List.filter (center_in_polygon [])
                        (normalize <$> omap id elems) = []) as ->.
    { induction (normalize <$> omap id elems) as [|d l IH]; [done|].
      simpl. exact IH. }
    by destruct (classes options) as [[|]|].
  - intros Hp. unfold rawDetections in Hraw. rewrite Hp in Hraw.
    injection Hraw as <-. by destruct (classes options) as [[|]|].
Qed.

End Detect.

(** A payload with four detections, for the polygon around the pixels
    (0, 0) to (4, 4): a car in the zone, a person in the zone, a car in
    the zone with a low confidence, and a car far outside. *)
Definition four_detections : Payload :=
  {| p_detections :=
       Some (Array
         [ Some {| label := Some "car"; raw_confidence := Some (9 # 10)%Q;
                   raw_bbox := Some (BBoxArray 1 1 1 1) |};
           Some {| label := Some "person"; raw_confidence := Some (8 # 10)%Q;
                   raw_bbox := Some (BBoxArray 2 2 1 1) |};
           Some {| label := Some "car"; raw_confidence := Some (3 # 10)%Q;
                   raw_bbox := Some (BBoxArray 2 1 1 1) |};
           Some {| label := Some "car"; raw_confidence := Some (9 # 10)%Q;
                   raw_bbox := Some (BBoxArray 10 10 2 2) |} ]);
     p_objects := None; inferenceMs := Some 12; error := None |}.

Definition cars_only : Options :=
  {| minBlobArea := None; maxBlobArea := None;
     confidenceThreshold := None; classes := Some ["car"] |}.

Lemma detectHailo_filters_witness :
  exists r,
    detectHailo RawCodec.toGrayscale RawCodec.toPng [] RawCodec.square
      yolov5 cars_only (Json four_detections) 0 0
    = Js.Ok r
    /\ mode r = hailo_yolo
    /\ forall d, d ∈ detections r -> class d ∈ ["car"].
Proof.
  destruct (detectHailo_filters RawCodec.toGrayscale RawCodec.toPng
              [] RawCodec.square yolov5 cars_only four_detections 0 0)
    as (r & elements & Hr & _ & Hmode & _ & _ & _ & Hpass & _).
  - reflexivity.
  - exists r. split; [exact Hr|]. split; [exact Hmode|].
    intros d Hd. apply (Hpass d Hd).
Defined.

(** Of the four, only the first car is returned. *)
Example four_detections_result :
  (fun r => class <$> detections r)
  <$> match detectHailo RawCodec.toGrayscale RawCodec.toPng []
              RawCodec.square yolov5 cars_only (Json four_detections) 0 0
      with Js.Ok r => Some r | Js.Throw _ => None end
  = Some ["car"].
Proof. vm_compute. reflexivity. Qed.

End HailoFacts.

(** ** The request handlers *)

Module HandlersFacts.
Import Database Queries Handlers.

(** A point of the body with two numbers as coordinates. *)
Definition is_point (e : option RawPoint) : Prop :=
  exists p, e = Some p /\ is_Some (raw_x p) /\ is_Some (raw_y p).

(** The request body is acceptable to POST /zones. *)
Definition acceptable (body : ZoneBody) : Prop :=
  Js.truthy_string (b_name body) = true
  /\ exists polygon,
       b_polygon body = Some polygon
       /\ (3 <= length polygon)%nat
       /\ Forall is_point polygon.

(** The body has a name and an array of at least three elements, and
    the first element of the array that is not a point is [null]. *)
Definition null_first (body : ZoneBody) : Prop :=
  Js.truthy_string (b_name body) = true
  /\ exists polygon i,
       b_polygon body = Some polygon
       /\ (3 <= length polygon)%nat
       /\ polygon !! i = Some None
       /\ Forall is_point (take i polygon).

Lemma numeric_is_point (p : RawPoint) :
  numeric p = true <-> is_point (Some p).
Proof.
  unfold numeric, is_point. split.
  - intros H. exists p.
    destruct (raw_x p), (raw_y p); try done; repeat split; by eexists.
  - intros (p' & [= <-] & [? Hx] & [? Hy]). by rewrite Hx, Hy.
Qed.

(** What the validation loop decides. *)
Lemma validate_outcome (polygon : list (option RawPoint)) :
  match validate polygon with
  | Js.Ok None => Forall is_point polygon
  | Js.Ok (Some r) =>
      status_of r = 400
      /\ exists i p, polygon !! i = Some (Some p) /\ numeric p = false
                     /\ Forall is_point (take i polygon)
  | Js.Throw _ =>
      exists i, polygon !! i = Some None /\ Forall is_point (take i polygon)
  end.
Proof.
  induction polygon as [|[p|] polygon IH]; cbn [validate].
  - constructor.
  - destruct (numeric p) eqn:Hp; cbn [negb].
    + apply numeric_is_point in Hp.
      destruct (validate polygon) as [[r|]|msg].
      * destruct IH as (Hr & i & q & Hi & Hq & Hbefore).
        split; [done|]. exists (S i), q. split; [done|]. split; [done|].
        by constructor.
      * by constructor.
      * destruct IH as (i & Hi & Hbefore). exists (S i). split; [done|].
        by constructor.
    + split; [done|]. exists 0%nat, p. split; [done|]. split; [done|].
      constructor.
  - exists 0%nat. split; [done|]. constructor.
Qed.

Lemma first_offender (polygon : list (option RawPoint)) (i j : nat) e :
  Forall is_point (take i polygon) -> polygon !! j = Some e ->
  ~ is_point e -> (i <= j)%nat.
Proof.
  intros Hi Hj He. destruct (decide (i <= j)%nat) as [|Hlt]; [done|].
  exfalso. apply He. rewrite Forall_forall in Hi. apply Hi.
  apply list_elem_of_lookup. exists j. rewrite lookup_take_lt by lia. done.
Qed.

Lemma not_point_null : ~ is_point None.
Proof. by intros (p & ? & _). Qed.

Lemma not_point_other (p : RawPoint) : numeric p = false -> ~ is_point (Some p).
Proof. intros Hp Hpt%numeric_is_point. congruence. Qed.


(** A body whose polygon holds a [null]: the answer is 500, not 400. *)
Example post_zones_null_point :
  let body :=
    {| b_name := Some "Bay A"; b_camera_id := Some "front";
       b_polygon :=
         Some [Some {| raw_x := Some 0%Q; raw_y := Some 0%Q |};
               None;
               Some {| raw_x := Some 4%Q; raw_y := Some 0%Q |}];
       b_min_blob_area := None; b_max_blob_area := None;
       b_alarm_threshold := None |} in
  status_of (post_zones 0 "z1" body empty_db []).1.1 = 500.
Proof. reflexivity. Qed.

(** X26.  DELETE /zones/:id.  The answer is 200 exactly when the zone
    exists, and 404 otherwise.  On 200 the zone is gone, its published
    count is removed, [zone_deleted] is broadcast, and the zones and the
    published counts of every other id are kept.  On 404 the published
    counts are unchanged and nothing is broadcast. *)
Theorem delete_zone_handler
    (zoneId : string) (d : Db)
    (currentOccupancy : gmap string Server.Occupancy)
    (sent : list Broadcast) :
  let '(response, d', occ', sent') :=
    delete_zone zoneId d currentOccupancy sent in
  (status_of response = 200 <-> is_Some (getZone d zoneId))
  /\ (status_of response = 404 <-> getZone d zoneId = None)
  /\ getZone d' zoneId = None
  /\ (forall id, id <> zoneId ->
                 getZone d' id = getZone d id
                 /\ occ' !! id = currentOccupancy !! id)
  /\ (status_of response = 200 ->
      occ' !! zoneId = None /\ sent' = sent ++ [zone_deleted zoneId])
  /\ (status_of response = 404 ->
      occ' = currentOccupancy /\ sent' = sent).
Proof.
  unfold delete_zone, deleteZone, delete_zone_row, delete_event_rows,
    delete_occupancy_rows, getZone. cbn.
  destruct (zones d !! zoneId) as [z|] eqn:Hz; cbn.
  - rewrite lookup_delete_eq.
    split; [split; [by eexists|done]|]. split; [done|]. split; [done|].
    split; [|split; [|done]].
    + intros id Hne. by rewrite !lookup_delete_ne.
    + intros _. by rewrite lookup_delete_eq.
  - rewrite lookup_delete_eq.
    split; [split; [done|by intros [? ?]]|]. split; [done|]. split; [done|].
    split; [|split; [done|done]].
    intros id Hne. by rewrite lookup_delete_ne.
Qed.

Lemma filter_none {A} (P : A -> Prop) `{!forall a, Decision (P a)}
    (l : list A) :
  (forall a, ~ P a) -> filter P l = [].
Proof.
  intros HP. induction l as [|a l IH]; [done|].
  rewrite filter_cons, decide_False by apply HP. done.
Qed.

(** The zones that the scheduler analyzes for a camera. *)
Definition scheduled (d : Db) (cameraId : string) : list Zone :=
  filter (fun z => z_camera_id z = Some cameraId) (getAllZones d).

(** X27.  Which zones POST /analyze analyzes.  The zones are taken from
    [getAllZones()] in its order.  A list of ids keeps the zones whose id
    is in the list (an empty list keeps none).  A non-empty camera id
    keeps the zones of that camera and, besides them, every zone that has
    no camera; so for a camera the handler analyzes the zones that the
    scheduler analyzes for it and the unassigned zones, which the
    scheduler never analyzes. *)
Theorem zones_to_analyze_selection
    (d : Db) (zoneIds : option (list string)) (cameraId : option string) :
  sublist (zones_to_analyze d zoneIds cameraId) (getAllZones d)
  /\ (forall z,
        z ∈ zones_to_analyze d zoneIds cameraId
        <-> z ∈ getAllZones d
            /\ (forall ids, zoneIds = Some ids -> z_id z ∈ ids)
            /\ (Js.truthy_string cameraId = true ->
                z_camera_id z = cameraId \/ unassigned z = true))
  /\ zones_to_analyze d (Some []) cameraId = []
  /\ (forall c z,
        cameraId = Some c -> c <> "" ->
        (z ∈ zones_to_analyze d None cameraId
         <-> z ∈ scheduled d c
             \/ z ∈ getAllZones d /\ unassigned z = true))
  /\ (forall c z, z ∈ scheduled d c -> unassigned z = true -> c = "").
Proof.
  unfold zones_to_analyze, scheduled. cbv zeta.
  split; [|split; [|split; [|split]]].
  - destruct (Js.truthy_string cameraId), zoneIds as [ids|];
      repeat (etrans; [apply sublist_filter|]); done.
  - intros z.
    destruct (Js.truthy_string cameraId), zoneIds as [ids|];
      rewrite ?list_elem_of_filter; split.
    + intros (Hc & Hi & Hz). split; [done|]. split; [by intros ? [= <-]|done].
    + intros (Hz & Hi & Hc). split; [by apply Hc|]. split; [by apply Hi|done].
    + intros (Hc & Hz). split; [done|]. split; [done|done].
    + intros (Hz & _ & Hc). split; [by apply Hc|done].
    + intros (Hi & Hz). split; [done|]. split; [by intros ? [= <-]|done].
    + intros (Hz & Hi & _). split; [by apply Hi|done].
    + intros Hz. split; [done|]. split; done.
    + by intros (Hz & _).
  - rewrite (filter_none (fun z => z_id z ∈ [])).
    + by destruct (Js.truthy_string cameraId).
    + intros z Hz. by apply elem_of_nil in Hz.
  - intros c z -> Hc.
    assert (Js.truthy_string (Some c) = true) as -> by (by destruct c).
    rewrite !list_elem_of_filter. tauto.
  - intros c z [Hcam _]%list_elem_of_filter. unfold unassigned.
    rewrite Hcam. by destruct c.
Qed.

End HandlersFacts.

(** ** The stored backgrounds *)

Module BackgroundStoreFacts.
Import ImageProcessor Queries Handlers.

Section Codec.
Variable toGrayscale : list Z -> Js.Result Gray.
Variable toPng : Gray -> list Z.

(** X28.  POST /background settles on the frame.  For a camera without
    a stored background, a frame that decodes (to a picture whose
    encoding decodes to it again), posted with a non-empty camera id, is
    answered with 200 and stored as the encoded grayscale picture; the
    backgrounds of the other cameras are not touched; posting the same
    frame again is answered with 200 and leaves the stored background as
    it is; and the frame analysed against the stored background shows
    nothing, for every zone polygon and all options with a threshold
    [>= 0]. *)
Theorem post_background_settles
    (frame : list Z) (cameraId : string) (g : Gray)
    (t : gmap string (list Z)) :
  cameraId <> "" ->
  toGrayscale frame = Js.Ok g ->
  toGrayscale (toPng g) = Js.Ok g ->
  BackgroundFacts.bytes (data g) ->
  getBackgroundFrame t cameraId = None ->
  let first := post_background toGrayscale toPng frame (Some cameraId) t in
  let second :=
    post_background toGrayscale toPng frame (Some cameraId) first.2 in
  first.1 = ok 200
  /\ getBackgroundFrame first.2 cameraId = Some (toPng g)
  /\ (forall c, c <> cameraId ->
                getBackgroundFrame first.2 c = getBackgroundFrame t c)
  /\ second = (ok 200, first.2)
  /\ (forall polygon options,
        0 <= default 30 (threshold options) ->
        analyzeFrame toGrayscale toPng frame
                     (getBackgroundFrame first.2 cameraId) polygon options
        = Js.Ok (AnalyzeFacts.nothing toPng g)).
Proof.
  intros Hid Hg Hpng Hbytes Hnone. cbv zeta.
  assert (Js.truthy_string (Some cameraId) = true) as Htruthy
    by (by destruct cameraId).
  assert (post_background toGrayscale toPng frame (Some cameraId) t
          = (ok 200, <[cameraId := toPng g]> t)) as ->.
  { unfold post_background. rewrite Htruthy.
    cbn [negb]. cbv zeta. cbn [from_option]. unfold Datatypes.id.
    rewrite Hnone. unfold updateBackground. rewrite Hg. done. }
  cbn [fst snd]. unfold getBackgroundFrame.
  rewrite lookup_insert_eq.
  split; [done|]. split; [done|].
  split; [by intros c Hc; rewrite lookup_insert_ne|]. split.
  - unfold post_background. rewrite Htruthy.
    cbn [negb]. cbv zeta. cbn [from_option].
    unfold Datatypes.id, getBackgroundFrame.
    rewrite lookup_insert_eq. unfold updateBackground.
    rewrite Hg. simpl. rewrite Hpng. simpl.
    rewrite (BackgroundFacts.imap_fixed (data g)).
    + unfold saveBackgroundFrame. rewrite insert_insert_eq. by destruct g.
    + intros i c Hc. rewrite Hc.
      apply BackgroundFacts.running_average_fixed.
      eapply Forall_lookup_1 in Hbytes; [|exact Hc]. done.
  - intros polygon options Ht.
    by apply AnalyzeFacts.analyzeFrame_unchanged.
Qed.

End Codec.

Lemma post_background_settles_witness :
  let first :=
    post_background RawCodec.toGrayscale RawCodec.toPng
      [2; 1; 200; 7] (Some "front") ∅ in
  first.1 = ok 200
  /\ getBackgroundFrame first.2 "front" = Some [2; 1; 200; 7].
Proof.
  destruct (post_background_settles
              RawCodec.toGrayscale RawCodec.toPng
              [2; 1; 200; 7] "front"
              {| data := [200; 7]; width := 2; height := 1 |} ∅)
    as (Hok & Hget & _).
  - discriminate.
  - reflexivity.
  - reflexivity.
  - repeat constructor; lia.
  - reflexivity.
  - split; [exact Hok | exact Hget].
Defined.

(** A camera's frame was fetched. *)
Definition captured (f : Fetched) : bool :=
  match f with fetched _ => true | _ => false end.

Lemma capture_all_snoc fetch cameras c t :
  capture_all fetch (cameras ++ [c]) t
  = capture fetch (capture_all fetch cameras t) c.
Proof. unfold capture_all. by rewrite foldl_snoc. Qed.

(** X29.  POST /backgrounds/capture-all treats every camera on its own.
    The answer lists every discovered camera once, in order, with
    [success] telling whether its frame was fetched; the stored background
    of a camera whose frame was fetched is that frame, as fetched; and the
    stored background of every other camera, discovered or not, is what it
    was: a camera that fails neither stops the loop nor loses its
    background. *)
Theorem capture_all_independent
    (fetch : string -> Fetched) (cameras : list string)
    (t : gmap string (list Z)) :
  let '(t', results) := capture_all fetch cameras t in
  results
  = map (fun c => {| cap_camera_id := c; success := captured (fetch c) |})
        cameras
  /\ forall c,
       getBackgroundFrame t' c
       = match fetch c with
         | fetched buffer =>
             if decide (c ∈ cameras) then Some buffer
             else getBackgroundFrame t c
         | _ => getBackgroundFrame t c
         end.
Proof.
  induction cameras as [|c0 cameras IH] using rev_ind.
  - cbn. split; [done|]. intros c. by destruct (fetch c).
  - rewrite capture_all_snoc.
    destruct (capture_all fetch cameras t) as [t' results].
    destruct IH as [-> Hget]. unfold capture. cbn [fst snd].
    unfold getBackgroundFrame, saveBackgroundFrame in *.
    destruct (fetch c0) as [buffer| |] eqn:Hc0.
    + split; [by rewrite map_app; cbn; rewrite Hc0|]. intros c.
      destruct (decide (c = c0)) as [->|Hne].
      * rewrite lookup_insert_eq, Hc0, decide_True; [done|].
        apply elem_of_app. right. by left.
      * rewrite lookup_insert_ne, Hget by done.
        destruct (fetch c); [|done..].
        destruct (decide (c ∈ cameras)) as [Hin|Hout].
        -- rewrite decide_True; [done|]. apply elem_of_app. by left.
        -- rewrite decide_False; [done|].
           intros [?|?%list_elem_of_singleton]%elem_of_app; done.
    + split; [by rewrite map_app; cbn; rewrite Hc0|]. intros c.
      rewrite Hget. destruct (fetch c) eqn:Hc; [|done..].
      destruct (decide (c ∈ cameras)) as [Hin|Hout].
      * rewrite decide_True; [done|]. apply elem_of_app. by left.
      * rewrite decide_False; [done|].
        intros [?|Heq%list_elem_of_singleton]%elem_of_app; [done|].
        congruence.
    + split; [by rewrite map_app; cbn; rewrite Hc0|]. intros c.
      rewrite Hget. destruct (fetch c) eqn:Hc; [|done..].
      destruct (decide (c ∈ cameras)) as [Hin|Hout].
      * rewrite decide_True; [done|]. apply elem_of_app. by left.
      * rewrite decide_False; [done|].
        intros [?|Heq%list_elem_of_singleton]%elem_of_app; [done|].
        congruence.
Qed.

End BackgroundStoreFacts.
